(** * ZenOS Nix extension: heuristic diagnostics and syntax masking

    A shallow embedding of [src/extension.ts] (the diagnostic engine, the
    typed-declaration checker, the two masking passes and the debounce
    scheduler) together with the properties stated about them.

    Text is a list of 8-bit code units.  JavaScript strings are sequences of
    16-bit code units; every character class used by the extension is decided
    on the Latin-1 range the same way, so the embedding restricts documents to
    that range and nothing else. *)

From Stdlib Require Import List Bool Arith Lia NArith ZArith Ascii.
From Stdlib Require String DecimalString.
Import ListNotations.
Import String.StringSyntax.
Open Scope string_scope.
Open Scope list_scope.
Open Scope nat_scope.

Set Implicit Arguments.

(* ================================================================== *)
(** * Part I.  The embedding                                           *)
(* ================================================================== *)

Definition text := list ascii.

Definition str (s : String.string) : text := String.list_ascii_of_string s.

(** The double quote cannot be written inside a literal, so it gets a name. *)
Definition dquote : ascii := ascii_of_nat 34.
Definition newline : ascii := ascii_of_nat 10.

(** ** JavaScript string primitives *)

Module Js.

Definition code (c : ascii) : N := N_of_ascii c.

Definition in_range (lo hi : N) (c : ascii) : bool :=
  (lo <=? code c)%N && (code c <=? hi)%N.

Definition is_digit (c : ascii) : bool := in_range 48 57 c.

Definition is_alpha (c : ascii) : bool :=
  in_range 65 90 c || in_range 97 122 c.

(** [\w] *)
Definition is_word (c : ascii) : bool :=
  is_alpha c || is_digit c || Ascii.eqb c "_".

(** [[a-zA-Z0-9_-]] *)
Definition is_ident (c : ascii) : bool := is_word c || Ascii.eqb c "-".

(** [\s], which is also the set removed by [trim]: tab, LF, VT, FF, CR,
    space and the no-break space. *)
Definition is_space (c : ascii) : bool :=
  in_range 9 13 c || (code c =? 32)%N || (code c =? 160)%N.

(** Line terminators, the characters [.] does not match. *)
Definition is_line_terminator (c : ascii) : bool :=
  (code c =? 10)%N || (code c =? 13)%N.

Fixpoint text_eqb (a b : text) : bool :=
  match a, b with
  | [], [] => true
  | x :: a', y :: b' => Ascii.eqb x y && text_eqb a' b'
  | _, _ => false
  end.

Fixpoint startsWith (s p : text) : bool :=
  match p, s with
  | [], _ => true
  | x :: p', y :: s' => Ascii.eqb x y && startsWith s' p'
  | _ :: _, [] => false
  end.

Definition endsWith (s p : text) : bool := startsWith (rev s) (rev p).

(** [s.indexOf(p)] scanning from the start of [s]; [None] is JavaScript's -1. *)
Fixpoint indexOf (s p : text) : option nat :=
  if startsWith s p then Some 0
  else match s with
       | [] => None
       | _ :: s' => option_map S (indexOf s' p)
       end.

(** [s.indexOf(p, from)] *)
Definition indexOfFrom (s p : text) (from : nat) : option nat :=
  if length s <? from then (if length p =? 0 then Some (length s) else None)
  else option_map (Nat.add from) (indexOf (skipn from s) p).

Definition includes (s p : text) : bool :=
  match indexOf s p with Some _ => true | None => false end.

(** [s.lastIndexOf(p)] *)
Fixpoint lastIndexOf (s p : text) : option nat :=
  match s with
  | [] => if startsWith [] p then Some 0 else None
  | _ :: s' =>
      match lastIndexOf s' p with
      | Some i => Some (S i)
      | None => if startsWith s p then Some 0 else None
      end
  end.

(** [s.substring(a, b)]: the arguments are clamped to the length and swapped
    when [a > b]. *)
Definition substring (s : text) (a b : nat) : text :=
  let a' := Nat.min a (length s) in
  let b' := Nat.min b (length s) in
  let lo := Nat.min a' b' in
  let hi := Nat.max a' b' in
  firstn (hi - lo) (skipn lo s).

(** [s.substring(a)] *)
Definition substringFrom (s : text) (a : nat) : text := skipn a s.

Fixpoint trimStart (s : text) : text :=
  match s with
  | c :: s' => if is_space c then trimStart s' else s
  | [] => []
  end.

Definition trimEnd (s : text) : text := rev (trimStart (rev s)).

Definition trim (s : text) : text := trimEnd (trimStart s).

(** [c.repeat(n)] for a one-character string. *)
Definition repeat (c : ascii) (n : nat) : text := List.repeat c n.

(** [s.split(sep)] for a one-character separator. *)
Fixpoint split (sep : ascii) (s : text) : list text :=
  match s with
  | [] => [[]]
  | c :: s' =>
      if Ascii.eqb c sep then [] :: split sep s'
      else match split sep s' with
           | l :: ls => (c :: l) :: ls
           | [] => [[c]]
           end
  end.

(** [parts.join(sep)] *)
Fixpoint join (sep : text) (parts : list text) : text :=
  match parts with
  | [] => []
  | [p] => p
  | p :: ps => p ++ sep ++ join sep ps
  end.

(** [xs.includes(x)] on an array of strings. *)
Definition includesText (xs : list text) (x : text) : bool :=
  existsb (text_eqb x) xs.

(** Decimal rendering of a number inside a template literal. *)
Definition ofNat (n : nat) : text :=
  str (DecimalString.NilZero.string_of_uint (Nat.to_uint n)).

(** [parseInt(s, 10)] on a string of decimal digits. *)
Definition parseDigits (s : text) : nat :=
  fold_left (fun acc c => 10 * acc + (N.to_nat (code c) - 48)) s 0.

End Js.

(** ** Regular expressions

    A backtracking matcher in continuation-passing style, following the
    priorities of the ECMAScript pattern semantics: alternatives left to
    right, greedy repetition preferring one more iteration, lazy repetition
    preferring to stop, and an iteration that consumes nothing rejected. *)

Module Regex.

Inductive regex : Type :=
| Eps
| Chr (p : ascii -> bool)
| Cat (r1 r2 : regex)
| Alt (r1 r2 : regex)
| Star (r : regex)
| LazyStar (r : regex)
| Group (n : nat) (r : regex)
| Bol (multiline : bool)
| Eol
| WordB.

(** [r+] and [r?].  Every pattern of the extension under [+], [*] or [?]
    is free of capture groups or consumes at least one character, so the
    reset of captures between iterations and the rejection of an empty
    optional part never show. *)
Definition Plus (r : regex) : regex := Cat r (Star r).
Definition Opt (r : regex) : regex := Alt r Eps.
Definition Lit1 (c : ascii) : regex := Chr (Ascii.eqb c).

Fixpoint LitT (s : text) : regex :=
  match s with
  | [] => Eps
  | [c] => Lit1 c
  | c :: s' => Cat (Lit1 c) (LitT s')
  end.

Definition Lit (s : String.string) : regex := LitT (str s).

Fixpoint Alts (rs : list regex) : regex :=
  match rs with
  | [] => Eps
  | [r] => r
  | r :: rs' => Alt r (Alts rs')
  end.

Fixpoint Cats (rs : list regex) : regex :=
  match rs with
  | [] => Eps
  | [r] => r
  | r :: rs' => Cat r (Cats rs')
  end.

(** The matcher's position: the character just before it (for [^] and
    [\b]) and the input still ahead. *)
Record cursor := Cursor { prev : option ascii; rest : text }.

Definition caps := list (nat * text).

Fixpoint cap (n : nat) (cs : caps) : option text :=
  match cs with
  | [] => None
  | (k, v) :: cs' => if k =? n then Some v else cap n cs'
  end.

Definition wordish (o : option ascii) : bool :=
  match o with Some c => Js.is_word c | None => false end.

Definition at_bol (multiline : bool) (c : cursor) : bool :=
  match prev c with
  | None => true
  | Some p => multiline && Js.is_line_terminator p
  end.

Definition at_wordb (c : cursor) : bool :=
  negb (Bool.eqb (wordish (prev c)) (wordish (hd_error (rest c)))).

Section Matcher.
Variable R : Type.

Definition cont := cursor -> caps -> option R.

Definition progress (before after : cursor) : bool :=
  length (rest after) <? length (rest before).

(** Greedy repetition of [step]: one more iteration is tried first, then
    the continuation.  An iteration must consume at least one character, so
    [n], the length of the input ahead, bounds the iterations left. *)
Fixpoint star_loop (step : cursor -> caps -> cont -> option R) (k : cont)
    (n : nat) (c : cursor) (cs : caps) {struct n} : option R :=
  match n with
  | 0 => k c cs
  | S n' =>
      match step c cs
              (fun c' cs' =>
                 if progress c c' then star_loop step k n' c' cs' else None)
      with
      | Some res => Some res
      | None => k c cs
      end
  end.

(** Lazy repetition of [step]: the continuation is tried first. *)
Fixpoint lazy_loop (step : cursor -> caps -> cont -> option R) (k : cont)
    (n : nat) (c : cursor) (cs : caps) {struct n} : option R :=
  match n with
  | 0 => k c cs
  | S n' =>
      match k c cs with
      | Some res => Some res
      | None =>
          step c cs
            (fun c' cs' =>
               if progress c c' then lazy_loop step k n' c' cs' else None)
      end
  end.

Fixpoint run (r : regex) (c : cursor) (cs : caps) (k : cont) {struct r}
  : option R :=
  match r with
  | Eps => k c cs
  | Chr p =>
      match rest c with
      | x :: xs => if p x then k (Cursor (Some x) xs) cs else None
      | [] => None
      end
  | Cat r1 r2 => run r1 c cs (fun c' cs' => run r2 c' cs' k)
  | Alt r1 r2 =>
      match run r1 c cs k with
      | Some res => Some res
      | None => run r2 c cs k
      end
  | Star r1 => star_loop (run r1) k (length (rest c)) c cs
  | LazyStar r1 => lazy_loop (run r1) k (length (rest c)) c cs
  | Group n r1 =>
      run r1 c cs
        (fun c' cs' =>
           k c' ((n, firstn (length (rest c) - length (rest c')) (rest c))
                   :: cs'))
  | Bol ml => if at_bol ml c then k c cs else None
  | Eol => match rest c with [] => k c cs | _ :: _ => None end
  | WordB => if at_wordb c then k c cs else None
  end.
End Matcher.

(** One successful match: where it starts, what it covers, its capture
    groups, and the cursor right after it. *)
Record rmatch := RMatch {
  m_index : nat;
  m_text : text;
  m_caps : caps;
  m_after : cursor
}.

Definition group (n : nat) (m : rmatch) : option text :=
  match n with
  | 0 => Some (m_text m)
  | _ => cap n (m_caps m)
  end.

(** The match attempt at one position. *)
Definition match_here (r : regex) (c : cursor) (idx : nat) : option rmatch :=
  run r c []
    (fun c' cs =>
       Some (RMatch idx (firstn (length (rest c) - length (rest c')) (rest c))
               cs c')).

(** [RegExpBuiltinExec] without the sticky flag: the leftmost position at
    which the pattern matches, together with the text stepped over. *)
Fixpoint search (r : regex) (p : option ascii) (s : text) (idx : nat)
  : option (text * rmatch) :=
  match match_here r (Cursor p s) idx with
  | Some m => Some ([], m)
  | None =>
      match s with
      | [] => None
      | x :: s' =>
          match search r (Some x) s' (S idx) with
          | Some (skipped, m) => Some (x :: skipped, m)
          | None => None
          end
      end
  end.

(** [s.match(re)] and [re.exec(s)] for a pattern without the global flag. *)
Definition exec (r : regex) (s : text) : option rmatch :=
  option_map snd (search r None s 0).

(** [re.test(s)] *)
Definition test (r : regex) (s : text) : bool :=
  match exec r s with Some _ => true | None => false end.

(** The pieces a global pattern cuts a string into: text between matches
    and the matches themselves, in order.  After an empty match the search
    resumes one character further on, as [AdvanceStringIndex] does. *)
Inductive piece := Keep (t : text) | Hit (m : rmatch).

Fixpoint pieces_from (fuel : nat) (r : regex) (c : cursor) (idx : nat)
  : list piece :=
  match fuel with
  | 0 => [Keep (rest c)]
  | S fuel' =>
      match search r (prev c) (rest c) idx with
      | None => [Keep (rest c)]
      | Some (skipped, m) =>
          Keep skipped :: Hit m ::
            match m_text m, rest (m_after m) with
            | [], [] => []
            | [], x :: xs =>
                Keep [x] :: pieces_from fuel' r (Cursor (Some x) xs)
                              (S (m_index m))
            | _ :: _, _ =>
                pieces_from fuel' r (m_after m)
                  (m_index m + length (m_text m))
            end
      end
  end.

Definition pieces (r : regex) (s : text) : list piece :=
  pieces_from (S (length s)) r (Cursor None s) 0.

(** Every match of a global pattern, as the [while (re.exec(s))] idiom and
    [s.match(re)] see them. *)
Definition matchAll (r : regex) (s : text) : list rmatch :=
  flat_map (fun p => match p with Hit m => [m] | Keep _ => [] end)
    (pieces r s).

(** [s.replace(re, f)] for a global pattern and a replacer function. *)
Definition replaceAll (r : regex) (f : rmatch -> text) (s : text) : text :=
  flat_map (fun p => match p with Keep t => t | Hit m => f m end)
    (pieces r s).

(** [s.replace(re, f)] for a pattern without the global flag: only the
    first match is replaced. *)
Definition replaceFirst (r : regex) (f : rmatch -> text) (s : text) : text :=
  match search r None s 0 with
  | None => s
  | Some (skipped, m) => skipped ++ f m ++ rest (m_after m)
  end.

End Regex.

(** ** The editor host's data model *)

Module Vscode.

(** [new vscode.Range(startLine, startCharacter, endLine, endCharacter)] *)
Record range := Range {
  start_line : nat;
  start_col : nat;
  end_line : nat;
  end_col : nat
}.

Inductive severity := Error | Warning | Information | Hint.

Record diagnostic := Diagnostic {
  d_range : range;
  d_message : text;
  d_severity : severity
}.

(** [doc.positionAt(offset)] for a document whose line ends are single line
    feeds: the line and column reached after [offset] characters. *)
Fixpoint position_from (s : text) (offset line col : nat) : nat * nat :=
  match offset, s with
  | 0, _ => (line, col)
  | _, [] => (line, col)
  | S o, c :: s' =>
      if Ascii.eqb c newline then position_from s' o (S line) 0
      else position_from s' o line (S col)
  end.

Definition positionAt (s : text) (offset : nat) : nat * nat :=
  position_from s offset 0 0.

Definition rangeOf (a b : nat * nat) : range :=
  Range (fst a) (snd a) (fst b) (snd b).

(** [doc.lineCount] *)
Definition lineCount (s : text) : nat := length (Js.split newline s).

End Vscode.

Import Regex Vscode.

(** Character classes shared by the patterns of the extension. *)
Definition ws : regex := Chr Js.is_space.
Definition identc : regex := Chr Js.is_ident.
Definition digit : regex := Chr Js.is_digit.
Definition anyc : regex := Chr (fun _ => true).
Definition dot : regex := Chr (fun c => negb (Js.is_line_terminator c)).
Definition oneOf (s : String.string) : regex :=
  Chr (fun c => existsb (Ascii.eqb c) (str s)).
Definition noneOf (s : String.string) : regex :=
  Chr (fun c => negb (existsb (Ascii.eqb c) (str s))).

(** ** runStaticHeuristics: the bracket and statement scanner *)

Module Heuristics.

Record entry := Entry { e_char : ascii; e_line : nat; e_col : nat }.

(** The scanner's local variables.  [stack] has its top at the head;
    [diagnostics] is kept in push order. *)
Record state := State {
  stack : list entry;
  arrayDepth : nat;
  inMultiline : bool;
  insideActionBlock : bool;
  actionBlockDepth : nat;
  diagnostics : list diagnostic
}.

Definition init : state := State [] 0 false false 0 [].

Definition is_open (c : ascii) : bool :=
  Js.includesText [str "("; str "{"; str "["] [c].

Definition is_close (c : ascii) : bool :=
  Js.includesText [str ")"; str "}"; str "]"] [c].

(** [pairs[char]] *)
Definition pairs (c : ascii) : option ascii :=
  if Ascii.eqb c ")" then Some "("%char
  else if Ascii.eqb c "}" then Some "{"%char
  else if Ascii.eqb c "]" then Some "["%char
  else None.

Definition unexpected (i j : nat) (c : ascii) : diagnostic :=
  Diagnostic (Range i j i (j + 1))
    (str "Unexpected closing character '" ++ [c] ++ str "'.") Error.

Definition unclosed (e : entry) : diagnostic :=
  Diagnostic (Range (e_line e) (e_col e) (e_line e) (e_col e + 1))
    (str "Unclosed character '" ++ [e_char e] ++ str "'.") Error.

Definition push_diag (d : diagnostic) (st : state) : state :=
  State (stack st) (arrayDepth st) (inMultiline st) (insideActionBlock st)
    (actionBlockDepth st) (diagnostics st ++ [d]).

(** The body of the inner [for (j ...)] loop. *)
Definition scan_char (i j : nat) (c : ascii) (st : state) : state :=
  if is_open c then
    State (Entry c i j :: stack st)
      (if Ascii.eqb c "[" then S (arrayDepth st) else arrayDepth st)
      (inMultiline st) (insideActionBlock st) (actionBlockDepth st)
      (diagnostics st)
  else if is_close c then
    let depth :=
      if Ascii.eqb c "]" then Nat.max 0 (arrayDepth st - 1)
      else arrayDepth st in
    let last := hd_error (stack st) in
    let st' :=
      State (tl (stack st)) depth (inMultiline st) (insideActionBlock st)
        (actionBlockDepth st) (diagnostics st) in
    match last, pairs c with
    | Some e, Some o =>
        if Ascii.eqb (e_char e) o then st' else push_diag (unexpected i j c) st'
    | _, _ => push_diag (unexpected i j c) st'
    end
  else st.

Fixpoint scan_chars (i j : nat) (cs : text) (st : state) : state :=
  match cs with
  | [] => st
  | c :: cs' => scan_chars i (S j) cs' (scan_char i j c st)
  end.

(** [cleanLine]: the line up to its first [#]. *)
Definition clean (line : text) : text :=
  match Js.indexOf line (str "#") with
  | Some idx => Js.substring line 0 idx
  | None => line
  end.

(** [/''/g] *)
Definition rawQuoteRe : regex := Lit "''".

(** [/_(?:u|s)?action\s*=/] *)
Definition actionRe : regex :=
  Cats [Lit1 "_"; Opt (Alt (Lit1 "u") (Lit1 "s")); Lit "action"; Star ws;
        Lit1 "="].

(** [/^!(\s*\{|$)/] *)
Definition bangLineRe : regex :=
  Cats [Bol false; Lit1 "!"; Group 1 (Alt (Cat (Star ws) (Lit1 "{")) Eol)].

(** [/\}\s+([a-zA-Z0-9_-]+)/] *)
Definition inlineRe : regex :=
  Cats [Lit1 "}"; Plus ws; Group 1 (Plus identc)].

(** [/^[;\])}]|^(in|then|else)\b/] *)
Definition nextLineRe : regex :=
  Alt (Cat (Bol false) (oneOf ";])}"))
      (Cats [Bol false; Group 1 (Alts [Lit "in"; Lit "then"; Lit "else"]);
             WordB]).

(** [/^(let|in|with|inherit|if|then|else|_let)\b/] *)
Definition keywordRe : regex :=
  Cats [Bol false;
        Group 1 (Alts [Lit "let"; Lit "in"; Lit "with"; Lit "inherit";
                       Lit "if"; Lit "then"; Lit "else"; Lit "_let"]);
        WordB].

(** [/[a-zA-Z0-9_-]/] *)
Definition identCharRe : regex := identc.

Definition continuationKeywords : list text :=
  [str "in"; str "then"; str "else"].

Definition validEndings : list text :=
  [str ";"; str "{"; str "["; str "("; str "''"; str "="].

Definition expectedSemi (i idx : nat) : diagnostic :=
  Diagnostic (Range i idx i (idx + 1)) (str "Expected ';' after '}'.") Error.

Definition missingSemiAfterBrace (i idx : nat) : diagnostic :=
  Diagnostic (Range i idx i (idx + 1)) (str "Missing ';' after '}'.") Error.

Definition missingAssign (i a b : nat) : diagnostic :=
  Diagnostic (Range i a i b) (str "Missing '=' assignment.") Error.

Definition missingSemi (i a b : nat) : diagnostic :=
  Diagnostic (Range i a i b)
    (str "Missing ';' at the end of the statement.") Error.

(** The look-ahead of the second close-brace check: the first later line
    that is not blank once its comment is cut off, or the empty string. *)
Fixpoint nextContent (later : list text) : text :=
  match later with
  | [] => []
  | l :: later' =>
      let nl := Js.trim (hd [] (Js.split "#" l)) in
      match nl with
      | [] => nextContent later'
      | _ :: _ => nl
      end
  end.

(** A result of [lastIndexOf] used as a column.  Both call sites have just
    seen a close brace in the line, so -1 does not arise. *)
Definition column (o : option nat) : nat :=
  match o with Some idx => idx | None => 0 end.

Definition setFlags (ml ab : bool) (depth : nat) (st : state) : state :=
  State (stack st) (arrayDepth st) ml ab depth (diagnostics st).

(** The two close-brace checks under [if (!skipHeuristics)]. *)
Definition braceChecks (later : list text) (i : nat) (cleanLine trimmed : text)
    (st : state) : state :=
  let st1 :=
    match exec inlineRe cleanLine with
    | Some m =>
        match group 1 m with
        | Some word =>
            if negb (Js.includesText continuationKeywords word) then
              push_diag
                (expectedSemi i (column (Js.lastIndexOf cleanLine (str "}"))))
                st
            else st
        | None => st
        end
    | None => st
    end in
  if Js.endsWith trimmed (str "}") then
    let nextLine := nextContent later in
    match nextLine with
    | _ :: _ =>
        if negb (test nextLineRe nextLine) then
          push_diag
            (missingSemiAfterBrace i
               (column (Js.lastIndexOf cleanLine (str "}"))))
            st1
        else st1
    | [] => st1
    end
  else st1.

(** The statement-shape checks under
    [if (arrayDepth === 0 && !skipHeuristics)]. *)
Definition statementChecks (i : nat) (cleanLine trimmed : text)
    (startIdx endIdx : nat) (st : state) : state :=
  if test keywordRe trimmed || Js.startsWith trimmed (str "}") then st
  else if test identCharRe trimmed then
    let st1 :=
      if negb (Js.includes cleanLine (str "="))
         && negb (Js.endsWith trimmed (str "{"))
         && negb (Js.endsWith trimmed (str "''"))
      then push_diag (missingAssign i startIdx endIdx) st
      else st in
    if Js.includes cleanLine (str "=") then
      let endsValidly := existsb (fun e => Js.endsWith trimmed e) validEndings in
      if negb endsValidly then push_diag (missingSemi i startIdx endIdx) st1
      else st1
    else st1
  else st.

(** [inMultiline] once the raw-string delimiters of the line are counted. *)
Definition multilineAfter (st : state) (cleanLine : text) : bool :=
  let quoteCount := length (matchAll rawQuoteRe cleanLine) in
  if negb (quoteCount mod 2 =? 0) then negb (inMultiline st)
  else inMultiline st.

(** [skipHeuristics], fixed before the brackets of the line are read. *)
Definition skipHeuristics (st : state) (cleanLine : text) : bool :=
  multilineAfter st cleanLine || insideActionBlock st.

(** One turn of the outer [for (i ...)] loop; [later] holds the lines
    after line [i]. *)
Definition scan_line (later : list text) (i : nat) (line : text) (st : state)
  : state :=
  let cleanLine := clean line in
  let trimmed := Js.trim cleanLine in
  match trimmed with
  | [] => st
  | _ :: _ =>
      let startIdx :=
        Nat.max 0 (column (Js.indexOf cleanLine trimmed)) in
      let endIdx := startIdx + length trimmed in
      let ml := multilineAfter st cleanLine in
      let skipHeuristics := skipHeuristics st cleanLine in
      let st1 :=
        scan_chars i 0 cleanLine
          (setFlags ml (insideActionBlock st) (actionBlockDepth st) st) in
      let st2 :=
        if test actionRe trimmed || test bangLineRe trimmed
        then setFlags ml true (length (stack st1)) st1
        else st1 in
      let st3 :=
        if insideActionBlock st2
           && (length (stack st2) <? actionBlockDepth st2)
        then setFlags ml false (actionBlockDepth st2) st2
        else st2 in
      let st4 :=
        if negb skipHeuristics then braceChecks later i cleanLine trimmed st3
        else st3 in
      if (arrayDepth st4 =? 0) && negb skipHeuristics
      then statementChecks i cleanLine trimmed startIdx endIdx st4
      else st4
  end.

Fixpoint scan_lines (i : nat) (lines : list text) (st : state) : state :=
  match lines with
  | [] => st
  | l :: later => scan_lines (S i) later (scan_line later i l st)
  end.

(** The closing [while (stack.length > 0)] loop. *)
Definition drain (st : state) : list diagnostic :=
  diagnostics st ++ map unclosed (stack st).

(** The scanner's state when the line loop ends. *)
Definition finalState (doc : text) : state :=
  scan_lines 0 (Js.split newline doc) init.

Definition runStaticHeuristics (doc : text) : list diagnostic :=
  drain (finalState doc).

End Heuristics.

(** ** runTypeChecks: the typed-declaration checker *)

Module TypeChecks.

(** [/_let\s+([a-zA-Z0-9_-]+)\s*:\s*(?:\$type\.)?([a-zA-Z0-9_-]+)(?:\s*\[([\s\S]*?)\])?\s*=/g] *)
Definition letRegex : regex :=
  Cats [Lit "_let"; Plus ws; Group 1 (Plus identc); Star ws; Lit1 ":";
        Star ws; Opt (Lit "$type."); Group 2 (Plus identc);
        Opt (Cats [Star ws; Lit1 "["; Group 3 (LazyStar anyc); Lit1 "]"]);
        Star ws; Lit1 "="].

(** [/^-?\d+$/] *)
Definition intRe : regex :=
  Cats [Bol false; Opt (Lit1 "-"); Plus digit; Eol].

(** [/^-?\d+(\.\d+)?$/] *)
Definition floatRe : regex :=
  Cats [Bol false; Opt (Lit1 "-"); Plus digit;
        Opt (Group 1 (Cat (Lit1 ".") (Plus digit))); Eol].

(** [/^\x22|\x22$/g], writing [\x22] for the double quote *)
Definition edgeQuoteRe : regex :=
  Alt (Cat (Bol false) (Lit1 dquote)) (Cat (Lit1 dquote) Eol).

(** [/\x22([^\x22]+)\x22/g] *)
Definition optionRe : regex :=
  Cats [Lit1 dquote; Group 1 (Plus (Chr (fun c => negb (Ascii.eqb c dquote))));
        Lit1 dquote].

(** [/\x22/g] *)
Definition quoteRe : regex := Lit1 dquote.

Definition typeError (r : range) (msg : text) : diagnostic :=
  Diagnostic r (str "Type Error: " ++ msg) Error.

(** The option list of an enum declaration: the quoted literals inside the
    brackets, with their quotes removed. *)
Definition enumOptions (enumContent : option text) : list text :=
  match enumContent with
  | Some ((_ :: _) as content) =>
      map (fun m => replaceAll quoteRe (fun _ => []) (m_text m))
        (matchAll optionRe content)
  | _ => []
  end.

Definition capOr (n : nat) (m : rmatch) : text :=
  match group n m with Some t => t | None => [] end.

(** The checks on one declaration whose value is [valText] at [r]. *)
Definition checkValue (varName varType : text) (enumContent : option text)
    (valText : text) (r : range) : list diagnostic :=
  if Js.text_eqb varType (str "string") then
    if negb (Js.startsWith valText [dquote])
       && negb (Js.startsWith valText (str "''"))
    then [typeError r (str "Expected a string for '" ++ varName ++ str "'.")]
    else []
  else if Js.text_eqb varType (str "int")
          || Js.text_eqb varType (str "integer") then
    if negb (test intRe valText)
    then [typeError r (str "Expected an integer for '" ++ varName ++ str "'.")]
    else []
  else if Js.text_eqb varType (str "float") then
    if negb (test floatRe valText)
    then [typeError r (str "Expected a float for '" ++ varName ++ str "'.")]
    else []
  else if Js.text_eqb varType (str "boolean") then
    if negb (Js.text_eqb valText (str "true"))
       && negb (Js.text_eqb valText (str "false"))
    then [typeError r
            (str "Expected boolean (true/false) for '" ++ varName ++ str "'.")]
    else []
  else if Js.text_eqb varType (str "enum") then
    let cleanVal := replaceAll edgeQuoteRe (fun _ => []) valText in
    let options := enumOptions enumContent in
    if negb (Js.includesText options cleanVal)
    then [typeError r
            (str "Value " ++ [dquote] ++ cleanVal ++ [dquote]
             ++ str " is not a valid option for enum '" ++ varName
             ++ str "'. Valid options: [" ++ Js.join (str ", ") options
             ++ str "]")]
    else []
  else [].

(** The body of the [while ((match = letRegex.exec(text)) !== null)] loop. *)
Definition checkMatch (doc : text) (m : rmatch) : list diagnostic :=
  let varName := capOr 1 m in
  let varType := capOr 2 m in
  let enumContent := group 3 m in
  let valueStartPos := m_index m + length (m_text m) in
  match Js.indexOfFrom doc (str ";") valueStartPos with
  | None => []
  | Some valueEndPos =>
      let valTextRaw := Js.substring doc valueStartPos valueEndPos in
      let valText := Js.trim valTextRaw in
      match valText with
      | [] => []
      | _ :: _ =>
          let startIdx :=
            valueStartPos + Heuristics.column (Js.indexOf valTextRaw valText) in
          let r :=
            rangeOf (positionAt doc startIdx)
              (positionAt doc (startIdx + length valText)) in
          checkValue varName varType enumContent valText r
      end
  end.

Definition runTypeChecks (doc : text) : list diagnostic :=
  flat_map (checkMatch doc) (matchAll letRegex doc).

End TypeChecks.

(** ** runNixCompilerChecks: length-preserving masking and the parser's
       verdict *)

Module Compiler.

Definition nodeKeywords : regex :=
  Alts [Lit "zmdl"; Lit "alias"; Lit "programs"; Lit "packages";
        Lit "freeform"; Lit "group"; Lit "import"; Lit "needs"].

(** [/_let\s+[a-zA-Z0-9_-]+\s*:\s*(?:\$type\.[a-zA-Z0-9_-]+|[a-zA-Z0-9_-]+)(?:\s*\[[\s\S]*?\])?\s*=/g] *)
Definition letRegex : regex :=
  Cats [Lit "_let"; Plus ws; Plus identc; Star ws; Lit1 ":"; Star ws;
        Alt (Cat (Lit "$type.") (Plus identc)) (Plus identc);
        Opt (Cats [Star ws; Lit1 "["; LazyStar anyc; Lit1 "]"]);
        Star ws; Lit1 "="].

(** [/\$[a-zA-Z0-9_.-]+/g] *)
Definition varRe : regex :=
  Cat (Lit1 "$")
    (Plus (Chr (fun c => Js.is_ident c || Ascii.eqb c "."))).

(** [/\(\s*(zmdl|alias|programs|packages|freeform|group|import|needs)(?:[^)(]|\([^)(]*\))*\)/g] *)
Definition nodeRe : regex :=
  Cats [Lit1 "("; Star ws; Group 1 nodeKeywords;
        Star (Alt (noneOf ")(")
                  (Cats [Lit1 "("; Star (noneOf ")("); Lit1 ")"]));
        Lit1 ")"].

(** [/!(\s{0,})\{/g], the source's star written as [{0,}] *)
Definition bangRe : regex := Cats [Lit1 "!"; Group 1 (Star ws); Lit1 "{"].

(** [/^\s*(\{!?|let\b|with\b|rec\b|\[|\(|\x22[^\x22]*\x22|'[^']*'|[a-zA-Z0-9_-]+\s*:)/] *)
Definition topLevelRe : regex :=
  Cats [Bol false; Star ws;
        Group 1
          (Alts [Cat (Lit1 "{") (Opt (Lit1 "!"));
                 Cat (Lit "let") WordB;
                 Cat (Lit "with") WordB;
                 Cat (Lit "rec") WordB;
                 Lit1 "[";
                 Lit1 "(";
                 Cats [Lit1 dquote;
                       Star (Chr (fun c => negb (Ascii.eqb c dquote)));
                       Lit1 dquote];
                 Cats [Lit1 "'"; Star (noneOf "'"); Lit1 "'"];
                 Cats [Plus identc; Star ws; Lit1 ":"]])].

(** The replacers.  A match of the declaration pattern has at least nine
    characters and one of the next two patterns at least two, so the
    counts handed to [repeat] are never negative and the subtractions on
    natural numbers below are the source's. *)
Definition maskLet (m : rmatch) : text :=
  str "_" ++ Js.repeat " " (length (m_text m) - 2) ++ str "=".

Definition maskVar (m : rmatch) : text :=
  str "v" ++ Js.repeat " " (length (m_text m) - 1).

Definition maskNode (m : rmatch) : text :=
  str "n" ++ Js.repeat " " (length (m_text m) - 1).

Definition maskBang (m : rmatch) : text :=
  let spaces := TypeChecks.capOr 1 m in
  if 0 <? length spaces
  then str "_=" ++ Js.repeat " " (length spaces - 1) ++ str "{"
  else str "_={".

(** The masked text after each of the four passes. *)
Definition pass1 (doc : text) : text := replaceAll letRegex maskLet doc.
Definition pass2 (doc : text) : text := replaceAll varRe maskVar (pass1 doc).
Definition pass3 (doc : text) : text := replaceAll nodeRe maskNode (pass2 doc).
Definition mask (doc : text) : text := replaceAll bangRe maskBang (pass3 doc).

(** The automatic wrap in braces, with the [isWrapped] flag. *)
Definition wrap (masked : text) : text * bool :=
  if negb (test topLevelRe masked)
  then (str "{" ++ [newline] ++ masked ++ [newline] ++ str "}", true)
  else (masked, false).

(** What is written to the parser's standard input. *)
Definition parserInput (doc : text) : text * bool := wrap (mask doc).

(** [/error: (.*?) at \(stdin\):(\d+):(\d+)/] *)
Definition errRe : regex :=
  Cats [Lit "error: "; Group 1 (LazyStar dot); Lit " at (stdin):";
        Group 2 (Plus digit); Lit1 ":"; Group 3 (Plus digit)].

(** The diagnostic built from a recognised error line. *)
Definition syntaxError (doc : text) (isWrapped : bool) (m : rmatch)
  : diagnostic :=
  let errLineOffset :=
    (Z.of_nat (Js.parseDigits (TypeChecks.capOr 2 m)) - 1)%Z in
  let errColOffset :=
    (Z.of_nat (Js.parseDigits (TypeChecks.capOr 3 m)) - 1)%Z in
  let errLineOffset' :=
    if isWrapped then (errLineOffset - 1)%Z else errLineOffset in
  let targetLine := Z.max 0 errLineOffset' in
  let safeCol := Z.to_nat (Z.max 0 errColOffset) in
  let maxLine := (Z.of_nat (lineCount doc) - 1)%Z in
  let finalLine := Z.to_nat (Z.min targetLine maxLine) in
  Diagnostic (Range finalLine safeCol finalLine (safeCol + 1))
    (str "Syntax Error: " ++ TypeChecks.capOr 1 m) Error.

(** The [close] handler: the diagnostic set handed to [collection.set].
    [code] is the exit status ([None] for JavaScript's null). *)
Definition onClose (doc : text) (existingDiagnostics : list diagnostic)
    (isWrapped : bool) (code : option nat) (stderr : text)
  : list diagnostic :=
  let diagnostics := existingDiagnostics in
  let nonzero := match code with Some 0 => false | _ => true end in
  if nonzero && negb (length stderr =? 0) then
    match exec errRe stderr with
    | Some m =>
        match group 2 m, group 3 m with
        | Some (_ :: _), Some (_ :: _) =>
            diagnostics ++ [syntaxError doc isWrapped m]
        | _, _ => diagnostics
        end
    | None => diagnostics
    end
  else diagnostics.

End Compiler.

(** ** provideDocumentFormattingEdits: masking for the formatter and
       restoration of its output *)

Module Format.

(** [maskDict]: a [Map] keeps its keys in insertion order, and [set] on a
    present key overwrites the value where it stands. *)
Definition dict := list (text * text).

Fixpoint dict_set (k v : text) (d : dict) : dict :=
  match d with
  | [] => [(k, v)]
  | (k', v') :: d' =>
      if Js.text_eqb k' k then (k', v) :: d' else (k', v') :: dict_set k v d'
  end.

Fixpoint dict_get (k : text) (d : dict) : option text :=
  match d with
  | [] => None
  | (k', v') :: d' => if Js.text_eqb k' k then Some v' else dict_get k d'
  end.

Definition dict_keys (d : dict) : list text := map fst d.

(** The masking state: the next [maskId] and the dictionary. *)
Record mstate := MState { maskId : nat; maskDict : dict }.

(** [`__ZEN_${prefix}_${id}__`] *)
Definition placeholderName (prefix : String.string) (id : nat) : text :=
  str "__ZEN_" ++ str prefix ++ str "_" ++ Js.ofNat id ++ str "__".

(** [maskMatch(match, prefix)] *)
Definition maskMatch (prefix : String.string) (m : rmatch) (st : mstate)
  : text * mstate :=
  let placeholder := placeholderName prefix (maskId st) in
  (placeholder, MState (S (maskId st)) (dict_set placeholder (m_text m) (maskDict st))).

(** [s.replace(re, f)] for a global pattern whose replacer updates the
    masking state; the replacer runs once per match, left to right. *)
Fixpoint replacePieces (f : rmatch -> mstate -> text * mstate)
    (ps : list piece) (st : mstate) : text * mstate :=
  match ps with
  | [] => ([], st)
  | Keep t :: ps' =>
      let (out, st') := replacePieces f ps' st in (t ++ out, st')
  | Hit m :: ps' =>
      let (r, st1) := f m st in
      let (out, st') := replacePieces f ps' st1 in (r ++ out, st')
  end.

Definition replaceAllSt (r : regex) (f : rmatch -> mstate -> text * mstate)
    (s : text) (st : mstate) : text * mstate :=
  replacePieces f (pieces r s) st.

(** [/_let\s+[a-zA-Z0-9_-]+\s*:\s*(?:\$type\.[a-zA-Z0-9_-]+|[a-zA-Z0-9_-]+)/g] *)
Definition letRegex : regex :=
  Cats [Lit "_let"; Plus ws; Plus identc; Star ws; Lit1 ":"; Star ws;
        Alt (Cat (Lit "$type.") (Plus identc)) (Plus identc)].

(** [/\$[a-zA-Z0-9_-]+/g] *)
Definition varRe : regex := Cat (Lit1 "$") (Plus identc).

(** The structural-node pattern is the one of the parser pass. *)
Definition nodeRe : regex := Compiler.nodeRe.

(** [/!(\s*\{)/g] *)
Definition bangRe : regex :=
  Cat (Lit1 "!") (Group 1 (Cat (Star ws) (Lit1 "{"))).

(** The forward scan for the assignment sign of a declaration: from index
    [i], with [before] the character at [i - 1], the index of the first [=]
    met at depth zero outside a string, or the length of the text. *)
Fixpoint scanAssign (before : option ascii) (s : text) (i : nat) (depth : Z)
    (inString : bool) : nat :=
  match s with
  | [] => i
  | char :: s' =>
      let inString' :=
        if Ascii.eqb char dquote
           && negb (match before with
                    | Some b => Ascii.eqb b "\"
                    | None => false
                    end)
        then negb inString else inString in
      if inString' then scanAssign (Some char) s' (S i) depth inString'
      else
        let d1 :=
          if Heuristics.is_open char then (depth + 1)%Z else depth in
        let d2 :=
          if Heuristics.is_close char then (d1 - 1)%Z else d1 in
        if (d2 =? 0)%Z && Ascii.eqb char "=" then i
        else scanAssign (Some char) s' (S i) d2 inString'
  end.

(** The variables of the declaration loop. *)
Record letLoop := LetLoop {
  newPrepText : text;
  currentIndex : nat;
  lstate : mstate
}.

(** One turn of [while ((letMatch = letRegex.exec(prepText)) !== null)]. *)
Definition letStep (prepText : text) (acc : letLoop) (m : rmatch) : letLoop :=
  let out := newPrepText acc
             ++ Js.substring prepText (currentIndex acc) (m_index m) in
  let stop := m_index m + length (m_text m) in
  let i :=
    scanAssign (prev (m_after m)) (skipn stop prepText) stop 0%Z false in
  let st := lstate acc in
  if (i <? length prepText)
     && match nth_error prepText i with
        | Some c => Ascii.eqb c "="
        | None => false
        end
  then
    let beforeArray := m_text m in
    let middleContent := Js.trim (Js.substring prepText stop i) in
    if 0 <? length middleContent then
      let startPlaceholder := placeholderName "LET_S" (maskId st) in
      let endPlaceholder := placeholderName "LET_E" (maskId st) in
      let d := dict_set endPlaceholder (str "=")
                 (dict_set startPlaceholder beforeArray (maskDict st)) in
      LetLoop
        (out ++ startPlaceholder ++ str " = " ++ middleContent ++ str ";"
             ++ [newline] ++ endPlaceholder ++ str " =")
        (i + 1) (MState (S (maskId st)) d)
    else
      let fullMatch := Js.substring prepText (m_index m) i in
      let placeholder := placeholderName "LET" (maskId st) in
      LetLoop (out ++ placeholder ++ str " =") (i + 1)
        (MState (S (maskId st))
           (dict_set placeholder (Js.trimEnd fullMatch) (maskDict st)))
  else
    LetLoop (out ++ m_text m) stop st.

(** Pass 1: typed declarations. *)
Definition maskLets (prepText : text) (st : mstate) : text * mstate :=
  let acc :=
    fold_left (letStep prepText) (matchAll letRegex prepText)
      (LetLoop [] 0 st) in
  (newPrepText acc ++ Js.substringFrom prepText (currentIndex acc), lstate acc).

(** The replacer of pass 4: the key stored is the placeholder together
    with the assignment sign and the brace. *)
Definition maskBang (m : rmatch) (st : mstate) : text * mstate :=
  let brace := TypeChecks.capOr 1 m in
  let placeholder :=
    str "__ZEN_BANG_" ++ Js.ofNat (maskId st) ++ str "__ =" ++ brace in
  (placeholder,
   MState (S (maskId st)) (dict_set placeholder (m_text m) (maskDict st))).

(** Passes 1 to 4 on the document text. *)
Definition mask (doc : text) : text * mstate :=
  let (t1, s1) := maskLets doc (MState 0 []) in
  let (t2, s2) := replaceAllSt varRe (maskMatch "VAR") t1 s1 in
  let (t3, s3) := replaceAllSt nodeRe (maskMatch "NODE") t2 s2 in
  replaceAllSt bangRe maskBang t3 s3.

(** Pass 5: the automatic wrap. *)
Definition wrap (prepText : text) : text * bool := Compiler.wrap prepText.

(** [/^  /gm] *)
Definition indentRe : regex := Cat (Bol true) (Lit "  ").

(** The unwrapping of the formatter's output. *)
Definition unwrap (stdout : text) : text :=
  let t0 := Js.trim stdout in
  let t1 := if Js.startsWith t0 (str "{") then Js.substringFrom t0 1 else t0 in
  let t2 :=
    if Js.endsWith t1 (str "}") then Js.substring t1 0 (length t1 - 1)
    else t1 in
  let t3 := replaceAll indentRe (fun _ => []) t2 in
  Js.trim t3 ++ [newline].

(** The restoration of one placeholder.  Placeholders are made of letters,
    digits, underscores, blanks, [=] and a final brace, all of which stand
    for themselves in [new RegExp(placeholder)]. *)
Definition restoreOne (d : dict) (finalText placeholder : text) : text :=
  let originalText :=
    match dict_get placeholder d with Some t => t | None => [] end in
  if Js.startsWith placeholder (str "__ZEN_LET_S_") then
    replaceFirst (Cats [LitT placeholder; Star ws; Lit1 "="])
      (fun _ => originalText) finalText
  else if Js.startsWith placeholder (str "__ZEN_LET_E_") then
    replaceFirst
      (Cats [Lit1 ";"; Star ws; LitT placeholder; Star ws; Lit1 "="])
      (fun _ => str " =") finalText
  else
    replaceAll (LitT placeholder) (fun _ => originalText) finalText.

(** The restoration loop, over the keys in reverse insertion order. *)
Definition restore (d : dict) (finalText : text) : text :=
  fold_left (restoreOne d) (rev (dict_keys d)) finalText.

Section Formatter.
(** The external formatter: from its standard input to its exit status
    ([None] for null), standard output and standard error. *)
Variable nixfmt : text -> option nat * text * text.

(** The edit resolved by the provider: [Some t] replaces the whole
    document by [t], [None] is the empty edit list. *)
Definition provideDocumentFormattingEdits (doc : text) : option text :=
  let (prepText0, st) := mask doc in
  let (prepText, isWrapped) := wrap prepText0 in
  let '(code, stdout, stderr) := nixfmt prepText in
  match code, stdout with
  | Some 0, _ :: _ =>
      let finalText := if isWrapped then unwrap stdout else stdout in
      Some (restore (maskDict st) finalText)
  | _, _ => None
  end.
End Formatter.

End Format.

(** ** scheduleDiagnostics and the event loop around it

    The host is single-threaded: the extension's code runs as handlers of
    events (a document change, a timer firing, a child process closing), one
    at a time.  The world below holds the module variable
    [diagnosticTimeout], the runtime's table of pending timers, the child
    processes still running, the open documents and the diagnostic
    collection. *)

Module Orchestrator.

Definition uri := nat.

(** A pending [setTimeout]: its handle and what its callback closes over. *)
Record timer := Timer {
  t_handle : nat;
  t_doc : uri;
  t_initial : list diagnostic
}.

(** A running [nix-instantiate]: what its [close] handler closes over. *)
Record process := Process {
  p_doc : uri;
  p_existing : list diagnostic;
  p_wrapped : bool;
  p_stdin : text
}.

Record world := World {
  diagnosticTimeout : option nat;
  pending : list timer;
  nextHandle : nat;
  running : list process;
  docs : uri -> text;
  collection : uri -> list diagnostic
}.

Definition init : world :=
  World None [] 0 [] (fun _ => []) (fun _ => []).

Definition update {A : Type} (f : uri -> A) (u : uri) (v : A) : uri -> A :=
  fun u' => if u' =? u then v else f u'.

(** [clearTimeout(handle)]: the timer leaves the table; clearing a handle
    that already fired changes nothing. *)
Definition clearTimeout (h : nat) (ts : list timer) : list timer :=
  filter (fun t => negb (t_handle t =? h)) ts.

(** [scheduleDiagnostics(doc, collection)] *)
Definition scheduleDiagnostics (u : uri) (w : world) : world :=
  let ts :=
    match diagnosticTimeout w with
    | Some h => clearTimeout h (pending w)
    | None => pending w
    end in
  let heuristics := Heuristics.runStaticHeuristics (docs w u) in
  let typeChecks := TypeChecks.runTypeChecks (docs w u) in
  let initialDiagnostics := heuristics ++ typeChecks in
  let h := nextHandle w in
  World (Some h) (ts ++ [Timer h u initialDiagnostics]) (S h) (running w)
    (docs w) (update (collection w) u initialDiagnostics).

(** [runNixCompilerChecks] up to the moment the child process is fed. *)
Definition runNixCompilerChecks (u : uri) (existing : list diagnostic)
    (w : world) : world :=
  let (stdin, isWrapped) := Compiler.parserInput (docs w u) in
  World (diagnosticTimeout w) (pending w) (nextHandle w)
    (running w ++ [Process u existing isWrapped stdin])
    (docs w) (collection w).

Fixpoint remove_nth {A : Type} (n : nat) (l : list A) : list A :=
  match n, l with
  | _, [] => []
  | 0, _ :: l' => l'
  | S n', x :: l' => x :: remove_nth n' l'
  end.

Inductive event :=
| Change (u : uri) (newText : text)
| Fire (h : nat)
| Close (k : nat) (code : option nat) (stderr : text).

(** One handler run to completion. *)
Definition handle (e : event) (w : world) : world :=
  match e with
  | Change u newText =>
      scheduleDiagnostics u
        (World (diagnosticTimeout w) (pending w) (nextHandle w) (running w)
           (update (docs w) u newText) (collection w))
  | Fire h =>
      match find (fun t => t_handle t =? h) (pending w) with
      | Some t =>
          runNixCompilerChecks (t_doc t) (t_initial t)
            (World (diagnosticTimeout w) (clearTimeout h (pending w))
               (nextHandle w) (running w) (docs w) (collection w))
      | None => w
      end
  | Close k code stderr =>
      match nth_error (running w) k with
      | Some p =>
          World (diagnosticTimeout w) (pending w) (nextHandle w)
            (remove_nth k (running w)) (docs w)
            (update (collection w) (p_doc p)
               (Compiler.onClose (docs w (p_doc p)) (p_existing p)
                  (p_wrapped p) code stderr))
      | None => w
      end
  end.

Definition run (es : list event) (w : world) : world :=
  fold_left (fun w e => handle e w) es w.

(** The worlds the extension can be in. *)
Inductive reachable : world -> Prop :=
| reach_init : reachable init
| reach_step : forall w e, reachable w -> reachable (handle e w).

End Orchestrator.

(** ** provideCompletionItems: the suggestions at the cursor *)

Module Completion.









(** [/_let\s+([a-zA-Z0-9_-]+)\s*:/g] *)
Definition letRegex : regex :=
  Cats [Lit "_let"; Plus ws; Group 1 (Plus identc); Star ws; Lit1 ":"].


















End Completion.

(** ** Vocabulary of the properties *)

(** Texts whose brackets are matched and well nested; other characters
    may stand anywhere. *)
Inductive balanced : text -> Prop :=
| bal_nil : balanced []
| bal_plain : forall c s,
    Heuristics.is_open c = false -> Heuristics.is_close c = false ->
    balanced s -> balanced (c :: s)
| bal_pair : forall o c s t,
    Heuristics.pairs c = Some o ->
    balanced s -> balanced t -> balanced (o :: s ++ c :: t).

(** The characters the scanner's bracket loop sees: the comment-stripped
    lines one after the other. *)
Definition strippedText (doc : text) : text :=
  concat (map Heuristics.clean (Js.split newline doc)).

(** The two structural diagnostics. *)
Definition isUnexpected (d : diagnostic) : bool :=
  Js.startsWith (d_message d) (str "Unexpected closing character").

Definition isUnclosed (d : diagnostic) : bool :=
  Js.startsWith (d_message d) (str "Unclosed character").

Definition isStructural (d : diagnostic) : bool :=
  isUnexpected d || isUnclosed d.

(** The two terminator diagnostics of the statement checks. *)
Definition isExpectedSemi (d : diagnostic) : bool :=
  Js.text_eqb (d_message d) (str "Expected ';' after '}'.").

Definition isMissingSemi (d : diagnostic) : bool :=
  Js.text_eqb (d_message d) (str "Missing ';' at the end of the statement.").

(** The scanner's state when its loop reaches line [n]. *)
Fixpoint stateBefore (n i : nat) (lines : list text) (st : Heuristics.state)
  : Heuristics.state :=
  match n, lines with
  | S n', l :: later =>
      stateBefore n' (S i) later (Heuristics.scan_line later i l st)
  | _, _ => st
  end.

Definition stateAt (doc : text) (n : nat) : Heuristics.state :=
  stateBefore n 0 (Js.split newline doc) Heuristics.init.

(** A state reduced to what the bracket loop reads and writes. *)
Definition core (st : Heuristics.state) : Heuristics.state :=
  Heuristics.State (Heuristics.stack st) (Heuristics.arrayDepth st)
    false false 0 [].

(** The bracket loop alone, run over every line with no flag consulted. *)
Fixpoint bracketLines (i : nat) (lines : list text) (st : Heuristics.state)
  : Heuristics.state :=
  match lines with
  | [] => st
  | l :: later =>
      bracketLines (S i) later
        (Heuristics.scan_chars i 0 (Heuristics.clean l) st)
  end.

(** Characters with their line and column. *)
Definition pchar : Type := nat * nat * ascii.

Definition chr (p : pchar) : ascii := snd p.

Fixpoint positioned (i j : nat) (cs : text) : list pchar :=
  match cs with
  | [] => []
  | c :: cs' => (i, j, c) :: positioned i (S j) cs'
  end.

Fixpoint docChars (i : nat) (lines : list text) : list pchar :=
  match lines with
  | [] => []
  | l :: later => positioned i 0 (Heuristics.clean l) ++ docChars (S i) later
  end.

Definition pscan (ps : list pchar) (st : Heuristics.state) : Heuristics.state :=
  fold_left
    (fun st p => Heuristics.scan_char (fst (fst p)) (snd (fst p)) (snd p) st)
    ps st.

(** No pattern of the formatting passes finds anything in the text. *)
Definition noDialect (doc : text) : bool :=
  negb (test Format.letRegex doc) && negb (test Format.varRe doc)
  && negb (test Format.nodeRe doc) && negb (test Format.bangRe doc).

(** What a pattern may match, without the order in which the matcher
    tries the possibilities: [matches r c cs c' cs'] when [r] can take the
    cursor from [c] to [c'], turning the captures [cs] into [cs'].  As in
    the ECMAScript semantics, an iteration of a repetition consumes at
    least one character. *)
Inductive matches : regex -> cursor -> caps -> cursor -> caps -> Prop :=
| M_Eps : forall c cs, matches Eps c cs c cs
| M_Chr : forall p pv x xs cs,
    p x = true -> matches (Chr p) (Cursor pv (x :: xs)) cs (Cursor (Some x) xs) cs
| M_Cat : forall r1 r2 c cs c1 cs1 c2 cs2,
    matches r1 c cs c1 cs1 -> matches r2 c1 cs1 c2 cs2 ->
    matches (Cat r1 r2) c cs c2 cs2
| M_AltL : forall r1 r2 c cs c' cs',
    matches r1 c cs c' cs' -> matches (Alt r1 r2) c cs c' cs'
| M_AltR : forall r1 r2 c cs c' cs',
    matches r2 c cs c' cs' -> matches (Alt r1 r2) c cs c' cs'
| M_Star0 : forall r c cs, matches (Star r) c cs c cs
| M_StarS : forall r c cs c1 cs1 c2 cs2,
    matches r c cs c1 cs1 -> progress c c1 = true ->
    matches (Star r) c1 cs1 c2 cs2 ->
    matches (Star r) c cs c2 cs2
| M_Lazy0 : forall r c cs, matches (LazyStar r) c cs c cs
| M_LazyS : forall r c cs c1 cs1 c2 cs2,
    matches r c cs c1 cs1 -> progress c c1 = true ->
    matches (LazyStar r) c1 cs1 c2 cs2 ->
    matches (LazyStar r) c cs c2 cs2
| M_Group : forall n r c cs c' cs',
    matches r c cs c' cs' ->
    matches (Group n r) c cs c'
      ((n, firstn (length (rest c) - length (rest c')) (rest c)) :: cs')
| M_Bol : forall ml c cs, at_bol ml c = true -> matches (Bol ml) c cs c cs
| M_Eol : forall pv cs, matches Eol (Cursor pv []) cs (Cursor pv []) cs
| M_WordB : forall c cs, at_wordb c = true -> matches WordB c cs c cs.

(** The least number of characters a pattern consumes. *)
Fixpoint minLen (r : regex) : nat :=
  match r with
  | Chr _ => 1
  | Cat r1 r2 => minLen r1 + minLen r2
  | Alt r1 r2 => Nat.min (minLen r1) (minLen r2)
  | Group _ r1 => minLen r1
  | _ => 0
  end.

(** The text a list of pieces was cut from. *)
Definition original (ps : list piece) : text :=
  flat_map (fun p => match p with Keep t => t | Hit m => m_text m end) ps.

(** Two texts with their line breaks at the same offsets. *)
Definition sameLayout (a b : text) : Prop :=
  Forall2 (fun x y => Ascii.eqb x newline = Ascii.eqb y newline) a b.

(** The shorthand markers glued to their brace, [!{], each of which the
    fourth pass of the parser masking lengthens by one character. *)
Definition tightBang (m : rmatch) : nat :=
  if 0 <? length (TypeChecks.capOr 1 m) then 0 else 1.

Definition tightBangs (doc : text) : nat :=
  list_sum (map tightBang (matchAll Compiler.bangRe (Compiler.pass3 doc))).

(** No span found by the pattern in the text holds a line break. *)
Definition singleLine (r : regex) (s : text) : bool :=
  forallb (fun m => negb (existsb (Ascii.eqb newline) (m_text m)))
    (matchAll r s).

Definition singleLineSpans (doc : text) : bool :=
  singleLine Compiler.letRegex doc
  && singleLine Compiler.varRe (Compiler.pass1 doc)
  && singleLine Compiler.nodeRe (Compiler.pass2 doc)
  && singleLine Compiler.bangRe (Compiler.pass3 doc).

(** The shape of an integer literal: an optional minus sign, then one or
    more digits, then nothing. *)
Definition isIntLiteral (v : text) : bool :=
  let ds :=
    match v with
    | c :: t => if Ascii.eqb c "-" then t else v
    | [] => v
    end in
  (0 <? length ds) && forallb Js.is_digit ds.


(** A match some attempt of the matcher produced. *)
Definition found (r : regex) (m : rmatch) : Prop :=
  exists c cs',
    matches r c [] (m_after m) cs' /\ m_caps m = cs'
    /\ rest c = m_text m ++ rest (m_after m).

(** The text a list of pieces becomes under a replacer. *)
Definition replaced (f : rmatch -> text) (ps : list piece) : text :=
  flat_map (fun p => match p with Keep t => t | Hit m => f m end) ps.


Definition isSome {A : Type} (o : option A) : bool :=
  match o with Some _ => true | None => false end.


(** The continuation that asks for the end of the text, then goes on. *)
Definition atEnd {R : Type} (k : cont R) : cont R :=
  fun c cs => run Eol c cs k.


(** Diagnostics of the statement-shape kinds only. *)
Definition shapeOnly (extra : list diagnostic) : Prop :=
  Forall (fun d => isStructural d = false) extra.

(** What holds of the timer table in every reachable world: the module
    variable names a handle already handed out, and every pending timer is
    the one it names. *)
Definition timerInv (w : Orchestrator.world) : Prop :=
  (forall h, Orchestrator.diagnosticTimeout w = Some h ->
             h < Orchestrator.nextHandle w)
  /\ (forall t, In t (Orchestrator.pending w) ->
                Orchestrator.diagnosticTimeout w
                = Some (Orchestrator.t_handle t))
  /\ length (Orchestrator.pending w) <= 1.

(** The character before the position reached after [pre]. *)
Definition lastChar (p : option ascii) (pre : text) : option ascii :=
  fold_left (fun _ x => Some x) pre p.


(** The pattern can match somewhere in the text. *)
Definition occursIn (r : regex) (doc : text) : Prop :=
  exists pre suf c' cs',
    doc = pre ++ suf
    /\ matches r (Cursor (lastChar None pre) suf) [] c' cs'.


(** The characters the parser masking writes over a span. *)
Definition isFiller (c : ascii) : bool :=
  existsb (Ascii.eqb c) (str "_ =vn").

(** A character of the masked text: the one of the input at that offset,
    or a filler. *)
Definition keptOrFilled (x y : ascii) : Prop := y = x \/ isFiller y = true.


(** ** Vocabulary of the further properties *)

(** A state with more diagnostics pushed and nothing else changed. *)
Definition addDiags (extra : list diagnostic) (st : Heuristics.state)
  : Heuristics.state :=
  Heuristics.State (Heuristics.stack st) (Heuristics.arrayDepth st)
    (Heuristics.inMultiline st) (Heuristics.insideActionBlock st)
    (Heuristics.actionBlockDepth st) (Heuristics.diagnostics st ++ extra).

(** A diagnostic that covers a non-empty stretch of line [i], within its
    first [w] columns. *)
Definition onLine (i w : nat) (d : diagnostic) : Prop :=
  start_line (d_range d) = i /\ end_line (d_range d) = i
  /\ start_col (d_range d) < end_col (d_range d)
  /\ end_col (d_range d) <= w.

(** A diagnostic that covers a non-empty stretch of one of the lines,
    inside the text of that line. *)
Definition placed (lines : list text) (d : diagnostic) : Prop :=
  exists i l, nth_error lines i = Some l /\ onLine i (length l) d.

(** A bracket position inside the text of one of the lines. *)
Definition entryPlaced (lines : list text) (e : Heuristics.entry) : Prop :=
  exists l, nth_error lines (Heuristics.e_line e) = Some l
            /\ Heuristics.e_col e < length l.

(** The scanner's diagnostics and open brackets all lie inside the
    lines. *)
Definition placedState (lines : list text) (st : Heuristics.state) : Prop :=
  Forall (placed lines) (Heuristics.diagnostics st)
  /\ Forall (entryPlaced lines) (Heuristics.stack st).

(** The diagnostic of the look-ahead after a closing brace. *)
Definition isMissingAfterBrace (d : diagnostic) : bool :=
  Js.text_eqb (d_message d) (str "Missing ';' after '}'.").


(** Inside an action block the bracket stack is at least as deep as it was
    when the block was entered. *)
Definition actionConsistent (st : Heuristics.state) : Prop :=
  Heuristics.insideActionBlock st = true ->
  Heuristics.actionBlockDepth st <= length (Heuristics.stack st).


(** The text left once its leading digits are dropped. *)
Fixpoint dropDigits (s : text) : text :=
  match s with
  | c :: s' => if Js.is_digit c then dropDigits s' else s
  | [] => []
  end.

(** What may follow the integer part of a float literal: nothing, or a
    point and one or more digits. *)
Definition fractionOk (s : text) : bool :=
  match s with
  | [] => true
  | c :: fp => Ascii.eqb "." c && ((0 <? length fp) && forallb Js.is_digit fp)
  end.

(** The shape of a float literal: an optional minus sign, one or more
    digits, and optionally a point followed by one or more digits. *)
Definition isFloatLiteral (v : text) : bool :=
  let ds :=
    match v with
    | c :: t => if Ascii.eqb c "-" then t else v
    | [] => v
    end in
  match ds with
  | x :: xs => Js.is_digit x && fractionOk (dropDigits xs)
  | [] => false
  end.

(** The diagnostics a type checker pass may emit. *)
Definition isTypeError (d : diagnostic) : bool :=
  Js.startsWith (d_message d) (str "Type Error: ")
  && match d_severity d with Error => true | _ => false end.









(* ================================================================== *)
(** * Part II.  Properties                                             *)
(* ================================================================== *)

(** Building [balanced] for a text written out in full. *)
Ltac plain := apply bal_plain; [reflexivity | reflexivity | ].
Ltac pair_of o c s t :=
  apply (@bal_pair o c (str s) (str t)); [reflexivity | | ].

(** ** The bracket loop *)

Module BracketFacts.
Import Heuristics.

Lemma pairs_open_close c o :
  pairs c = Some o ->
  is_open o = true /\ is_close c = true /\ is_open c = false.
Proof.
  unfold pairs.
  destruct (Ascii.eqb_spec c ")") as [->|H1]; [intros [= <-]; now vm_compute|].
  destruct (Ascii.eqb_spec c "}") as [->|H2]; [intros [= <-]; now vm_compute|].
  destruct (Ascii.eqb_spec c "]") as [->|H3]; [intros [= <-]; now vm_compute|].
  discriminate.
Qed.

Lemma pairs_square c o :
  pairs c = Some o -> Ascii.eqb c "]" = Ascii.eqb o "[".
Proof.
  unfold pairs.
  destruct (Ascii.eqb_spec c ")") as [->|H1]; [intros [= <-]; now vm_compute|].
  destruct (Ascii.eqb_spec c "}") as [->|H2]; [intros [= <-]; now vm_compute|].
  destruct (Ascii.eqb_spec c "]") as [->|H3]; [intros [= <-]; now vm_compute|].
  discriminate.
Qed.

Lemma scan_chars_pscan cs : forall i j st,
  scan_chars i j cs st = pscan (positioned i j cs) st.
Proof.
  induction cs as [|c cs IH]; intros i j st; simpl; [reflexivity|].
  now rewrite IH.
Qed.

Lemma pscan_app a b st : pscan (a ++ b) st = pscan b (pscan a st).
Proof. unfold pscan. now rewrite fold_left_app. Qed.

Lemma bracketLines_pscan lines : forall i st,
  bracketLines i lines st = pscan (docChars i lines) st.
Proof.
  induction lines as [|l later IH]; intros i st; simpl; [reflexivity|].
  now rewrite IH, pscan_app, scan_chars_pscan.
Qed.

Lemma chr_positioned cs : forall i j, map chr (positioned i j cs) = cs.
Proof.
  induction cs as [|c cs IH]; intros i j; simpl; [reflexivity|].
  now rewrite IH.
Qed.

Lemma chr_docChars lines : forall i,
  map chr (docChars i lines) = concat (map clean lines).
Proof.
  induction lines as [|l later IH]; intros i; simpl; [reflexivity|].
  now rewrite map_app, chr_positioned, IH.
Qed.

Lemma positioned_app a b : forall i j,
  positioned i j (a ++ b) = positioned i j a ++ positioned i (j + length a) b.
Proof.
  induction a as [|c a IH]; intros i j; simpl.
  - now rewrite Nat.add_0_r.
  - rewrite IH. now replace (j + S (length a)) with (S j + length a) by lia.
Qed.

Lemma docChars_app a b : forall i,
  docChars i (a ++ b) = docChars i a ++ docChars (i + length a) b.
Proof.
  induction a as [|l a IH]; intros i; simpl.
  - now rewrite Nat.add_0_r.
  - rewrite IH, <- app_assoc.
    now replace (i + S (length a)) with (S i + length a) by lia.
Qed.

Lemma pscan_cons p ps st :
  pscan (p :: ps) st
  = pscan ps (scan_char (fst (fst p)) (snd (fst p)) (snd p) st).
Proof. reflexivity. Qed.

(** A balanced run of characters leaves the scanner's state as it found
    it, wherever the characters stand. *)
Lemma pscan_balanced s :
  balanced s -> forall ps st, map chr ps = s -> pscan ps st = st.
Proof.
  induction 1 as [|c s Ho Hc Hs IH|o c s t Hp Hs IHs Ht IHt];
    intros ps st Hmap.
  - apply map_eq_nil in Hmap. now subst.
  - destruct ps as [|[[i j] x] ps]; [discriminate|]. simpl in Hmap.
    injection Hmap as Hc0 Hps. subst x. rewrite pscan_cons. simpl.
    unfold scan_char. rewrite Ho, Hc. now apply IH.
  - destruct ps as [|[[i j] x] ps]; [discriminate|]. simpl in Hmap.
    injection Hmap as Ho Hps. subst x.
    apply map_eq_app in Hps as (ps1 & ps2 & -> & Hs1 & Hps2).
    destruct ps2 as [|[[i' j'] y] ps2]; [discriminate|]. simpl in Hps2.
    injection Hps2 as Hq Ht2. subst y.
    destruct (pairs_open_close _ Hp) as (Hoo & Hcc & Hco).
    pose proof (pairs_square _ Hp) as Hsq.
    rewrite pscan_cons, pscan_app, (IHs ps1 _ Hs1), pscan_cons,
      (IHt ps2 _ Ht2).
    simpl. unfold scan_char. rewrite Hoo, Hco, Hcc. simpl.
    rewrite Hp, Ascii.eqb_refl, Hsq.
    destruct st as [stk d ml ab abd ds]. simpl.
    destruct (Ascii.eqb o "["); simpl; f_equal; lia.
Qed.

(** The bracket loop never touches the three flags. *)
Lemma scan_char_flags i j c st :
  inMultiline (scan_char i j c st) = inMultiline st
  /\ insideActionBlock (scan_char i j c st) = insideActionBlock st
  /\ actionBlockDepth (scan_char i j c st) = actionBlockDepth st.
Proof.
  unfold scan_char.
  destruct (is_open c); [now simpl|].
  destruct (is_close c); [|now idtac].
  destruct (hd_error (stack st)) as [e|]; destruct (pairs c) as [o|];
    try destruct (Ascii.eqb (e_char e) o); now simpl.
Qed.

(** What the bracket loop does to the stack, the array depth and the
    diagnostics depends on the stack and the array depth alone. *)
Lemma scan_char_core i j c st :
  let st' := scan_char i j c st in
  let cr := scan_char i j c (core st) in
  stack st' = stack cr /\ arrayDepth st' = arrayDepth cr
  /\ diagnostics st' = diagnostics st ++ diagnostics cr.
Proof.
  unfold scan_char, core. simpl.
  destruct (is_open c); [simpl; now rewrite app_nil_r|].
  destruct (is_close c); [|simpl; now rewrite app_nil_r].
  destruct (hd_error (stack st)) as [e|]; destruct (pairs c) as [o|];
    try destruct (Ascii.eqb (e_char e) o); simpl;
    rewrite ?app_nil_r; auto.
Qed.

Lemma core_eq st1 st2 :
  stack st1 = stack st2 -> arrayDepth st1 = arrayDepth st2 ->
  core st1 = core st2.
Proof. unfold core. now intros -> ->. Qed.

Lemma pscan_core ps : forall st,
  stack (pscan ps st) = stack (pscan ps (core st))
  /\ arrayDepth (pscan ps st) = arrayDepth (pscan ps (core st))
  /\ diagnostics (pscan ps st)
     = diagnostics st ++ diagnostics (pscan ps (core st)).
Proof.
  induction ps as [|[[i j] c] ps IH]; intros st.
  - simpl. now rewrite app_nil_r.
  - rewrite !pscan_cons. simpl fst. simpl snd.
    destruct (scan_char_core i j c st) as (Hs & Hd & Hg).
    destruct (IH (scan_char i j c st)) as (Hs1 & Hd1 & Hg1).
    destruct (IH (scan_char i j c (core st))) as (Hs2 & Hd2 & Hg2).
    cbv zeta in Hs, Hd, Hg.
    assert (Hcc : core (scan_char i j c (core st)) = core (scan_char i j c st))
      by (apply core_eq; congruence).
    rewrite Hcc in Hs2, Hd2, Hg2.
    repeat split; try congruence.
    rewrite Hg1, Hg2, Hg. now rewrite app_assoc.
Qed.

Lemma scan_chars_core i j cs st :
  stack (scan_chars i j cs st) = stack (scan_chars i j cs (core st))
  /\ arrayDepth (scan_chars i j cs st)
     = arrayDepth (scan_chars i j cs (core st))
  /\ diagnostics (scan_chars i j cs st)
     = diagnostics st ++ diagnostics (scan_chars i j cs (core st)).
Proof. rewrite !scan_chars_pscan. apply pscan_core. Qed.

Lemma pscan_flags ps : forall st,
  inMultiline (pscan ps st) = inMultiline st
  /\ insideActionBlock (pscan ps st) = insideActionBlock st
  /\ actionBlockDepth (pscan ps st) = actionBlockDepth st.
Proof.
  induction ps as [|[[i j] c] ps IH]; intros st; [now simpl|].
  rewrite pscan_cons. simpl.
  destruct (IH (scan_char i j c st)) as (H1 & H2 & H3).
  destruct (scan_char_flags i j c st) as (G1 & G2 & G3).
  repeat split; congruence.
Qed.

(** The diagnostics the bracket loop pushes are all of the first
    structural kind. *)
Lemma scan_char_unexpected i j c st :
  Forall (fun d => isUnexpected d = true) (diagnostics st) ->
  Forall (fun d => isUnexpected d = true) (diagnostics (scan_char i j c st)).
Proof.
  intros H. unfold scan_char.
  destruct (is_open c); [exact H|].
  destruct (is_close c); [|exact H].
  assert (Hpush : forall s0, diagnostics s0 = diagnostics st ->
            Forall (fun d => isUnexpected d = true)
              (diagnostics (push_diag (unexpected i j c) s0))).
  { intros s0 E. unfold push_diag. simpl. rewrite E.
    apply Forall_app. split; [exact H|]. constructor; [|constructor].
    reflexivity. }
  destruct (hd_error (stack st)) as [e|]; destruct (pairs c) as [o|];
    try destruct (Ascii.eqb (e_char e) o); try (apply Hpush; reflexivity);
    exact H.
Qed.

Lemma pscan_unexpected ps : forall st,
  Forall (fun d => isUnexpected d = true) (diagnostics st) ->
  Forall (fun d => isUnexpected d = true) (diagnostics (pscan ps st)).
Proof.
  induction ps as [|[[i j] c] ps IH]; intros st H; [exact H|].
  rewrite pscan_cons. simpl. apply IH. now apply scan_char_unexpected.
Qed.

End BracketFacts.

(** ** The line loop seen from the bracket loop *)

Module ScannerFacts.
Import Heuristics BracketFacts.

Lemma trimStart_nil s : Js.trimStart s = [] -> forallb Js.is_space s = true.
Proof.
  induction s as [|c s IH]; simpl; [reflexivity|].
  destruct (Js.is_space c); [exact IH|discriminate].
Qed.

Lemma trimStart_head s c t : Js.trimStart s = c :: t -> Js.is_space c = false.
Proof.
  induction s as [|x s IH]; simpl; [discriminate|].
  destruct (Js.is_space x) eqn:E; [exact IH|]. now intros [= <- _].
Qed.

Lemma trim_nil s : Js.trim s = [] -> forallb Js.is_space s = true.
Proof.
  unfold Js.trim, Js.trimEnd. intros H.
  assert (H1 : Js.trimStart (rev (Js.trimStart s)) = []).
  { destruct (Js.trimStart (rev (Js.trimStart s))) as [|x l]; [reflexivity|].
    simpl in H. now destruct (rev l). }
  apply trimStart_nil in H1.
  destruct (Js.trimStart s) as [|c t] eqn:E; [now apply trimStart_nil|].
  apply trimStart_head in E.
  rewrite forallb_forall in H1. specialize (H1 c).
  rewrite H1 in E; [discriminate|]. apply in_rev. rewrite rev_involutive.
  now left.
Qed.

Lemma space_not_bracket c :
  Js.is_space c = true -> is_open c = false /\ is_close c = false.
Proof.
  destruct c as [[] [] [] [] [] [] [] []]; vm_compute; intros H;
    first [discriminate H | split; reflexivity].
Qed.

Lemma scan_chars_blank cs : forall i j st,
  forallb Js.is_space cs = true -> scan_chars i j cs st = st.
Proof.
  induction cs as [|c cs IH]; intros i j st H; simpl; [reflexivity|].
  simpl in H. apply andb_prop in H as [Hc Hcs].
  destruct (space_not_bracket c Hc) as [Ho Hcl].
  unfold scan_char. rewrite Ho, Hcl. now apply IH.
Qed.

Lemma braceChecks_spec later i cl tr st :
  exists extra,
    stack (braceChecks later i cl tr st) = stack st
    /\ arrayDepth (braceChecks later i cl tr st) = arrayDepth st
    /\ diagnostics (braceChecks later i cl tr st) = diagnostics st ++ extra
    /\ shapeOnly extra.
Proof.
  unfold braceChecks, shapeOnly.
  set (st1 := match exec inlineRe cl with Some _ => _ | None => _ end).
  assert (H1 : exists e1, stack st1 = stack st
             /\ arrayDepth st1 = arrayDepth st
             /\ diagnostics st1 = diagnostics st ++ e1
             /\ Forall (fun d => isStructural d = false) e1).
  { subst st1. destruct (exec inlineRe cl) as [m|];
      [destruct (group 1 m) as [w|];
       [destruct (negb (Js.includesText continuationKeywords w))|]|];
      first [ exists []; rewrite app_nil_r; now repeat split
            | eexists [_]; simpl; repeat split; repeat constructor ]. }
  destruct H1 as (e1 & Hs & Hd & Hg & Hf).
  destruct (Js.endsWith tr (str "}"));
    [destruct (nextContent later);
     [|destruct (negb (test nextLineRe _))]|];
    first [ exists e1; now repeat split
          | exists (e1 ++ [missingSemiAfterBrace i
                             (column (Js.lastIndexOf cl (str "}")))]);
            simpl; rewrite Hg, app_assoc; repeat split; auto;
            apply Forall_app; split; [exact Hf|repeat constructor] ].
Qed.

Lemma statementChecks_spec i cl tr a b st :
  exists extra,
    stack (statementChecks i cl tr a b st) = stack st
    /\ arrayDepth (statementChecks i cl tr a b st) = arrayDepth st
    /\ diagnostics (statementChecks i cl tr a b st) = diagnostics st ++ extra
    /\ shapeOnly extra.
Proof.
  unfold statementChecks, shapeOnly.
  destruct (test keywordRe tr || Js.startsWith tr (str "}"));
    [exists []; rewrite app_nil_r; now repeat split|].
  destruct (test identCharRe tr);
    [|exists []; rewrite app_nil_r; now repeat split].
  destruct (Js.includes cl (str "=")); simpl.
  - match goal with
    | |- context [if negb ?b then _ else _] => destruct b
    end; simpl.
    + exists []. rewrite app_nil_r. now repeat split.
    + eexists [_]. simpl. repeat split. repeat constructor.
  - repeat match goal with
           | |- context [negb ?b] => destruct b; simpl
           end;
      first [ exists []; rewrite app_nil_r; now repeat split
            | eexists [_]; simpl; repeat split; repeat constructor ].
Qed.

(** One line: the stack, the array depth and the structural diagnostics
    are those of the bracket loop run on the comment-stripped line, whatever
    the flags; the other checks add only statement-shape diagnostics, and
    none when [skipHeuristics] holds. *)
Lemma scan_line_spec later i line st :
  exists extra,
    stack (scan_line later i line st)
    = stack (scan_chars i 0 (clean line) (core st))
    /\ arrayDepth (scan_line later i line st)
       = arrayDepth (scan_chars i 0 (clean line) (core st))
    /\ diagnostics (scan_line later i line st)
       = diagnostics st
         ++ diagnostics (scan_chars i 0 (clean line) (core st)) ++ extra
    /\ shapeOnly extra
    /\ (skipHeuristics st (clean line) = true -> extra = []).
Proof.
  unfold scan_line.
  destruct (Js.trim (clean line)) as [|t0 tr] eqn:Etrim.
  - apply trim_nil in Etrim. rewrite scan_chars_blank by exact Etrim.
    exists []. simpl. rewrite app_nil_r. repeat split. constructor.
  - cbv zeta.
    remember (multilineAfter st (clean line)) as ml eqn:Eml.
    remember (setFlags ml (insideActionBlock st) (actionBlockDepth st) st)
      as st0 eqn:E0.
    assert (Hcore : core st0 = core st) by (now subst st0).
    assert (Hdiag : diagnostics st0 = diagnostics st) by (now subst st0).
    destruct (scan_chars_core i 0 (clean line) st0) as (Hs & Hd & Hg).
    rewrite Hcore in Hs, Hd, Hg. rewrite Hdiag in Hg.
    remember (scan_chars i 0 (clean line) st0) as st1 eqn:E1.
    remember (if test actionRe (t0 :: tr) || test bangLineRe (t0 :: tr)
              then setFlags ml true (length (stack st1)) st1 else st1)
      as st2 eqn:E2.
    assert (H2 : stack st2 = stack st1 /\ arrayDepth st2 = arrayDepth st1
                 /\ diagnostics st2 = diagnostics st1).
    { subst st2. now destruct (_ || _). }
    remember (if insideActionBlock st2
                 && (length (stack st2) <? actionBlockDepth st2)
              then setFlags ml false (actionBlockDepth st2) st2 else st2)
      as st3 eqn:E3.
    assert (H3 : stack st3 = stack st1 /\ arrayDepth st3 = arrayDepth st1
                 /\ diagnostics st3 = diagnostics st1).
    { subst st3. destruct H2 as (? & ? & ?). now destruct (_ && _). }
    destruct H3 as (Hs3 & Hd3 & Hg3).
    destruct (skipHeuristics st (clean line)) eqn:Esk; simpl negb; cbv iota;
      rewrite ?andb_false_r.
    + exists []. rewrite app_nil_r. repeat split; try congruence. constructor.
    + destruct (braceChecks_spec later i (clean line) (t0 :: tr) st3)
        as (e1 & Hs4 & Hd4 & Hg4 & Hf4).
      remember (braceChecks later i (clean line) (t0 :: tr) st3) as st4 eqn:E4.
      rewrite andb_true_r.
      destruct (arrayDepth st4 =? 0).
      * match goal with
        | |- context [statementChecks ?i ?c ?t ?a ?b st4] =>
            destruct (statementChecks_spec i c t a b st4)
              as (e2 & Hs5 & Hd5 & Hg5 & Hf5)
        end.
        exists (e1 ++ e2). repeat split; try congruence.
        -- rewrite Hg5, Hg4, Hg3, Hg. now rewrite !app_assoc.
        -- now apply Forall_app.
      * exists e1. repeat split; try congruence.
        rewrite Hg4, Hg3, Hg. now rewrite !app_assoc.
Qed.

Lemma filter_shapeOnly extra :
  shapeOnly extra -> filter isStructural extra = [].
Proof.
  induction 1 as [|d l Hd _ IH]; simpl; [reflexivity|]. now rewrite Hd.
Qed.

Lemma filter_unexpected l :
  Forall (fun d => isUnexpected d = true) l -> filter isStructural l = l.
Proof.
  induction 1 as [|d l Hd _ IH]; simpl; [reflexivity|].
  unfold isStructural at 1. rewrite Hd. simpl. now rewrite IH.
Qed.

Lemma core_diagnostics_unexpected ps st :
  Forall (fun d => isUnexpected d = true) (diagnostics (pscan ps (core st))).
Proof. apply pscan_unexpected. constructor. Qed.

(** Every line: the same, for the whole loop. *)
Lemma scan_lines_spec lines : forall i st,
  stack (scan_lines i lines st) = stack (bracketLines i lines (core st))
  /\ arrayDepth (scan_lines i lines st)
     = arrayDepth (bracketLines i lines (core st))
  /\ filter isStructural (diagnostics (scan_lines i lines st))
     = filter isStructural (diagnostics st)
       ++ diagnostics (bracketLines i lines (core st)).
Proof.
  induction lines as [|l later IH]; intros i st; simpl.
  - now rewrite app_nil_r.
  - destruct (scan_line_spec later i l st) as (extra & Hs & Hd & Hg & Hf & _).
    destruct (IH (S i) (scan_line later i l st)) as (Is & Id & Ig).
    set (cr := scan_chars i 0 (clean l) (core st)) in *.
    rewrite (core_eq _ _ Hs Hd) in Is, Id, Ig.
    rewrite bracketLines_pscan in *.
    destruct (pscan_core (docChars (S i) later) cr) as (Ps & Pd & Pg).
    repeat split; try congruence.
    rewrite Ig, Hg, Pg, !filter_app, (filter_shapeOnly Hf), app_nil_r.
    rewrite <- app_assoc. f_equal. f_equal.
    apply filter_unexpected. subst cr. rewrite scan_chars_pscan.
    apply core_diagnostics_unexpected.
Qed.

Lemma unclosed_structural stk :
  filter isStructural (map unclosed stk) = map unclosed stk
  /\ filter isUnclosed (map unclosed stk) = map unclosed stk
  /\ filter isUnexpected (map unclosed stk) = [].
Proof.
  induction stk as [|e stk (I1 & I2 & I3)]; simpl; [now repeat split|].
  change (isStructural (unclosed e)) with true.
  change (isUnclosed (unclosed e)) with true.
  change (isUnexpected (unclosed e)) with false.
  now rewrite I1, I2, I3.
Qed.

(** The structural diagnostics of a document are those of the bracket loop
    run alone, followed by one per bracket left on its stack. *)
Lemma structural_diagnostics doc :
  let b := bracketLines 0 (Js.split newline doc) init in
  stack (finalState doc) = stack b
  /\ filter isStructural (runStaticHeuristics doc)
     = diagnostics b ++ map unclosed (stack b).
Proof.
  unfold runStaticHeuristics, drain, finalState.
  destruct (scan_lines_spec (Js.split newline doc) 0 init) as (Hs & _ & Hg).
  change (core init) with init in *. simpl. split; [exact Hs|].
  rewrite filter_app, Hg, Hs. simpl.
  now destruct (unclosed_structural (stack (bracketLines 0 (Js.split newline doc) init)))
    as (-> & _ & _).
Qed.

End ScannerFacts.

(** ** Diagnostics of one line inside a document *)

Module LineFacts.
Import Heuristics BracketFacts ScannerFacts.

Lemma scan_line_grows later i line st :
  exists more,
    diagnostics (scan_line later i line st) = diagnostics st ++ more.
Proof.
  destruct (scan_line_spec later i line st) as (extra & _ & _ & Hg & _).
  eexists. exact Hg.
Qed.

Lemma scan_lines_grows lines : forall i st,
  exists more, diagnostics (scan_lines i lines st) = diagnostics st ++ more.
Proof.
  induction lines as [|l later IH]; intros i st; simpl.
  - exists []. now rewrite app_nil_r.
  - destruct (scan_line_grows later i l st) as (m1 & H1).
    destruct (IH (S i) (scan_line later i l st)) as (m2 & H2).
    exists (m1 ++ m2). now rewrite H2, H1, app_assoc.
Qed.

Lemma scan_lines_split pre l post : forall i st,
  scan_lines i (pre ++ l :: post) st
  = scan_lines (S (i + length pre)) post
      (scan_line post (i + length pre) l
         (stateBefore (length pre) i (pre ++ l :: post) st)).
Proof.
  induction pre as [|p pre IH]; intros i st; simpl.
  - now rewrite Nat.add_0_r.
  - rewrite IH. now replace (i + S (length pre)) with (S i + length pre) by lia.
Qed.

Lemma nth_error_split_at {A : Type} (l : list A) n x :
  nth_error l n = Some x ->
  l = firstn n l ++ x :: skipn (S n) l /\ length (firstn n l) = n.
Proof.
  revert l. induction n as [|n IH]; intros [|y l] H; try discriminate.
  - simpl in H. injection H as ->. now split.
  - simpl in H. destruct (IH l H) as (E & Hlen). split.
    + change (y :: l = y :: (firstn n l ++ x :: skipn (S n) l)).
      now f_equal.
    + simpl. now rewrite Hlen.
Qed.

(** A diagnostic pushed while line [n] is processed is in the result. *)
Lemma line_diagnostic_kept doc n line d :
  nth_error (Js.split newline doc) n = Some line ->
  In d (diagnostics
          (scan_line (skipn (S n) (Js.split newline doc)) n line
             (stateAt doc n))) ->
  In d (runStaticHeuristics doc).
Proof.
  intros Hn Hin. unfold runStaticHeuristics, drain, finalState, stateAt in *.
  destruct (nth_error_split_at _ _ Hn) as (E & Hlen).
  set (pre := firstn n (Js.split newline doc)) in *.
  set (post := skipn (S n) (Js.split newline doc)) in *.
  rewrite E, scan_lines_split. simpl. rewrite Hlen.
  rewrite <- E.
  destruct (scan_lines_grows post (S n)
              (scan_line post n line
                 (stateBefore n 0 (Js.split newline doc) init)))
    as (more & Hm).
  rewrite Hm. apply in_or_app. left. apply in_or_app. now left.
Qed.

Lemma space_not_brace c : Js.is_space c = true -> Ascii.eqb "}" c = false.
Proof.
  destruct c as [[] [] [] [] [] [] [] []]; vm_compute; intros H;
    first [discriminate H | reflexivity].
Qed.

Lemma lastIndexOf_blank s :
  forallb Js.is_space s = true -> Js.lastIndexOf s (str "}") = None.
Proof.
  induction s as [|c s IH]; intros H; [reflexivity|].
  simpl in H. apply andb_prop in H as [Hc Hs].
  change (Js.lastIndexOf (c :: s) (str "}"))
    with (match Js.lastIndexOf s (str "}") with
          | Some i => Some (S i)
          | None => if Js.startsWith (c :: s) (str "}") then Some 0 else None
          end).
  rewrite (IH Hs).
  change (Js.startsWith (c :: s) (str "}"))
    with (Ascii.eqb "}" c && Js.startsWith s []).
  now rewrite (space_not_brace c Hc).
Qed.

(** The first close-brace check, when its pattern matches. *)
Lemma braceChecks_expected later i cl tr st m word idx :
  exec inlineRe cl = Some m ->
  group 1 m = Some word ->
  Js.includesText continuationKeywords word = false ->
  Js.lastIndexOf cl (str "}") = Some idx ->
  In (expectedSemi i idx) (diagnostics (braceChecks later i cl tr st)).
Proof.
  intros Hm Hg Hw Hi. unfold braceChecks. rewrite Hm, Hg, Hw, Hi. simpl.
  repeat match goal with
         | |- context [if ?b then _ else _] => destruct b
         | |- context [match ?x with [] => _ | _ :: _ => _ end] => destruct x
         end; simpl; rewrite ?in_app_iff; simpl; auto.
Qed.

(** The last statement check, when it applies. *)
Lemma statementChecks_missingSemi i cl tr a b st :
  test keywordRe tr = false ->
  Js.startsWith tr (str "}") = false ->
  test identCharRe tr = true ->
  Js.includes cl (str "=") = true ->
  existsb (fun e => Js.endsWith tr e) validEndings = false ->
  diagnostics (statementChecks i cl tr a b st)
  = diagnostics st ++ [missingSemi i a b].
Proof.
  intros Hk Hb Hid Heq Hend. unfold statementChecks.
  rewrite Hk, Hb, Hid, Heq, Hend. reflexivity.
Qed.

End LineFacts.

(** ** The scanner: structural diagnostics *)

Lemma filter_implied {A : Type} (p q : A -> bool) l :
  (forall x, p x = true -> q x = true) ->
  filter p (filter q l) = filter p l.
Proof.
  intros H. induction l as [|x l IH]; simpl; [reflexivity|].
  destruct (q x) eqn:Eq; simpl.
  - now rewrite IH.
  - destruct (p x) eqn:Ep; [|exact IH].
    apply H in Ep. congruence.
Qed.

Lemma unclosed_is_structural d : isUnclosed d = true -> isStructural d = true.
Proof. unfold isStructural. intros ->. apply orb_true_r. Qed.

Lemma unexpected_is_structural d :
  isUnexpected d = true -> isStructural d = true.
Proof. unfold isStructural. now intros ->. Qed.

(** C3.  When the comment-stripped text of a document has balanced
    brackets, the scanner ends with an empty bracket stack and reports no
    structural diagnostic: neither an unexpected closing character nor an
    unclosed one. *)
Theorem balanced_document_no_structural (doc : text) :
  balanced (strippedText doc) ->
  Heuristics.stack (Heuristics.finalState doc) = []
  /\ filter isStructural (Heuristics.runStaticHeuristics doc) = [].
Proof.
  intros Hbal.
  destruct (ScannerFacts.structural_diagnostics doc) as (Hs & Hd).
  rewrite BracketFacts.bracketLines_pscan in Hs, Hd.
  rewrite (BracketFacts.pscan_balanced Hbal) in Hs, Hd
    by apply BracketFacts.chr_docChars.
  split; [exact Hs | exact Hd].
Qed.

Lemma balanced_document_no_structural_witness :
  let doc := str "a = { b = [ (1) ]; }; # )" in
  balanced (strippedText doc)
  /\ Heuristics.stack (Heuristics.finalState doc) = []
  /\ filter isStructural (Heuristics.runStaticHeuristics doc) = [].
Proof.
  intros doc.
  assert (H : balanced (strippedText doc)).
  { vm_compute. do 4 plain. pair_of "{"%char "}"%char " b = [ (1) ]; " "; ".
    - do 5 plain. pair_of "["%char "]"%char " (1) " "; ".
      + plain. pair_of "("%char ")"%char "1" " ".
        * plain. apply bal_nil.
        * plain. apply bal_nil.
      + do 2 plain. apply bal_nil.
    - do 2 plain. apply bal_nil. }
  split; [exact H | exact (balanced_document_no_structural doc H)].
Defined.

(** C7, as the code has it.  When a document has an opening brace at line
    [L], column [C], outside any comment, and the comment-stripped text
    before it and the comment-stripped text after it are each balanced, the
    scanner reports exactly one unclosed-character diagnostic, anchored at
    [(L, C)], and no unexpected closing character. *)
Theorem unmatched_brace_reported (doc : text) (pre post : list text)
    (line a b : text) :
  Js.split newline doc = pre ++ line :: post ->
  Heuristics.clean line = a ++ "{"%char :: b ->
  balanced (concat (map Heuristics.clean pre) ++ a) ->
  balanced (b ++ concat (map Heuristics.clean post)) ->
  filter isUnclosed (Heuristics.runStaticHeuristics doc)
  = [Heuristics.unclosed (Heuristics.Entry "{" (length pre) (length a))]
  /\ filter isUnexpected (Heuristics.runStaticHeuristics doc) = [].
Proof.
  intros Hsplit Hline Hu Hv.
  destruct (ScannerFacts.structural_diagnostics doc) as (_ & Hd).
  rewrite BracketFacts.bracketLines_pscan, Hsplit in Hd.
  rewrite BracketFacts.docChars_app in Hd. simpl in Hd.
  rewrite Hline, BracketFacts.positioned_app in Hd. simpl in Hd.
  rewrite <- app_assoc in Hd. simpl in Hd.
  rewrite app_assoc in Hd.
  rewrite BracketFacts.pscan_app, BracketFacts.pscan_cons in Hd.
  rewrite (BracketFacts.pscan_balanced Hu
             (docChars 0 pre ++ positioned (length pre) 0 a)) in Hd
    by (rewrite map_app, BracketFacts.chr_docChars,
          BracketFacts.chr_positioned; reflexivity).
  rewrite (BracketFacts.pscan_balanced Hv
             (positioned (length pre) (S (length a)) b
              ++ docChars (S (length pre)) post)) in Hd
    by (rewrite map_app, BracketFacts.chr_docChars,
          BracketFacts.chr_positioned; reflexivity).
  simpl in Hd.
  rewrite <- (filter_implied isUnclosed isStructural _ unclosed_is_structural).
  rewrite <- (filter_implied isUnexpected isStructural _
                unexpected_is_structural).
  rewrite Hd. split; reflexivity.
Qed.

Lemma unmatched_brace_reported_witness :
  let doc := str "a = {" ++ [newline] ++ str "  b = (1);" in
  filter isUnclosed (Heuristics.runStaticHeuristics doc)
  = [Heuristics.unclosed (Heuristics.Entry "{" 0 4)]
  /\ filter isUnexpected (Heuristics.runStaticHeuristics doc) = [].
Proof.
  intros doc.
  apply (@unmatched_brace_reported doc [] [str "  b = (1);"]
           (str "a = {") (str "a = ") []).
  - reflexivity.
  - reflexivity.
  - simpl. do 4 plain. apply bal_nil.
  - vm_compute. do 6 plain. pair_of "("%char ")"%char "1" ";".
    + plain. apply bal_nil.
    + plain. apply bal_nil.
Defined.

(** C7 as stated fails when the unmatched brace stands inside a matched
    pair.  In [({)] the text without the brace is balanced, yet the closing
    parenthesis pops the brace, and the one unclosed-character diagnostic
    is anchored at the parenthesis, column 0, not at the brace, column 1. *)
Lemma unmatched_brace_nested_counterexample :
  let doc := str "({)" in
  Js.split newline doc = [] ++ doc :: []
  /\ Heuristics.clean doc = str "(" ++ "{"%char :: str ")"
  /\ balanced ((concat (map Heuristics.clean []) ++ str "(")
               ++ str ")" ++ concat (map Heuristics.clean []))
  /\ filter isUnclosed (Heuristics.runStaticHeuristics doc)
     = [Heuristics.unclosed (Heuristics.Entry "(" 0 0)]
  /\ filter isUnclosed (Heuristics.runStaticHeuristics doc)
     <> [Heuristics.unclosed (Heuristics.Entry "{" 0 1)].
Proof.
  intros doc. repeat split; try reflexivity.
  - simpl. pair_of "("%char ")"%char "" "". apply bal_nil. apply bal_nil.
  - vm_compute. discriminate.
Qed.

(** C10.  The bracket accounting of a line never depends on the
    suppression flags: after any line, from any state, the stack and the
    array depth are those the bracket loop alone computes from the
    comment-stripped line, and the structural diagnostics added are exactly
    the ones that loop pushes.  When [skipHeuristics] holds (raw-string body
    or action block) these are the only diagnostics the line adds: the
    statement-shape checks, and only they, are switched off. *)
Theorem bracket_accounting_never_suppressed (later : list text) (i : nat)
    (line : text) (st : Heuristics.state) :
  let st' := Heuristics.scan_line later i line st in
  let br := Heuristics.scan_chars i 0 (Heuristics.clean line) (core st) in
  Heuristics.stack st' = Heuristics.stack br
  /\ Heuristics.arrayDepth st' = Heuristics.arrayDepth br
  /\ filter isStructural (Heuristics.diagnostics st')
     = filter isStructural (Heuristics.diagnostics st)
       ++ Heuristics.diagnostics br
  /\ (Heuristics.skipHeuristics st (Heuristics.clean line) = true ->
      Heuristics.diagnostics st'
      = Heuristics.diagnostics st ++ Heuristics.diagnostics br).
Proof.
  intros st' br. subst st' br.
  destruct (ScannerFacts.scan_line_spec later i line st)
    as (extra & Hs & Hd & Hg & Hf & Hskip).
  repeat split; try assumption.
  - rewrite Hg, !filter_app, (ScannerFacts.filter_shapeOnly Hf), app_nil_r.
    f_equal. apply ScannerFacts.filter_unexpected.
    rewrite BracketFacts.scan_chars_pscan.
    apply ScannerFacts.core_diagnostics_unexpected.
  - intros Hsk. rewrite Hg, (Hskip Hsk). now rewrite app_nil_r.
Qed.

(** Inside a raw string (first state) and inside an action block (second
    state) a stray closing parenthesis is still reported and an opening
    brace still enters the stack, while the missing [=] goes unreported. *)
Lemma bracket_accounting_never_suppressed_witness :
  let raw := Heuristics.State [] 0 true false 0 [] in
  let act := Heuristics.State [Heuristics.Entry "{" 0 10] 0 false true 1 [] in
  let line := str "foo ) {" in
  (Heuristics.skipHeuristics raw (Heuristics.clean line) = true
   /\ Heuristics.diagnostics (Heuristics.scan_line [] 1 line raw)
      = [Heuristics.unexpected 1 4 ")"]
   /\ Heuristics.stack (Heuristics.scan_line [] 1 line raw)
      = [Heuristics.Entry "{" 1 6])
  /\ (Heuristics.skipHeuristics act (Heuristics.clean line) = true
      /\ Heuristics.diagnostics (Heuristics.scan_line [] 1 line act)
         = [Heuristics.unexpected 1 4 ")"]
      /\ Heuristics.stack (Heuristics.scan_line [] 1 line act)
         = [Heuristics.Entry "{" 1 6]).
Proof.
  intros raw act line.
  destruct (@bracket_accounting_never_suppressed [] 1 line raw)
    as (Hs1 & _ & _ & Hd1).
  destruct (@bracket_accounting_never_suppressed [] 1 line act)
    as (Hs2 & _ & _ & Hd2).
  split; (split; [reflexivity|split]).
  - rewrite Hd1; reflexivity.
  - rewrite Hs1; reflexivity.
  - rewrite Hd2; reflexivity.
  - rewrite Hs2; reflexivity.
Defined.

(** ** The scanner: statement-shape diagnostics *)

(** C5, as the code has it.  When the scanner reaches a line outside raw
    strings and action blocks, and the comment-stripped line has a closing
    brace followed by at least one whitespace character and then an
    identifier, the first such identifier not being [in], [then] or [else],
    it reports the expected-terminator diagnostic on that line, anchored at
    the column of the line's last closing brace. *)
Theorem brace_then_identifier_reported (doc : text) (n : nat) (line : text)
    (m : rmatch) (word : text) (idx : nat) :
  nth_error (Js.split newline doc) n = Some line ->
  Heuristics.skipHeuristics (stateAt doc n) (Heuristics.clean line) = false ->
  exec Heuristics.inlineRe (Heuristics.clean line) = Some m ->
  group 1 m = Some word ->
  Js.includesText Heuristics.continuationKeywords word = false ->
  Js.lastIndexOf (Heuristics.clean line) (str "}") = Some idx ->
  In (Heuristics.expectedSemi n idx) (Heuristics.runStaticHeuristics doc).
Proof.
  intros Hn Hskip Hm Hg Hw Hidx.
  apply (@LineFacts.line_diagnostic_kept doc n line _ Hn).
  unfold Heuristics.scan_line.
  destruct (Js.trim (Heuristics.clean line)) as [|t0 tr] eqn:Etrim.
  - apply ScannerFacts.trim_nil, LineFacts.lastIndexOf_blank in Etrim.
    congruence.
  - cbv zeta. rewrite Hskip. simpl negb. rewrite andb_true_r.
    match goal with
    | |- context [Heuristics.braceChecks ?l ?i ?c ?t ?s] =>
        pose proof (@LineFacts.braceChecks_expected l i c t s m word idx
                      Hm Hg Hw Hidx) as Hin;
        remember (Heuristics.braceChecks l i c t s) as st4 eqn:E4
    end.
    destruct (Heuristics.arrayDepth st4 =? 0); [|exact Hin].
    match goal with
    | |- context [Heuristics.statementChecks ?i ?c ?t ?a ?b st4] =>
        destruct (ScannerFacts.statementChecks_spec i c t a b st4)
          as (e2 & _ & _ & Hg5 & _)
    end.
    rewrite Hg5. apply in_or_app. now left.
Qed.

Lemma brace_then_identifier_reported_witness :
  let doc := str "a = { b = 1; } c" in
  In (Heuristics.expectedSemi 0 13) (Heuristics.runStaticHeuristics doc).
Proof.
  intros doc.
  refine (@brace_then_identifier_reported doc 0 doc
            (RMatch 13 (str "} c") [(1, str "c")] (Cursor (Some "c"%char) []))
            (str "c") 13 _ _ _ _ _ _); reflexivity.
Defined.

(** C5 as stated fails on the document [}x]: the brace is immediately
    followed by the identifier [x], which is no continuation keyword, and
    the line is reached with no suppression, yet no expected-terminator
    diagnostic is reported (the pattern asks for whitespace after the
    brace). *)
Lemma brace_glued_identifier_counterexample :
  let doc := str "}x" in
  nth_error (Js.split newline doc) 0 = Some doc
  /\ Heuristics.skipHeuristics (stateAt doc 0) (Heuristics.clean doc) = false
  /\ Js.includesText Heuristics.continuationKeywords (str "x") = false
  /\ filter isExpectedSemi (Heuristics.runStaticHeuristics doc) = []
  /\ Heuristics.runStaticHeuristics doc = [Heuristics.unexpected 0 0 "}"].
Proof. intros doc. repeat split; reflexivity. Qed.

(** C6, as the code has it.  When the scanner reaches a line outside raw
    strings and action blocks, the array depth is zero once the brackets of
    the line are counted, the trimmed line does not start with one of the
    exempt keywords ([let], [in], [with], [inherit], [if], [then], [else],
    [_let]) nor with a closing brace, contains an identifier character,
    the comment-stripped line contains [=] and the trimmed line ends in none
    of the accepted terminators, then the missing-terminator diagnostic
    spanning the trimmed line is reported.  The document [foo = 1] yields
    exactly that one diagnostic, over columns 0 to 7. *)
Theorem missing_terminator_reported :
  (forall (doc : text) (n : nat) (line : text),
      let st := stateAt doc n in
      let cl := Heuristics.clean line in
      let tr := Js.trim cl in
      let startIdx := Heuristics.column (Js.indexOf cl tr) in
      nth_error (Js.split newline doc) n = Some line ->
      Heuristics.skipHeuristics st cl = false ->
      Heuristics.arrayDepth (Heuristics.scan_chars n 0 cl (core st)) = 0 ->
      test Heuristics.keywordRe tr = false ->
      Js.startsWith tr (str "}") = false ->
      test Heuristics.identCharRe tr = true ->
      Js.includes cl (str "=") = true ->
      existsb (fun e => Js.endsWith tr e) Heuristics.validEndings = false ->
      In (Heuristics.missingSemi n startIdx (startIdx + length tr))
        (Heuristics.runStaticHeuristics doc))
  /\ Heuristics.runStaticHeuristics (str "foo = 1")
     = [Heuristics.missingSemi 0 0 7].
Proof.
  split; [|reflexivity].
  intros doc n line st cl tr startIdx Hn Hskip Hdepth Hk Hb Hid Heq Hend.
  apply (@LineFacts.line_diagnostic_kept doc n line _ Hn).
  destruct (ScannerFacts.scan_line_spec
              (skipn (S n) (Js.split newline doc)) n line st)
    as (extra & _ & Hd & _).
  fold cl in Hd. rewrite Hdepth in Hd. revert Hd.
  unfold Heuristics.scan_line. fold cl. fold tr. fold st.
  destruct tr as [|t0 tr'] eqn:Etrim; [discriminate Hid|].
  cbv zeta. rewrite Hskip. simpl negb. rewrite !andb_true_r.
  match goal with
  | |- context [Heuristics.braceChecks ?l ?i ?c ?t ?s] =>
      remember (Heuristics.braceChecks l i c t s) as st4 eqn:E4
  end.
  destruct (Heuristics.arrayDepth st4 =? 0) eqn:E0.
  - intros _.
    rewrite (@LineFacts.statementChecks_missingSemi n cl _ _ _ st4
               Hk Hb Hid Heq Hend).
    apply in_or_app. right. left. reflexivity.
  - intros Hd. rewrite Hd in E0. discriminate E0.
Qed.

Lemma missing_terminator_reported_witness :
  let doc := str "x = [" ++ [newline] ++ str "];" ++ [newline]
             ++ str "  bar = 2  # note" in
  In (Heuristics.missingSemi 2 2 9) (Heuristics.runStaticHeuristics doc).
Proof.
  intros doc.
  refine (proj1 missing_terminator_reported doc 2 (str "  bar = 2  # note")
            _ _ _ _ _ _ _ _); reflexivity.
Defined.

(** C6 as stated fails on the document [let x = 1]: the line is
    unsuppressed, at array depth zero, contains [=] and ends in no accepted
    terminator, yet nothing is reported, because a line that starts with an
    exempt keyword skips the statement checks. *)
Lemma keyword_line_counterexample :
  let doc := str "let x = 1" in
  let st := stateAt doc 0 in
  nth_error (Js.split newline doc) 0 = Some doc
  /\ Heuristics.skipHeuristics st (Heuristics.clean doc) = false
  /\ Heuristics.arrayDepth
       (Heuristics.scan_chars 0 0 (Heuristics.clean doc) (core st)) = 0
  /\ Js.includes (Heuristics.clean doc) (str "=") = true
  /\ existsb (fun e => Js.endsWith (Js.trim (Heuristics.clean doc)) e)
       Heuristics.validEndings = false
  /\ filter isMissingSemi (Heuristics.runStaticHeuristics doc) = []
  /\ Heuristics.runStaticHeuristics doc = [].
Proof. intros doc st. repeat split; reflexivity. Qed.

(** ** The parser's verdict *)

(** C8.  When the parser's error stream does not contain the error line
    the extension looks for, the [close] handler publishes exactly the
    diagnostics captured when the check was scheduled, whatever the exit
    status: nothing is added, and the handler always returns.  In the event
    loop, the closing of such a process sets the document's entry of the
    collection to the diagnostics the process was started with. *)
Theorem unrecognised_error_contributes_nothing :
  (forall (doc : text) (existing : list diagnostic) (isWrapped : bool)
          (code : option nat) (stderr : text),
      exec Compiler.errRe stderr = None ->
      Compiler.onClose doc existing isWrapped code stderr = existing)
  /\ (forall (w : Orchestrator.world) (k : nat) (p : Orchestrator.process)
             (code : option nat) (stderr : text),
        nth_error (Orchestrator.running w) k = Some p ->
        exec Compiler.errRe stderr = None ->
        Orchestrator.collection
          (Orchestrator.handle (Orchestrator.Close k code stderr) w)
          (Orchestrator.p_doc p)
        = Orchestrator.p_existing p).
Proof.
  assert (H : forall doc existing isWrapped code stderr,
             exec Compiler.errRe stderr = None ->
             Compiler.onClose doc existing isWrapped code stderr = existing).
  { intros doc existing isWrapped code stderr Hno. unfold Compiler.onClose.
    rewrite Hno. now destruct (_ && _). }
  split; [exact H|].
  intros w k p code stderr Hk Hno. simpl. rewrite Hk. simpl.
  unfold Orchestrator.update. rewrite Nat.eqb_refl. now apply H.
Qed.

Lemma unrecognised_error_contributes_nothing_witness :
  let stderr := str "error: undefined variable at /tmp/config.nix:3:7" in
  let existing := Heuristics.runStaticHeuristics (str "foo = 1") in
  exec Compiler.errRe stderr = None
  /\ Compiler.onClose (str "foo = 1") existing true (Some 1) stderr = existing.
Proof.
  intros stderr existing.
  assert (Hno : exec Compiler.errRe stderr = None) by reflexivity.
  split; [exact Hno|].
  exact (proj1 unrecognised_error_contributes_nothing
           (str "foo = 1") existing true (Some 1) stderr Hno).
Defined.

(** ** The debounce timer *)

Module TimerFacts.
Import Orchestrator.

Lemma clearTimeout_subset h ts t :
  In t (clearTimeout h ts) -> In t ts.
Proof. unfold clearTimeout. intros H. now apply filter_In in H. Qed.

Lemma clearTimeout_length h ts : length (clearTimeout h ts) <= length ts.
Proof. apply filter_length_le. Qed.

(** Once the module variable is honoured, the table is empty. *)
Lemma cleared_empty w :
  timerInv w ->
  match diagnosticTimeout w with
  | Some h => clearTimeout h (pending w)
  | None => pending w
  end = [].
Proof.
  intros (_ & Hown & _).
  destruct (diagnosticTimeout w) as [h|] eqn:E.
  - unfold clearTimeout.
    induction (pending w) as [|t ts IH]; [reflexivity|]. simpl.
    assert (Ht : Some h = Some (t_handle t)) by (apply Hown; now left).
    injection Ht as ->. rewrite Nat.eqb_refl. simpl.
    apply IH. intros t' Hin. apply Hown. now right.
  - destruct (pending w) as [|t ts]; [reflexivity|].
    specialize (Hown t (or_introl eq_refl)). discriminate.
Qed.

Lemma schedule_pending u w :
  timerInv w ->
  pending (scheduleDiagnostics u w)
  = [Timer (nextHandle w) u
       (Heuristics.runStaticHeuristics (docs w u)
        ++ TypeChecks.runTypeChecks (docs w u))].
Proof.
  intros Hinv. unfold scheduleDiagnostics. simpl.
  now rewrite (cleared_empty Hinv).
Qed.

Lemma schedule_inv u w : timerInv w -> timerInv (scheduleDiagnostics u w).
Proof.
  intros Hinv. pose proof (schedule_pending u Hinv) as Hp.
  unfold timerInv. rewrite Hp. repeat split.
  - simpl. intros h [= <-]. lia.
  - simpl. intros t [<-|[]]. reflexivity.
  - simpl. lia.
Qed.

Lemma handle_inv e w : timerInv w -> timerInv (handle e w).
Proof.
  intros Hinv. destruct e as [u newText|h|k code stderr]; simpl.
  - apply schedule_inv. exact Hinv.
  - destruct (find _ (pending w)) as [t|]; [|exact Hinv].
    unfold runNixCompilerChecks. simpl.
    destruct (Compiler.parserInput (docs w (t_doc t))) as [stdin wrapped].
    destruct Hinv as (Hfresh & Hown & Hlen). repeat split; simpl.
    + exact Hfresh.
    + intros t' Hin. apply Hown. eapply clearTimeout_subset. exact Hin.
    + pose proof (clearTimeout_length h (pending w)). lia.
  - destruct (nth_error (running w) k) as [p|]; exact Hinv.
Qed.

Lemma reachable_inv w : reachable w -> timerInv w.
Proof.
  induction 1 as [|w e _ IH].
  - repeat split; simpl; try discriminate; try lia; try (intros t []).
  - now apply handle_inv.
Qed.

End TimerFacts.

(** C9.  In every world the extension can reach, the runtime holds at most
    one pending timer, whatever the documents involved.  A call of the
    scheduling operation leaves exactly one pending timer, its own: a timer
    that was pending before the call is gone from the table, so its check
    is discarded, and if the runtime were to fire the old handle nothing
    would happen. *)
Theorem single_pending_timer (w : Orchestrator.world) :
  Orchestrator.reachable w ->
  length (Orchestrator.pending w) <= 1
  /\ (forall u,
        exists t,
          Orchestrator.pending (Orchestrator.scheduleDiagnostics u w) = [t]
          /\ Orchestrator.t_doc t = u
          /\ Orchestrator.diagnosticTimeout
               (Orchestrator.scheduleDiagnostics u w)
             = Some (Orchestrator.t_handle t))
  /\ (forall u old,
        In old (Orchestrator.pending w) ->
        ~ In old (Orchestrator.pending (Orchestrator.scheduleDiagnostics u w))
        /\ Orchestrator.handle (Orchestrator.Fire (Orchestrator.t_handle old))
             (Orchestrator.scheduleDiagnostics u w)
           = Orchestrator.scheduleDiagnostics u w).
Proof.
  intros Hreach. pose proof (TimerFacts.reachable_inv Hreach) as Hinv.
  pose proof Hinv as (Hfresh & Hown & Hlen).
  split; [exact Hlen|]. split.
  - intros u. eexists. rewrite (TimerFacts.schedule_pending u Hinv).
    repeat split.
  - intros u old Hin.
    assert (Hlt : Orchestrator.t_handle old < Orchestrator.nextHandle w)
      by (apply Hfresh, Hown, Hin).
    split.
    + rewrite (TimerFacts.schedule_pending u Hinv). intros [E|[]].
      rewrite <- E in Hlt. simpl in Hlt. lia.
    + unfold Orchestrator.handle.
      rewrite (TimerFacts.schedule_pending u Hinv). simpl.
      destruct (Nat.eqb_spec (Orchestrator.nextHandle w)
                  (Orchestrator.t_handle old)) as [E|_]; [lia|reflexivity].
Qed.

Lemma single_pending_timer_witness :
  let w := Orchestrator.handle (Orchestrator.Change 1 (str "y = 2;"))
             (Orchestrator.handle (Orchestrator.Change 0 (str "foo = 1"))
                Orchestrator.init) in
  Orchestrator.reachable w
  /\ map Orchestrator.t_doc (Orchestrator.pending w) = [1]
  /\ length (Orchestrator.pending w) <= 1.
Proof.
  intros w.
  assert (Hreach : Orchestrator.reachable w)
    by (do 2 apply Orchestrator.reach_step; apply Orchestrator.reach_init).
  split; [exact Hreach|]. split; [reflexivity|].
  exact (proj1 (single_pending_timer Hreach)).
Defined.

(** ** The matcher against the declarative reading of patterns *)

Module RegexFacts.

Section Sound.
Variable R : Type.

Lemma run_sound r : forall c cs (k : cont R) res,
  run r c cs k = Some res ->
  exists c' cs', matches r c cs c' cs' /\ k c' cs' = Some res.
Proof.
  induction r as [|p|r1 IH1 r2 IH2|r1 IH1 r2 IH2|r1 IH1|r1 IH1|n r1 IH1|ml| |];
    intros c cs k res H.
  - exists c, cs. split; [constructor|exact H].
  - simpl in H. destruct c as [pv [|x xs]]; simpl in H; [discriminate|].
    destruct (p x) eqn:Ep; [|discriminate].
    exists (Cursor (Some x) xs), cs. split; [now constructor|exact H].
  - simpl in H. apply IH1 in H as (c1 & cs1 & M1 & H).
    apply IH2 in H as (c2 & cs2 & M2 & H).
    exists c2, cs2. split; [econstructor; eassumption|exact H].
  - simpl in H. destruct (run r1 c cs k) as [res'|] eqn:E1.
    + injection H as ->. apply IH1 in E1 as (c1 & cs1 & M1 & H).
      exists c1, cs1. split; [now apply M_AltL|exact H].
    + apply IH2 in H as (c1 & cs1 & M1 & H).
      exists c1, cs1. split; [now apply M_AltR|exact H].
  - simpl in H. revert H. generalize (length (rest c)). intros n.
    revert c cs. induction n as [|n IHn]; intros c cs H.
    + exists c, cs. split; [constructor|exact H].
    + simpl in H.
      match type of H with
      | match ?x with _ => _ end = _ => destruct x as [res'|] eqn:E1
      end.
      * injection H as ->. apply IH1 in E1 as (c1 & cs1 & M1 & H).
        destruct (progress c c1) eqn:Ep; [|discriminate].
        apply IHn in H as (c2 & cs2 & M2 & H).
        exists c2, cs2. split; [econstructor; eassumption|exact H].
      * exists c, cs. split; [constructor|exact H].
  - simpl in H. revert H. generalize (length (rest c)). intros n.
    revert c cs. induction n as [|n IHn]; intros c cs H.
    + exists c, cs. split; [constructor|exact H].
    + simpl in H. destruct (k c cs) as [res'|] eqn:E1.
      * exists c, cs. split; [constructor|congruence].
      * apply IH1 in H as (c1 & cs1 & M1 & H).
        destruct (progress c c1) eqn:Ep; [|discriminate].
        apply IHn in H as (c2 & cs2 & M2 & H).
        exists c2, cs2. split; [econstructor; eassumption|exact H].
  - simpl in H. apply IH1 in H as (c1 & cs1 & M1 & H).
    eexists c1, _. split; [constructor; eassumption|exact H].
  - simpl in H. destruct (at_bol ml c) eqn:E; [|discriminate].
    exists c, cs. split; [now constructor|exact H].
  - simpl in H. destruct c as [pv [|x xs]]; simpl in H; [|discriminate].
    eexists _, cs. split; [constructor|exact H].
  - simpl in H. destruct (at_wordb c) eqn:E; [|discriminate].
    exists c, cs. split; [now constructor|exact H].
Qed.
End Sound.

Lemma matches_suffix r c cs c' cs' :
  matches r c cs c' cs' -> exists t, rest c = t ++ rest c'.
Proof.
  induction 1; simpl;
    try (exists []; reflexivity);
    try assumption.
  - now exists [x].
  - destruct IHmatches1 as (t1 & ->). destruct IHmatches2 as (t2 & ->).
    exists (t1 ++ t2). now rewrite app_assoc.
  - destruct IHmatches1 as (t1 & ->). destruct IHmatches2 as (t2 & ->).
    exists (t1 ++ t2). now rewrite app_assoc.
  - destruct IHmatches1 as (t1 & ->). destruct IHmatches2 as (t2 & ->).
    exists (t1 ++ t2). now rewrite app_assoc.
Qed.

Lemma matches_minLen r c cs c' cs' :
  matches r c cs c' cs' -> minLen r + length (rest c') <= length (rest c).
Proof.
  induction 1; simpl in *; try lia.
Qed.

Lemma firstn_consumed (t s : text) :
  firstn (length (t ++ s) - length s) (t ++ s) = t.
Proof.
  rewrite length_app, Nat.add_sub.
  rewrite firstn_app, Nat.sub_diag, firstn_all. simpl. apply app_nil_r.
Qed.

Lemma match_here_found r c idx m :
  match_here r c idx = Some m ->
  found r m /\ rest c = m_text m ++ rest (m_after m).
Proof.
  unfold match_here. intros H.
  apply run_sound in H as (c' & cs' & M & H). injection H as <-. simpl.
  destruct (matches_suffix M) as (t & Ht).
  assert (E : rest c = firstn (length (rest c) - length (rest c')) (rest c)
                       ++ rest c').
  { rewrite Ht at 2 3. rewrite firstn_consumed. exact Ht. }
  split; [|exact E]. exists c, cs'. simpl. now repeat split.
Qed.

Lemma search_found r s : forall p idx skipped m,
  search r p s idx = Some (skipped, m) ->
  found r m /\ s = skipped ++ m_text m ++ rest (m_after m).
Proof.
  induction s as [|x s IH]; intros p idx skipped m H; simpl in H.
  - destruct (match_here r (Cursor p []) idx) as [m'|] eqn:E; [|discriminate].
    injection H as <- <-. apply match_here_found in E as (Hf & E).
    simpl in E. now split.
  - destruct (match_here r (Cursor p (x :: s)) idx) as [m'|] eqn:E.
    + injection H as <- <-. apply match_here_found in E as (Hf & E).
      simpl in E. now split.
    + destruct (search r (Some x) s (S idx)) as [[sk m']|] eqn:E2;
        [|discriminate].
      injection H as <- <-. apply IH in E2 as (Hf & ->). now split.
Qed.

Lemma pieces_from_original r fuel : forall c idx,
  original (pieces_from fuel r c idx) = rest c.
Proof.
  unfold original.
  induction fuel as [|fuel IH]; intros c idx; simpl;
    [now rewrite app_nil_r|].
  destruct (search r (prev c) (rest c) idx) as [[skipped m]|] eqn:E;
    [|simpl; now rewrite app_nil_r].
  apply search_found in E as (_ & E). simpl. rewrite E. f_equal.
  destruct (m_text m) as [|y t]; simpl.
  - destruct (rest (m_after m)) as [|x xs]; [reflexivity|].
    simpl. now rewrite IH.
  - rewrite IH. reflexivity.
Qed.

Lemma pieces_from_found r fuel : forall c idx m,
  In (Hit m) (pieces_from fuel r c idx) -> found r m.
Proof.
  induction fuel as [|fuel IH]; intros c idx m; simpl.
  - intros [H|[]]. discriminate.
  - destruct (search r (prev c) (rest c) idx) as [[skipped m']|] eqn:E.
    + apply search_found in E as (Hf & _).
      intros [H|[H|H]]; [discriminate|injection H as <-; exact Hf|].
      destruct (m_text m'); [destruct (rest (m_after m'))|].
      * destruct H.
      * destruct H as [H|H]; [discriminate|]. now apply IH in H.
      * now apply IH in H.
    + intros [H|[]]. discriminate.
Qed.

Lemma pieces_original r s : original (pieces r s) = s.
Proof. apply pieces_from_original. Qed.

Lemma pieces_found r s m : In (Hit m) (pieces r s) -> found r m.
Proof. apply pieces_from_found. Qed.

Lemma hit_matchAll r s m : In (Hit m) (pieces r s) <-> In m (matchAll r s).
Proof.
  unfold matchAll. rewrite in_flat_map. split.
  - intros H. exists (Hit m). split; [exact H|now left].
  - intros ([t|m'] & Hin & Hm); [destruct Hm|].
    destruct Hm as [<-|[]]. exact Hin.
Qed.

(** ** Replacement through a pattern, piece by piece *)

Section Replace.
Variable f : rmatch -> text.

Lemma replaced_related (P : ascii -> ascii -> Prop) ps :
  (forall x, P x x) ->
  (forall m, In (Hit m) ps -> Forall2 P (m_text m) (f m)) ->
  Forall2 P (original ps) (replaced f ps).
Proof.
  intros Hrefl. unfold original, replaced.
  induction ps as [|[t|m] ps IH]; intros H; simpl; [constructor| |].
  - apply Forall2_app.
    + clear - Hrefl. induction t; constructor; auto.
    + apply IH. intros m Hin. apply H. now right.
  - apply Forall2_app.
    + apply H. now left.
    + apply IH. intros m' Hin. apply H. now right.
Qed.

Lemma replaced_length (g : rmatch -> nat) ps :
  (forall m, In (Hit m) ps -> length (f m) = length (m_text m) + g m) ->
  length (replaced f ps)
  = length (original ps)
    + list_sum (map g (flat_map (fun p => match p with
                                          | Hit m => [m]
                                          | Keep _ => []
                                          end) ps)).
Proof.
  unfold original, replaced.
  induction ps as [|[t|m] ps IH]; intros H; [reflexivity| |].
  - assert (IH' := IH (fun m Hin => H m (or_intror Hin))).
    simpl. rewrite !length_app, IH'. lia.
  - assert (IH' := IH (fun m' Hin => H m' (or_intror Hin))).
    assert (Hm := H m (or_introl eq_refl)).
    simpl. rewrite !length_app, IH', Hm. lia.
Qed.
End Replace.

Lemma replaceAll_related (P : ascii -> ascii -> Prop) r f s :
  (forall x, P x x) ->
  (forall m, In m (matchAll r s) -> found r m -> Forall2 P (m_text m) (f m)) ->
  Forall2 P s (replaceAll r f s).
Proof.
  intros Hrefl H. rewrite <- (pieces_original r s) at 1.
  apply replaced_related; [exact Hrefl|].
  intros m Hin. apply H; [now apply hit_matchAll|now apply pieces_found in Hin].
Qed.

Lemma replaceAll_length r f g s :
  (forall m, found r m -> length (f m) = length (m_text m) + g m) ->
  length (replaceAll r f s) = length s + list_sum (map g (matchAll r s)).
Proof.
  intros H. rewrite <- (pieces_original r s) at 2.
  apply replaced_length. intros m Hin. apply H.
  now apply pieces_found in Hin.
Qed.

Lemma replaceAll_same_length r f s :
  (forall m, found r m -> length (f m) = length (m_text m)) ->
  length (replaceAll r f s) = length s.
Proof.
  intros H. rewrite (@replaceAll_length r f (fun _ => 0) s).
  - induction (matchAll r s); simpl; lia.
  - intros m Hm. rewrite (H m Hm). lia.
Qed.

(** ** When nothing matches *)

Lemma test_false_search r s : test r s = false -> search r None s 0 = None.
Proof.
  unfold test, exec. now destruct (search r None s 0).
Qed.

Lemma pieces_none r s : search r None s 0 = None -> pieces r s = [Keep s].
Proof. unfold pieces. simpl. now intros ->. Qed.

Lemma found_minLen r m : found r m -> minLen r <= length (m_text m).
Proof.
  intros (c & cs' & M & _ & E). apply matches_minLen in M.
  rewrite E, length_app in M. lia.
Qed.

(** ** Line layout *)

Lemma split_layout a b :
  sameLayout a b ->
  map (@length ascii) (Js.split newline a)
  = map (@length ascii) (Js.split newline b).
Proof.
  induction 1 as [|x y a b Hxy _ IH]; [reflexivity|].
  simpl. rewrite <- Hxy.
  destruct (Ascii.eqb x newline); simpl; [now rewrite IH|].
  destruct (Js.split newline a) as [|la lsa];
    destruct (Js.split newline b) as [|lb lsb]; simpl in *;
    try discriminate; [reflexivity|].
  injection IH as -> ->. reflexivity.
Qed.

Lemma layout_fill (a b : text) :
  length a = length b ->
  existsb (Ascii.eqb newline) a = false ->
  existsb (Ascii.eqb newline) b = false ->
  sameLayout a b.
Proof.
  revert b. induction a as [|x a IH]; intros [|y b] Hl Ha Hb;
    try discriminate; [constructor|].
  cbn [existsb] in Ha, Hb. injection Hl as Hl.
  apply orb_false_elim in Ha as [Hx Ha].
  apply orb_false_elim in Hb as [Hy Hb].
  constructor; [|apply IH; auto].
  rewrite (Ascii.eqb_sym x), (Ascii.eqb_sym y). congruence.
Qed.

Lemma repeat_no_break n :
  existsb (Ascii.eqb newline) (Js.repeat " " n) = false.
Proof. induction n as [|n IH]; [reflexivity|exact IH]. Qed.

(** ** The matcher misses nothing

    If the pattern can match from a cursor and the continuation accepts
    where that match ends, the matcher returns a result: the bound on the
    iterations of a repetition never cuts a match off. *)

Section Complete.
Variable R : Type.

Lemma isSome_or (x y : option R) :
  isSome (match x with Some res => Some res | None => y end)
  = isSome x || isSome y.
Proof. now destruct x. Qed.

Lemma progress_lt c c1 :
  progress c c1 = true -> length (rest c1) < length (rest c).
Proof. unfold progress. apply Nat.ltb_lt. Qed.

Lemma star_loop_complete r1 (k : cont R) :
  (forall c cs c' cs' (k' : cont R),
      matches r1 c cs c' cs' -> isSome (k' c' cs') = true ->
      isSome (run r1 c cs k') = true) ->
  forall c cs c' cs',
    matches (Star r1) c cs c' cs' -> isSome (k c' cs') = true ->
    forall n, length (rest c) <= n ->
              isSome (star_loop (run r1) k n c cs) = true.
Proof.
  intros IH c cs c' cs' M. remember (Star r1) as r eqn:Er.
  induction M as [| | | | | | r c cs c1 cs1 c2 cs2 M1 _ Hp M2 IH2| | | | | |];
    try discriminate; injection Er as ->; intros Hk n Hn.
  - destruct n; simpl; [exact Hk|]. rewrite isSome_or, Hk.
    apply orb_true_r.
  - apply progress_lt in Hp as Hlt.
    destruct n as [|n]; [lia|]. simpl. rewrite isSome_or.
    rewrite (IH _ _ _ _ _ M1); [reflexivity|].
    rewrite Hp. apply (IH2 eq_refl Hk). lia.
Qed.

Lemma lazy_loop_complete r1 (k : cont R) :
  (forall c cs c' cs' (k' : cont R),
      matches r1 c cs c' cs' -> isSome (k' c' cs') = true ->
      isSome (run r1 c cs k') = true) ->
  forall c cs c' cs',
    matches (LazyStar r1) c cs c' cs' -> isSome (k c' cs') = true ->
    forall n, length (rest c) <= n ->
              isSome (lazy_loop (run r1) k n c cs) = true.
Proof.
  intros IH c cs c' cs' M. remember (LazyStar r1) as r eqn:Er.
  induction M as [| | | | | | | |r c cs c1 cs1 c2 cs2 M1 _ Hp M2 IH2| | | |];
    try discriminate; injection Er as ->; intros Hk n Hn.
  - destruct n; simpl; [exact Hk|]. now rewrite isSome_or, Hk.
  - apply progress_lt in Hp as Hlt.
    destruct n as [|n]; [lia|]. simpl. rewrite isSome_or.
    rewrite (IH _ _ _ _ _ M1); [apply orb_true_r|].
    rewrite Hp. apply (IH2 eq_refl Hk). lia.
Qed.

Lemma run_complete r : forall c cs c' cs' (k : cont R),
  matches r c cs c' cs' -> isSome (k c' cs') = true ->
  isSome (run r c cs k) = true.
Proof.
  induction r as [|p|r1 IH1 r2 IH2|r1 IH1 r2 IH2|r1 IH1|r1 IH1|n r1 IH1|ml| |];
    intros c cs c' cs' k M Hk.
  - inversion M; subst. exact Hk.
  - inversion M; subst. simpl.
    match goal with H : p _ = true |- _ => now rewrite H end.
  - inversion M; subst. simpl.
    eapply IH1; [eassumption|]. eapply IH2; eassumption.
  - simpl. rewrite isSome_or. inversion M; subst.
    + match goal with
      | H : matches r1 _ _ _ _ |- _ => rewrite (IH1 _ _ _ _ _ H Hk)
      end. reflexivity.
    + match goal with
      | H : matches r2 _ _ _ _ |- _ => rewrite (IH2 _ _ _ _ _ H Hk)
      end. apply orb_true_r.
  - simpl. eapply star_loop_complete; eauto.
  - simpl. eapply lazy_loop_complete; eauto.
  - inversion M; subst. simpl. eapply IH1; [eassumption|exact Hk].
  - inversion M; subst. simpl.
    match goal with H : at_bol _ _ = true |- _ => now rewrite H end.
  - inversion M; subst. exact Hk.
  - inversion M; subst. simpl.
    match goal with H : at_wordb _ = true |- _ => now rewrite H end.
Qed.
End Complete.

(** A search that finds nothing leaves no position of the text at which
    the pattern can match. *)
Lemma search_none_here r p s idx :
  search r p s idx = None ->
  forall c' cs', ~ matches r (Cursor p s) [] c' cs'.
Proof.
  intros H c' cs' M.
  assert (Hm : match_here r (Cursor p s) idx = None).
  { destruct s; simpl in H; now destruct (match_here r _ idx). }
  unfold match_here in Hm.
  pose proof (@run_complete rmatch r (Cursor p s) [] c' cs'
                (fun c1 cs =>
                   Some (RMatch idx
                           (firstn (length (rest (Cursor p s))
                                    - length (rest c1))
                              (rest (Cursor p s))) cs c1))
                M eq_refl) as Hc.
  rewrite Hm in Hc. discriminate.
Qed.

Lemma search_none_everywhere r pre : forall p idx suf,
  search r p (pre ++ suf) idx = None ->
  forall c' cs', ~ matches r (Cursor (lastChar p pre) suf) [] c' cs'.
Proof.
  induction pre as [|x pre IH]; intros p idx suf H.
  - now apply (@search_none_here r p suf idx).
  - simpl in H.
    destruct (match_here r (Cursor p (x :: pre ++ suf)) idx); [discriminate|].
    destruct (search r (Some x) (pre ++ suf) (S idx)) as [[sk m]|] eqn:E;
      [discriminate|].
    exact (IH (Some x) (S idx) suf E).
Qed.

(** ** The bound on the pieces of a text is never reached *)

Lemma pieces_from_enough r n : forall fuel c idx,
  length (rest c) < n -> length (rest c) < fuel ->
  pieces_from fuel r c idx = pieces_from n r c idx.
Proof.
  induction n as [|n IH]; intros fuel c idx Hn Hf; [lia|].
  destruct fuel as [|fuel]; [lia|]. simpl.
  destruct (search r (prev c) (rest c) idx) as [[skipped m]|] eqn:E;
    [|reflexivity].
  apply search_found in E as (_ & E).
  assert (El : length (rest c)
               = length skipped + length (m_text m)
                 + length (rest (m_after m)))
    by (rewrite E, !length_app; lia).
  do 2 f_equal.
  destruct (m_text m) as [|y t]; [destruct (rest (m_after m)) as [|x xs]|].
  - reflexivity.
  - f_equal. apply IH; simpl in *; lia.
  - apply IH; simpl in *; lia.
Qed.

(** ** What a successful and a failed [test] mean *)

Lemma search_sound_at r s : forall p idx skipped m,
  search r p s idx = Some (skipped, m) ->
  exists suf,
    s = skipped ++ suf
    /\ matches r (Cursor (lastChar p skipped) suf) [] (m_after m) (m_caps m).
Proof.
  assert (Here : forall p s idx m,
             match_here r (Cursor p s) idx = Some m ->
             matches r (Cursor p s) [] (m_after m) (m_caps m)).
  { intros p s0 idx m H. unfold match_here in H.
    apply run_sound in H as (c' & cs' & M & H). now injection H as <-. }
  induction s as [|x s IH]; intros p idx skipped m H; simpl in H.
  - destruct (match_here r (Cursor p []) idx) as [m'|] eqn:E; [|discriminate].
    injection H as <- <-. exists []. split; [reflexivity|now apply Here in E].
  - destruct (match_here r (Cursor p (x :: s)) idx) as [m'|] eqn:E.
    + injection H as <- <-. exists (x :: s).
      split; [reflexivity|now apply Here in E].
    + destruct (search r (Some x) s (S idx)) as [[sk m']|] eqn:E2;
        [|discriminate].
      injection H as <- <-. apply IH in E2 as (suf & -> & M).
      exists suf. split; [reflexivity|exact M].
Qed.

(** [test] answers whether the pattern can match somewhere. *)
Lemma test_occurs r s : test r s = true <-> occursIn r s.
Proof.
  unfold test, exec, occursIn. split.
  - destruct (search r None s 0) as [[skipped m]|] eqn:E; [|discriminate].
    intros _. apply search_sound_at in E as (suf & -> & M).
    now exists skipped, suf, (m_after m), (m_caps m).
  - intros (pre & suf & c' & cs' & -> & M).
    destruct (search r None (pre ++ suf) 0) as [[skipped m]|] eqn:E;
      [reflexivity|].
    exfalso. exact (@search_none_everywhere r pre None 0 suf E c' cs' M).
Qed.

End RegexFacts.

(** ** The parser masking *)

Module MaskFacts.
Import RegexFacts.

Lemma let_length m :
  found Compiler.letRegex m ->
  length (Compiler.maskLet m) = length (m_text m).
Proof.
  intros H. apply found_minLen in H.
  change (minLen Compiler.letRegex) with 9 in H.
  unfold Compiler.maskLet, Js.repeat.
  rewrite !length_app, repeat_length. simpl. lia.
Qed.

Lemma var_length m :
  found Compiler.varRe m ->
  length (Compiler.maskVar m) = length (m_text m).
Proof.
  intros H. apply found_minLen in H.
  change (minLen Compiler.varRe) with 2 in H.
  unfold Compiler.maskVar, Js.repeat.
  rewrite !length_app, repeat_length. simpl. lia.
Qed.

Lemma node_length m :
  found Compiler.nodeRe m ->
  length (Compiler.maskNode m) = length (m_text m).
Proof.
  intros H. apply found_minLen in H.
  change (minLen Compiler.nodeRe) with 6 in H.
  unfold Compiler.maskNode, Js.repeat.
  rewrite !length_app, repeat_length. simpl. lia.
Qed.

(** A match of the shorthand pattern is the marker, the captured blanks
    and the brace. *)
Lemma bang_text m :
  found Compiler.bangRe m ->
  m_text m = "!"%char :: TypeChecks.capOr 1 m ++ ["{"%char].
Proof.
  intros (c & cs' & M & Hcaps & E).
  destruct m as [idx txt mcaps after]. simpl in *.
  unfold TypeChecks.capOr, group. simpl. rewrite Hcaps.
  unfold Compiler.bangRe, Lit1 in M. cbn [Cats] in M.
  inversion M as [| |r1 r2 c0 cs0 c1 cs1 c2 cs2 M1 M2| | | | | | | | | |];
    subst; clear M.
  inversion M1 as [|p pv x xs cs0 Hx| | | | | | | | | | |]; subst; clear M1.
  inversion M2 as [| |r1 r2 c0 cs0 c3 cs3 c4 cs4 M3 M4| | | | | | | | | |];
    subst; clear M2.
  inversion M3 as [| | | | | | | | |n r c0 cs0 c5 cs5 M5| | |]; subst; clear M3.
  inversion M4 as [|p pv0 y ys cs0 Hy| | | | | | | | | | |]; subst; clear M4.
  apply Ascii.eqb_eq in Hx, Hy. subst x y.
  destruct (matches_suffix M5) as (t & Ht). simpl in *.
  rewrite Ht, firstn_consumed.
  apply (app_inv_tail ys). rewrite <- E, Ht. simpl.
  now rewrite <- app_assoc.
Qed.

Lemma bang_shape m :
  found Compiler.bangRe m ->
  length (m_text m) = length (TypeChecks.capOr 1 m) + 2.
Proof.
  intros H. rewrite (bang_text H). simpl. rewrite length_app. simpl. lia.
Qed.

Lemma bang_length m :
  found Compiler.bangRe m ->
  length (Compiler.maskBang m) = length (m_text m) + tightBang m.
Proof.
  intros H. rewrite (bang_shape H).
  unfold Compiler.maskBang, tightBang, Js.repeat.
  destruct (0 <? length (TypeChecks.capOr 1 m)) eqn:E.
  - apply Nat.ltb_lt in E. rewrite !length_app, repeat_length. simpl. lia.
  - apply Nat.ltb_ge in E. simpl. lia.
Qed.

Lemma existsb_app_false {A : Type} (p : A -> bool) a b :
  existsb p a = false -> existsb p b = false -> existsb p (a ++ b) = false.
Proof. intros Ha Hb. now rewrite existsb_app, Ha, Hb. Qed.

Lemma maskLet_no_break m :
  existsb (Ascii.eqb newline) (Compiler.maskLet m) = false.
Proof.
  unfold Compiler.maskLet.
  repeat apply existsb_app_false; try reflexivity. apply repeat_no_break.
Qed.

Lemma maskVar_no_break m :
  existsb (Ascii.eqb newline) (Compiler.maskVar m) = false.
Proof.
  unfold Compiler.maskVar.
  repeat apply existsb_app_false; try reflexivity. apply repeat_no_break.
Qed.

Lemma maskNode_no_break m :
  existsb (Ascii.eqb newline) (Compiler.maskNode m) = false.
Proof.
  unfold Compiler.maskNode.
  repeat apply existsb_app_false; try reflexivity. apply repeat_no_break.
Qed.

Lemma maskBang_no_break m :
  existsb (Ascii.eqb newline) (Compiler.maskBang m) = false.
Proof.
  unfold Compiler.maskBang.
  destruct (0 <? length (TypeChecks.capOr 1 m)); [|reflexivity].
  repeat apply existsb_app_false; try reflexivity. apply repeat_no_break.
Qed.

Lemma singleLine_in r s m :
  singleLine r s = true -> In m (matchAll r s) ->
  existsb (Ascii.eqb newline) (m_text m) = false.
Proof.
  unfold singleLine. rewrite forallb_forall. intros H Hin.
  apply H in Hin. now apply negb_true_iff in Hin.
Qed.

Lemma list_sum_zero {A : Type} (g : A -> nat) l x :
  list_sum (map g l) = 0 -> In x l -> g x = 0.
Proof.
  induction l as [|y l IH]; simpl; [intros _ []|].
  intros H [->|Hin]; [lia|]. apply IH; [lia|exact Hin].
Qed.

(** A pass whose replacer keeps the length and whose spans and fillers
    hold no line break keeps every line at its length. *)
Lemma pass_layout r f s :
  singleLine r s = true ->
  (forall m, In m (matchAll r s) -> found r m ->
             length (f m) = length (m_text m)) ->
  (forall m, existsb (Ascii.eqb newline) (f m) = false) ->
  map (@length ascii) (Js.split newline (replaceAll r f s))
  = map (@length ascii) (Js.split newline s).
Proof.
  intros Hsl Hlen Hnb. symmetry. apply split_layout.
  apply replaceAll_related; [reflexivity|].
  intros m Hin Hf. apply layout_fill.
  - symmetry. now apply Hlen.
  - now apply (singleLine_in r s).
  - apply Hnb.
Qed.

(** ** Where the masked text differs from the input *)

Lemma fill_related (a b : text) :
  length a = length b -> forallb isFiller b = true ->
  Forall2 keptOrFilled a b.
Proof.
  revert b. induction a as [|x a IH]; intros [|y b] Hl Hb;
    try discriminate; [constructor|].
  simpl in Hb. apply andb_prop in Hb as [Hy Hb]. injection Hl as Hl.
  constructor; [now right|now apply IH].
Qed.

Lemma repeat_filler n : forallb isFiller (Js.repeat " " n) = true.
Proof. induction n as [|n IH]; [reflexivity|exact IH]. Qed.

Lemma maskLet_filler m : forallb isFiller (Compiler.maskLet m) = true.
Proof.
  unfold Compiler.maskLet. rewrite !forallb_app, repeat_filler. reflexivity.
Qed.

Lemma maskVar_filler m : forallb isFiller (Compiler.maskVar m) = true.
Proof.
  unfold Compiler.maskVar. rewrite !forallb_app, repeat_filler. reflexivity.
Qed.

Lemma maskNode_filler m : forallb isFiller (Compiler.maskNode m) = true.
Proof.
  unfold Compiler.maskNode. rewrite !forallb_app, repeat_filler. reflexivity.
Qed.

Lemma pass_kept r f s :
  (forall m, found r m -> length (f m) = length (m_text m)) ->
  (forall m, forallb isFiller (f m) = true) ->
  Forall2 keptOrFilled s (replaceAll r f s).
Proof.
  intros Hlen Hfill. apply replaceAll_related; [now left|].
  intros m _ Hf. apply fill_related; [symmetry; now apply Hlen|apply Hfill].
Qed.

Lemma kept_trans a b : Forall2 keptOrFilled a b ->
  forall c, Forall2 keptOrFilled b c -> Forall2 keptOrFilled a c.
Proof.
  induction 1 as [|x y a b Hxy _ IH]; intros c Hbc; inversion Hbc; subst;
    constructor; [|now apply IH].
  unfold keptOrFilled in *.
  match goal with H : _ = y \/ _ |- _ => destruct H as [->|H] end;
    [exact Hxy|now right].
Qed.

(** After the first three passes every character is the input's or a
    filler. *)
Lemma pass3_kept doc : Forall2 keptOrFilled doc (Compiler.pass3 doc).
Proof.
  unfold Compiler.pass3, Compiler.pass2, Compiler.pass1.
  eapply kept_trans; [|eapply kept_trans];
    [apply (@pass_kept Compiler.letRegex Compiler.maskLet)
    |apply (@pass_kept Compiler.varRe Compiler.maskVar)
    |apply (@pass_kept Compiler.nodeRe Compiler.maskNode)];
    auto using let_length, var_length, node_length, maskLet_filler,
               maskVar_filler, maskNode_filler.
Qed.

Lemma kept_startsWith a b :
  Forall2 keptOrFilled a b ->
  Js.startsWith b (str "!{") = true -> Js.startsWith a (str "!{") = true.
Proof.
  intros H Hb.
  destruct H as [|x1 y1 a b H1 H]; [discriminate|].
  destruct H as [|x2 y2 a b H2 H]; [simpl in Hb; now rewrite andb_false_r in Hb|].
  change (Js.startsWith (y1 :: y2 :: b) (str "!{"))
    with (Ascii.eqb "!" y1 && (Ascii.eqb "{" y2 && Js.startsWith b [])) in Hb.
  change (Js.startsWith (x1 :: x2 :: a) (str "!{"))
    with (Ascii.eqb "!" x1 && (Ascii.eqb "{" x2 && Js.startsWith a [])).
  apply andb_prop in Hb as [E1 Hb]. apply andb_prop in Hb as [E2 _].
  apply Ascii.eqb_eq in E1, E2. subst y1 y2.
  destruct H1 as [<-|F]; [|discriminate F].
  destruct H2 as [<-|F]; [|discriminate F].
  now destruct a.
Qed.

Lemma includes_cons x s p :
  Js.includes (x :: s) p = Js.startsWith (x :: s) p || Js.includes s p.
Proof.
  unfold Js.includes.
  change (Js.indexOf (x :: s) p)
    with (if Js.startsWith (x :: s) p then Some 0
          else option_map S (Js.indexOf s p)).
  destruct (Js.startsWith (x :: s) p); [reflexivity|].
  now destruct (Js.indexOf s p).
Qed.

Lemma kept_includes a b :
  Forall2 keptOrFilled a b ->
  Js.includes b (str "!{") = true -> Js.includes a (str "!{") = true.
Proof.
  induction 1 as [|x y a b Hxy H IH]; [discriminate|].
  rewrite !includes_cons. intros Hb.
  apply orb_true_iff in Hb as [Hb|Hb].
  - rewrite (kept_startsWith (Forall2_cons _ _ Hxy H) Hb). reflexivity.
  - rewrite (IH Hb). apply orb_true_r.
Qed.

Lemma startsWith_app p : forall b, Js.startsWith (p ++ b) p = true.
Proof.
  induction p as [|x p IH]; intros b; simpl; [now destruct b|].
  now rewrite Ascii.eqb_refl, IH.
Qed.

Lemma includes_mid p a : forall b,
  p <> [] -> Js.includes (a ++ p ++ b) p = true.
Proof.
  induction a as [|x a IH]; intros b Hp; simpl app.
  - unfold Js.includes.
    destruct p as [|y p]; [contradiction|].
    simpl app. unfold Js.indexOf.
    change (Js.startsWith (y :: p ++ b) (y :: p))
      with (Js.startsWith ((y :: p) ++ b) (y :: p)).
    now rewrite startsWith_app.
  - rewrite includes_cons, (IH b Hp). apply orb_true_r.
Qed.

Lemma hit_substring r s m :
  In (Hit m) (pieces r s) -> exists a b, s = a ++ m_text m ++ b.
Proof.
  intros Hin. apply in_split in Hin as (l1 & l2 & E).
  exists (original l1), (original l2).
  rewrite <- (pieces_original r s), E. unfold original.
  now rewrite flat_map_app.
Qed.

(** A text that nowhere holds [!{] has no glued marker for the fourth
    pass to lengthen. *)
Lemma no_tight_bang doc :
  Js.includes doc (str "!{") = false -> tightBangs doc = 0.
Proof.
  intros Hno. unfold tightBangs.
  assert (H : forall m, In m (matchAll Compiler.bangRe (Compiler.pass3 doc)) ->
                        tightBang m = 0).
  { intros m Hin. unfold tightBang.
    destruct (TypeChecks.capOr 1 m) as [|c0 cap] eqn:Ecap; [|reflexivity].
    exfalso. apply hit_matchAll in Hin.
    pose proof (bang_text (pieces_found _ _ _ Hin)) as Ht.
    rewrite Ecap in Ht. simpl in Ht.
    destruct (hit_substring _ _ _ Hin) as (a & b & E).
    assert (Hinc : Js.includes (Compiler.pass3 doc) (str "!{") = true).
    { rewrite E, Ht. apply (@includes_mid (str "!{") a b). discriminate. }
    apply (kept_includes (pass3_kept doc)) in Hinc. congruence. }
  induction (matchAll Compiler.bangRe (Compiler.pass3 doc)) as [|m l IH];
    [reflexivity|].
  simpl. rewrite (H m (or_introl eq_refl)). apply IH.
  intros m' Hin. apply H. now right.
Qed.

End MaskFacts.

(** C1, as the code has it.  The first three passes of the parser masking
    (typed declarations, sigil variables, structural nodes) never change
    the length of the text.  The fourth pass keeps a shorthand marker that
    is separated from its brace by whitespace at its length and turns a
    marker glued to its brace, [!{], into the three characters [_={]: the
    masked text is as long as the input plus one character per glued marker
    the fourth pass finds.  For an input that nowhere holds [!{] the masked
    text has the length of the input, and when moreover no span masked by a
    pass holds a line break, every line has the length it had in the
    input. *)
Theorem mask_layout (doc : text) :
  length (Compiler.pass3 doc) = length doc
  /\ length (Compiler.mask doc) = length doc + tightBangs doc
  /\ (Js.includes doc (str "!{") = false ->
      length (Compiler.mask doc) = length doc
      /\ (singleLineSpans doc = true ->
          map (@length ascii) (Js.split newline (Compiler.mask doc))
          = map (@length ascii) (Js.split newline doc))).
Proof.
  assert (H3 : length (Compiler.pass3 doc) = length doc).
  { unfold Compiler.pass3, Compiler.pass2, Compiler.pass1.
    rewrite !RegexFacts.replaceAll_same_length;
      auto using MaskFacts.let_length, MaskFacts.var_length,
                 MaskFacts.node_length. }
  assert (H4 : length (Compiler.mask doc) = length doc + tightBangs doc).
  { unfold Compiler.mask, tightBangs.
    rewrite (@RegexFacts.replaceAll_length _ _ tightBang)
      by apply MaskFacts.bang_length.
    now rewrite H3. }
  split; [exact H3|]. split; [exact H4|].
  intros Hno. pose proof (MaskFacts.no_tight_bang doc Hno) as Htight.
  split; [rewrite H4, Htight; lia|].
  intros Hsl. unfold singleLineSpans in Hsl.
  apply andb_prop in Hsl as [Hsl S4]. apply andb_prop in Hsl as [Hsl S3].
  apply andb_prop in Hsl as [S1 S2].
  unfold Compiler.mask.
  rewrite MaskFacts.pass_layout;
    [|exact S4| |apply MaskFacts.maskBang_no_break].
  - unfold Compiler.pass3.
    rewrite MaskFacts.pass_layout;
      [|exact S3|intros; now apply MaskFacts.node_length
       |apply MaskFacts.maskNode_no_break].
    unfold Compiler.pass2.
    rewrite MaskFacts.pass_layout;
      [|exact S2|intros; now apply MaskFacts.var_length
       |apply MaskFacts.maskVar_no_break].
    unfold Compiler.pass1.
    apply MaskFacts.pass_layout;
      [exact S1|intros; now apply MaskFacts.let_length
      |apply MaskFacts.maskLet_no_break].
  - intros m Hin Hf. rewrite (MaskFacts.bang_length Hf).
    unfold tightBangs in Htight.
    rewrite (MaskFacts.list_sum_zero tightBang _ m Htight Hin). lia.
Qed.

Lemma mask_layout_witness :
  let doc := str "_let x : int = 5;" ++ [newline]
             ++ str "y = $foo.bar; (zmdl a (b) c)" ++ [newline]
             ++ str "! { z }" in
  Compiler.mask doc
  = str "_            = 5;" ++ [newline]
    ++ str "y = v       ; n             " ++ [newline]
    ++ str "_={ z }"
  /\ map (@length ascii) (Js.split newline (Compiler.mask doc))
     = map (@length ascii) (Js.split newline doc).
Proof.
  intros doc. split; [reflexivity|].
  refine (proj2 (proj2 (proj2 (mask_layout doc)) _) _); reflexivity.
Defined.

(** C1 as stated fails on the document [!{]: the shorthand marker is
    masked by [_={], one character longer than the input. *)
Lemma tight_bang_counterexample :
  Compiler.mask (str "!{") = str "_={"
  /\ length (Compiler.mask (str "!{")) <> length (str "!{")
  /\ map (@length ascii) (Js.split newline (Compiler.mask (str "!{")))
     <> map (@length ascii) (Js.split newline (str "!{")).
Proof. repeat split; try reflexivity; vm_compute; discriminate. Qed.

(** A masked span that holds a line break is filled with blanks like any
    other: the total length stays, the two lines become one. *)
Example span_across_lines :
  let doc := str "_let x" ++ [newline] ++ str ": int = 5;" in
  Compiler.mask doc = str "_            = 5;"
  /\ length (Compiler.mask doc) = length doc
  /\ map (@length ascii) (Js.split newline doc) = [6; 10]
  /\ map (@length ascii) (Js.split newline (Compiler.mask doc)) = [17].
Proof. repeat split; reflexivity. Qed.

(** ** The formatter masking *)

Module FormatFacts.
Import RegexFacts Format.

Lemma matchAll_none r s : test r s = false -> matchAll r s = [].
Proof.
  intros H. unfold matchAll.
  now rewrite (pieces_none _ _ (test_false_search _ _ H)).
Qed.

Lemma replaceAllSt_none r f s st :
  test r s = false -> replaceAllSt r f s st = (s, st).
Proof.
  intros H. unfold replaceAllSt.
  rewrite (pieces_none _ _ (test_false_search _ _ H)). simpl.
  now rewrite app_nil_r.
Qed.

Lemma maskLets_none s st :
  test letRegex s = false -> maskLets s st = (s, st).
Proof.
  intros H. unfold maskLets. now rewrite (matchAll_none _ _ H).
Qed.

Lemma mask_none doc :
  noDialect doc = true -> mask doc = (doc, MState 0 []).
Proof.
  unfold noDialect. intros H.
  apply andb_prop in H as [H H4]. apply andb_prop in H as [H H3].
  apply andb_prop in H as [H1 H2].
  apply negb_true_iff in H1, H2, H3, H4.
  unfold mask. rewrite (@maskLets_none doc _ H1).
  rewrite (@replaceAllSt_none varRe _ doc _ H2).
  rewrite (@replaceAllSt_none nodeRe _ doc _ H3).
  now apply replaceAllSt_none.
Qed.

(** A text without dialect constructs, as the passes see it, is a text in
    which none of their four patterns can match at any position. *)
Lemma noDialect_spec doc :
  noDialect doc = true
  <-> ~ occursIn letRegex doc /\ ~ occursIn varRe doc
      /\ ~ occursIn nodeRe doc /\ ~ occursIn bangRe doc.
Proof.
  unfold noDialect. rewrite !andb_true_iff, !negb_true_iff.
  rewrite <- !(test_occurs), !not_true_iff_false. tauto.
Qed.

End FormatFacts.

(** C2.  On a text in which none of the four patterns of the formatting
    passes finds anything, masking returns the text as it is with an empty
    dictionary, restoration with that dictionary leaves any formatter output
    as it is, and the provider resolves to the formatter's output, unwrapped
    when the text had to be wrapped; with a formatter that echoes its input
    and a text that needs no wrapping, the provider returns the text
    itself. *)
Theorem plain_text_round_trip (doc : text) :
  noDialect doc = true ->
  Format.mask doc = (doc, Format.MState 0 [])
  /\ (forall out,
        Format.restore (Format.maskDict (snd (Format.mask doc))) out = out)
  /\ (forall nixfmt,
        Format.provideDocumentFormattingEdits nixfmt doc
        = let (prepText, isWrapped) := Format.wrap doc in
          let '(code, stdout, _) := nixfmt prepText in
          match code, stdout with
          | Some 0, _ :: _ =>
              Some (if isWrapped then Format.unwrap stdout else stdout)
          | _, _ => None
          end)
  /\ (forall nixfmt,
        (forall t, nixfmt t = (Some 0, t, [])) ->
        snd (Format.wrap doc) = false -> doc <> [] ->
        Format.provideDocumentFormattingEdits nixfmt doc = Some doc).
Proof.
  intros H. pose proof (FormatFacts.mask_none doc H) as Hm.
  assert (Hp : forall nixfmt,
        Format.provideDocumentFormattingEdits nixfmt doc
        = let (prepText, isWrapped) := Format.wrap doc in
          let '(code, stdout, _) := nixfmt prepText in
          match code, stdout with
          | Some 0, _ :: _ =>
              Some (if isWrapped then Format.unwrap stdout else stdout)
          | _, _ => None
          end).
  { intros nixfmt. unfold Format.provideDocumentFormattingEdits.
    rewrite Hm. destruct (Format.wrap doc) as [prepText isWrapped].
    destruct (nixfmt prepText) as [[code stdout] stderr].
    reflexivity. }
  repeat split.
  - exact Hm.
  - intros out. rewrite Hm. reflexivity.
  - exact Hp.
  - intros nixfmt Hecho Hwrap Hne. rewrite Hp.
    unfold Format.wrap, Compiler.wrap in *.
    destruct (negb (test Compiler.topLevelRe doc)); [discriminate Hwrap|].
    rewrite Hecho. destruct doc; [contradiction|reflexivity].
Qed.

Lemma plain_text_round_trip_witness :
  let doc := str "{ a = 1; b = [ 2 3 ]; }" in
  noDialect doc = true
  /\ Format.provideDocumentFormattingEdits (fun t => (Some 0, t, [])) doc
     = Some doc.
Proof.
  intros doc.
  assert (H : noDialect doc = true) by reflexivity.
  split; [exact H|].
  apply (proj2 (proj2 (proj2 (plain_text_round_trip doc H)))).
  - reflexivity.
  - reflexivity.
  - discriminate.
Defined.

(** ** The typed-declaration checker *)

Module TypeFacts.
Import TypeChecks.

Lemma test_isSome r s : test r s = isSome (search r None s 0).
Proof. unfold test, exec. now destruct (search r None s 0). Qed.

(** A pattern that starts with [^] matches at the start of the text or
    nowhere. *)
Lemma search_anchored r s : forall x idx,
  search (Cat (Bol false) r) (Some x) s idx = None.
Proof.
  induction s as [|y s IH]; intros x idx; simpl; [reflexivity|].
  now rewrite IH.
Qed.

Lemma search_anchored_start r s :
  isSome (search (Cat (Bol false) r) None s 0)
  = isSome (match_here (Cat (Bol false) r) (Cursor None s) 0).
Proof.
  destruct s as [|x s]; simpl.
  - now destruct (match_here _ _ _).
  - destruct (match_here _ _ _); [reflexivity|].
    now rewrite search_anchored.
Qed.

Section Digits.
Variable R : Type.
Variable k : cont R.
Hypothesis k_total : forall c cs, isSome (k c cs) = true.

Lemma star_digit_eol s : forall p cs,
  isSome (run (Star digit) (Cursor p s) cs (atEnd k)) = forallb Js.is_digit s.
Proof.
  induction s as [|x xs IH]; intros p cs.
  - simpl. apply k_total.
  - change (run (Star digit) (Cursor p (x :: xs)) cs (atEnd k))
      with (match
               (if Js.is_digit x
                then if progress (Cursor p (x :: xs)) (Cursor (Some x) xs)
                     then run (Star digit) (Cursor (Some x) xs) cs (atEnd k)
                     else None
                else None)
             with
             | Some res => Some res
             | None => (atEnd k) (Cursor p (x :: xs)) cs
             end).
    assert (Hp : progress (Cursor p (x :: xs)) (Cursor (Some x) xs) = true)
      by (unfold progress; simpl rest; apply Nat.ltb_lt; simpl; lia).
    rewrite Hp. cbn [forallb]. specialize (IH (Some x) cs).
    destruct (Js.is_digit x); [|reflexivity].
    destruct (run (Star digit) (Cursor (Some x) xs) cs (atEnd k));
      simpl in *; now rewrite <- IH.
Qed.

Lemma plus_digit_eol s p cs :
  isSome (run (Cat (Plus digit) Eol) (Cursor p s) cs k)
  = (0 <? length s) && forallb Js.is_digit s.
Proof.
  destruct s as [|x xs]; [reflexivity|].
  change (run (Cat (Plus digit) Eol) (Cursor p (x :: xs)) cs k)
    with (if Js.is_digit x
          then run (Star digit) (Cursor (Some x) xs) cs (atEnd k)
          else None).
  cbn [forallb length]. change (0 <? S (length xs)) with true.
  destruct (Js.is_digit x); [|reflexivity].
  apply star_digit_eol.
Qed.
End Digits.

(** The integer pattern accepts exactly the integer literals. *)
Lemma intRe_literal v : test intRe v = isIntLiteral v.
Proof.
  rewrite test_isSome. unfold intRe. cbn [Cats].
  rewrite search_anchored_start. unfold match_here.
  set (kf := fun (c' : cursor) (cs : caps) =>
               Some (RMatch 0
                       (firstn (length (rest (Cursor None v))
                                - length (rest c')) (rest (Cursor None v)))
                       cs c')).
  assert (Hk : forall c cs, isSome (kf c cs) = true) by reflexivity.
  set (K2 := fun c' cs' => run (Cat (Plus digit) Eol) c' cs' kf).
  change (run (Cat (Bol false)
                 (Cat (Opt (Lit1 "-")) (Cat (Plus digit) Eol)))
            (Cursor None v) [] kf)
    with (match run (Lit1 "-") (Cursor None v) [] K2 with
          | Some res => Some res
          | None => K2 (Cursor None v) []
          end).
  unfold isIntLiteral.
  destruct v as [|c t].
  - reflexivity.
  - change (run (Lit1 "-") (Cursor None (c :: t)) [] K2)
      with (if Ascii.eqb "-" c then K2 (Cursor (Some c) t) [] else None).
    rewrite (Ascii.eqb_sym c "-").
    destruct (Ascii.eqb_spec "-"%char c) as [<-|Hne].
    + pose proof (plus_digit_eol kf Hk t (Some "-"%char) []) as H1.
      pose proof (plus_digit_eol kf Hk ("-"%char :: t) None []) as H2.
      fold (K2 (Cursor (Some "-"%char) t) []) in H1.
      fold (K2 (Cursor None ("-"%char :: t)) []) in H2.
      destruct (K2 (Cursor (Some "-"%char) t) []); simpl in *;
        [exact H1|].
      rewrite <- H1. exact H2.
    + apply (plus_digit_eol kf Hk).
Qed.

End TypeFacts.

(** C4.  The checker on the three declarations of the specification: an
    [int] declared with value [5] gives no diagnostic; an [int] declared
    with the quoted value [5] gives exactly one type-mismatch diagnostic,
    whose range is the quoted value; an [enum] with options [a] and [b]
    declared with the quoted value [c] gives exactly one diagnostic, naming
    [c] (its quotes stripped) and listing [a, b].  In general a value
    declared [int] or [integer] passes exactly when it is an optional minus
    sign followed by one or more digits and nothing else. *)
Theorem typed_declaration_checks :
  TypeChecks.runTypeChecks (str "_let x : int = 5;") = []
  /\ (let doc := str "_let x : int = " ++ [dquote] ++ str "5" ++ [dquote]
                 ++ str ";" in
      TypeChecks.runTypeChecks doc
      = [Diagnostic (Range 0 15 0 18)
           (str "Type Error: Expected an integer for 'x'.") Error]
      /\ Js.substring doc 15 18 = [dquote] ++ str "5" ++ [dquote])
  /\ (let doc := str "_let x : enum [" ++ [dquote] ++ str "a" ++ [dquote]
                 ++ str "," ++ [dquote] ++ str "b" ++ [dquote] ++ str "] = "
                 ++ [dquote] ++ str "c" ++ [dquote] ++ str ";" in
      TypeChecks.runTypeChecks doc
      = [Diagnostic (Range 0 26 0 29)
           (str "Type Error: Value " ++ [dquote] ++ str "c" ++ [dquote]
            ++ str " is not a valid option for enum 'x'. Valid options: [a, b]")
           Error]
      /\ Js.substring doc 26 29 = [dquote] ++ str "c" ++ [dquote])
  /\ (forall (varName : text) (enumContent : option text) (valText : text)
             (r : range),
        TypeChecks.checkValue varName (str "int") enumContent valText r
        = (if isIntLiteral valText then []
           else [TypeChecks.typeError r
                   (str "Expected an integer for '" ++ varName ++ str "'.")])
        /\ TypeChecks.checkValue varName (str "integer") enumContent valText r
           = TypeChecks.checkValue varName (str "int") enumContent valText r).
Proof.
  split; [reflexivity|]. split; [split; reflexivity|].
  split; [split; reflexivity|].
  intros varName enumContent valText r. split; [|reflexivity].
  unfold TypeChecks.checkValue.
  change (Js.text_eqb (str "int") (str "string")) with false.
  change (Js.text_eqb (str "int") (str "int")) with true.
  cbv iota. simpl orb. cbv iota.
  rewrite TypeFacts.intRe_literal. now destruct (isIntLiteral valText).
Qed.

(* ================================================================== *)
(** * Part III.  Further properties of the code                        *)
(* ================================================================== *)

(** ** The scanner: where diagnostics point *)

Module PlacementFacts.
Import Heuristics.

Lemma addDiags_nil st : addDiags [] st = st.
Proof. destruct st. unfold addDiags. simpl. now rewrite app_nil_r. Qed.

Lemma addDiags_app a b st : addDiags b (addDiags a st) = addDiags (a ++ b) st.
Proof. unfold addDiags. simpl. now rewrite app_assoc. Qed.

Lemma push_diag_add d st : push_diag d st = addDiags [d] st.
Proof. reflexivity. Qed.

Lemma substring_length s a b : length (Js.substring s a b) <= length s.
Proof.
  unfold Js.substring. rewrite length_firstn, length_skipn. lia.
Qed.

Lemma clean_length l : length (clean l) <= length l.
Proof.
  unfold clean. destruct (Js.indexOf l (str "#")); [|lia].
  apply substring_length.
Qed.

Lemma trimStart_length s : length (Js.trimStart s) <= length s.
Proof.
  induction s as [|c s IH]; simpl; [lia|].
  destruct (Js.is_space c); simpl; lia.
Qed.

Lemma trim_length s : length (Js.trim s) <= length s.
Proof.
  unfold Js.trim, Js.trimEnd. rewrite length_rev.
  etransitivity; [apply trimStart_length|]. rewrite length_rev.
  apply trimStart_length.
Qed.

Lemma startsWith_length s p :
  Js.startsWith s p = true -> length p <= length s.
Proof.
  revert p. induction s as [|y s IH]; intros [|x p]; simpl; try lia;
    try discriminate.
  intros H. apply andb_prop in H as [_ H]. apply IH in H. lia.
Qed.

Lemma indexOf_bound s p : forall k,
  Js.indexOf s p = Some k -> k + length p <= length s.
Proof.
  induction s as [|y s IH]; intros k H.
  - change (Js.indexOf [] p)
      with (if Js.startsWith [] p then Some 0 else None) in H.
    destruct (Js.startsWith [] p) eqn:E; [|discriminate].
    injection H as <-. apply startsWith_length in E. simpl in *. lia.
  - change (Js.indexOf (y :: s) p)
      with (if Js.startsWith (y :: s) p then Some 0
            else option_map S (Js.indexOf s p)) in H.
    destruct (Js.startsWith (y :: s) p) eqn:E.
    + injection H as <-. apply startsWith_length in E. lia.
    + destruct (Js.indexOf s p) as [k'|]; [|discriminate].
      injection H as <-. specialize (IH k' eq_refl). simpl. lia.
Qed.

Lemma lastIndexOf_bound s p : forall k,
  Js.lastIndexOf s p = Some k -> k + length p <= length s.
Proof.
  induction s as [|y s IH]; intros k H.
  - change (Js.lastIndexOf [] p)
      with (if Js.startsWith [] p then Some 0 else None) in H.
    destruct (Js.startsWith [] p) eqn:E; [|discriminate].
    injection H as <-. apply startsWith_length in E. simpl in *. lia.
  - change (Js.lastIndexOf (y :: s) p)
      with (match Js.lastIndexOf s p with
            | Some i => Some (S i)
            | None => if Js.startsWith (y :: s) p then Some 0 else None
            end) in H.
    destruct (Js.lastIndexOf s p) as [k'|].
    + injection H as <-. specialize (IH k' eq_refl). simpl. lia.
    + destruct (Js.startsWith (y :: s) p) eqn:E; [|discriminate].
      injection H as <-. apply startsWith_length in E. lia.
Qed.

(** The column of the last closing brace, plus one, stays inside a line
    that is not empty. *)
Lemma brace_column_bound cl :
  0 < length cl -> column (Js.lastIndexOf cl (str "}")) + 1 <= length cl.
Proof.
  intros Hne. destruct (Js.lastIndexOf cl (str "}")) as [k|] eqn:E; simpl.
  - apply lastIndexOf_bound in E. simpl in E. lia.
  - lia.
Qed.

(** The span of the trimmed line stays inside the line. *)
Lemma trimmed_span_bound cl :
  column (Js.indexOf cl (Js.trim cl)) + length (Js.trim cl) <= length cl.
Proof.
  destruct (Js.indexOf cl (Js.trim cl)) as [k|] eqn:E; simpl.
  - now apply indexOf_bound in E.
  - apply trim_length.
Qed.

Lemma braceChecks_adds later i cl tr w st :
  0 < length cl -> length cl <= w ->
  exists extra,
    braceChecks later i cl tr st = addDiags extra st
    /\ Forall (onLine i w) extra
    /\ (nextContent later = [] ->
        filter isMissingAfterBrace extra = []).
Proof.
  intros Hne Hw. pose proof (brace_column_bound cl Hne) as Hb.
  change (str "}") with ["}"%char] in Hb.
  unfold braceChecks.
  set (st1 := match exec inlineRe cl with Some _ => _ | None => _ end).
  assert (H1 : exists e1, st1 = addDiags e1 st /\ Forall (onLine i w) e1
                          /\ filter isMissingAfterBrace e1 = []).
  { subst st1. destruct (exec inlineRe cl) as [m|];
      [destruct (group 1 m) as [word|];
       [destruct (negb (Js.includesText continuationKeywords word))|]|];
      first [ exists []; rewrite addDiags_nil; repeat split; constructor
            | eexists [_]; rewrite push_diag_add; repeat split;
              repeat constructor; simpl; lia ]. }
  destruct H1 as (e1 & -> & Hf & Hm).
  destruct (Js.endsWith tr (str "}")); [|exists e1; now repeat split].
  destruct (nextContent later) as [|n0 nl] eqn:En;
    [exists e1; now repeat split|].
  destruct (negb (test nextLineRe (n0 :: nl)));
    [|exists e1; repeat split; auto; discriminate].
  eexists (e1 ++ [_]). rewrite push_diag_add, addDiags_app.
  repeat split; [|discriminate].
  apply Forall_app. split; [exact Hf|].
  repeat constructor; simpl; lia.
Qed.

Lemma statementChecks_adds i cl tr a b w st :
  a < b -> b <= w ->
  exists extra,
    statementChecks i cl tr a b st = addDiags extra st
    /\ Forall (onLine i w) extra /\ length extra <= 1.
Proof.
  intros Hab Hbw. unfold statementChecks.
  destruct (test keywordRe tr || Js.startsWith tr (str "}"));
    [exists []; rewrite addDiags_nil; repeat split; auto; constructor|].
  destruct (test identCharRe tr);
    [|exists []; rewrite addDiags_nil; repeat split; auto; constructor].
  destruct (Js.includes cl (str "=")); simpl.
  - match goal with
    | |- context [if negb ?b then _ else _] => destruct b
    end; simpl.
    + exists []. rewrite addDiags_nil. repeat split; auto; constructor.
    + eexists [_]. rewrite push_diag_add. repeat split; auto.
      repeat constructor; simpl; auto.
  - repeat match goal with
           | |- context [negb ?b] => destruct b; simpl
           end;
      first [ exists []; rewrite addDiags_nil; repeat split; auto; constructor
            | eexists [_]; rewrite push_diag_add; repeat split; auto;
              repeat constructor; simpl; auto ].
Qed.

Lemma placed_extra lines i l w extra :
  nth_error lines i = Some l -> w <= length l ->
  Forall (onLine i w) extra -> Forall (placed lines) extra.
Proof.
  intros Hi Hw H. eapply Forall_impl; [|exact H].
  intros d (H1 & H2 & H3 & H4). exists i, l. repeat split; auto. lia.
Qed.

Lemma addDiags_placed lines extra st :
  Forall (placed lines) extra -> placedState lines st ->
  placedState lines (addDiags extra st).
Proof.
  intros He (Hd & Hs). split; [|exact Hs].
  simpl. apply Forall_app. now split.
Qed.

Lemma scan_char_placed lines i l j c st :
  nth_error lines i = Some l -> j < length l ->
  placedState lines st -> placedState lines (scan_char i j c st).
Proof.
  intros Hi Hj (Hd & Hs). unfold scan_char.
  destruct (is_open c).
  - split; [exact Hd|]. simpl. constructor; [|exact Hs]. now exists l.
  - destruct (is_close c); [|now split].
    assert (Htl : Forall (entryPlaced lines) (tl (stack st)))
      by (destruct (stack st); [constructor|now inversion Hs]).
    assert (Hu : placed lines (unexpected i j c))
      by (exists i, l; repeat split; simpl; auto; lia).
    destruct (hd_error (stack st)) as [e|]; destruct (pairs c) as [o|];
      try destruct (Ascii.eqb (e_char e) o);
      first [ now split
            | split; [simpl; apply Forall_app; split;
                      [exact Hd|now constructor]|exact Htl] ].
Qed.

Lemma scan_chars_placed lines i l cs : forall j st,
  nth_error lines i = Some l -> j + length cs <= length l ->
  placedState lines st -> placedState lines (scan_chars i j cs st).
Proof.
  induction cs as [|c cs IH]; intros j st Hi Hj H; simpl; [exact H|].
  simpl in Hj. apply IH; [exact Hi|lia|].
  apply (@scan_char_placed lines i l j c st Hi); [lia|exact H].
Qed.

Lemma setFlags_placed lines ml ab d st :
  placedState lines st -> placedState lines (setFlags ml ab d st).
Proof. now intros (Hd & Hs). Qed.

Lemma scan_line_placed lines later i line st :
  nth_error lines i = Some line ->
  placedState lines st -> placedState lines (scan_line later i line st).
Proof.
  intros Hi H. unfold scan_line.
  pose proof (clean_length line) as Hcl.
  pose proof (trimmed_span_bound (clean line)) as Hspan.
  pose proof (trim_length (clean line)) as Htl.
  destruct (Js.trim (clean line)) as [|t0 tr] eqn:Etr; [exact H|].
  cbv zeta.
  match goal with
  | |- context [scan_chars i 0 (clean line) ?s0] =>
      assert (H1 : placedState lines (scan_chars i 0 (clean line) s0))
        by (apply (@scan_chars_placed lines i line (clean line) 0 _ Hi);
            [simpl; lia|now apply setFlags_placed]);
      remember (scan_chars i 0 (clean line) s0) as st1 eqn:E1
  end.
  clear E1.
  match goal with
  | |- context [if test actionRe ?t || test bangLineRe ?t then ?a else ?b] =>
      assert (H2 : placedState lines
                     (if test actionRe t || test bangLineRe t then a else b))
        by (destruct (test actionRe t || test bangLineRe t);
            [now apply setFlags_placed|exact H1]);
      remember (if test actionRe t || test bangLineRe t then a else b)
        as st2 eqn:E2
  end.
  clear E2.
  match goal with
  | |- context [if insideActionBlock st2 && ?c then ?a else ?b] =>
      assert (H3 : placedState lines
                     (if insideActionBlock st2 && c then a else b))
        by (destruct (insideActionBlock st2 && c);
            [now apply setFlags_placed|exact H2]);
      remember (if insideActionBlock st2 && c then a else b) as st3 eqn:E3
  end.
  clear E3. simpl length in *.
  destruct (negb (skipHeuristics st (clean line))).
  - destruct (@braceChecks_adds later i (clean line) (t0 :: tr)
                (length line) st3) as (e1 & -> & Hf & _); [lia|lia|].
    assert (H4 : placedState lines (addDiags e1 st3))
      by (apply addDiags_placed;
          [now apply (@placed_extra lines i line (length line) e1 Hi
                        (Nat.le_refl _))|exact H3]).
    rewrite andb_true_r.
    destruct (arrayDepth (addDiags e1 st3) =? 0); [|exact H4].
    match goal with
    | |- context [statementChecks ?i ?c ?t ?a ?b ?s] =>
        destruct (@statementChecks_adds i c t a b (length line) s)
          as (e2 & -> & Hf2 & _); [simpl; lia|simpl; lia|]
    end.
    apply addDiags_placed;
      [now apply (@placed_extra lines i line (length line) e2 Hi
                    (Nat.le_refl _))|exact H4].
  - rewrite andb_false_r. exact H3.
Qed.

Lemma scan_lines_placed all lines : forall i st,
  (forall k l, nth_error lines k = Some l -> nth_error all (i + k) = Some l) ->
  placedState all st -> placedState all (scan_lines i lines st).
Proof.
  induction lines as [|l later IH]; intros i st Hn H; simpl; [exact H|].
  apply IH.
  - intros k l' Hk. replace (S i + k) with (i + S k) by lia. now apply Hn.
  - apply scan_line_placed; [|exact H].
    rewrite <- (Nat.add_0_r i). now apply Hn.
Qed.

End PlacementFacts.

(** X1.  Every diagnostic of the scanner covers a non-empty stretch of a
    single line of the document and ends inside the text of that line. *)
Theorem scanner_diagnostics_placed (doc : text) (d : diagnostic) :
  In d (Heuristics.runStaticHeuristics doc) ->
  exists line,
    nth_error (Js.split newline doc) (start_line (d_range d)) = Some line
    /\ end_line (d_range d) = start_line (d_range d)
    /\ start_col (d_range d) < end_col (d_range d)
    /\ end_col (d_range d) <= length line.
Proof.
  intros Hin. unfold Heuristics.runStaticHeuristics, Heuristics.drain in Hin.
  assert (H : placedState (Js.split newline doc) (Heuristics.finalState doc)).
  { unfold Heuristics.finalState.
    apply PlacementFacts.scan_lines_placed; [now intros k l|].
    split; constructor. }
  destruct H as (Hd & Hs).
  assert (Hp : placed (Js.split newline doc) d).
  { apply in_app_or in Hin as [Hin|Hin].
    - rewrite Forall_forall in Hd. now apply Hd.
    - apply in_map_iff in Hin as (e & <- & He).
      rewrite Forall_forall in Hs. destruct (Hs e He) as (l & Hl & Hc).
      exists (Heuristics.e_line e), l. repeat split; simpl; auto; lia. }
  destruct Hp as (i & l & Hl & H1 & H2 & H3 & H4).
  exists l. rewrite H1. repeat split; auto.
Qed.

Lemma scanner_diagnostics_placed_witness :
  let doc := str "a = {" ++ [newline] ++ str "  b = 1 )" in
  let d := Heuristics.unexpected 1 8 ")" in
  In d (Heuristics.runStaticHeuristics doc)
  /\ exists line,
       nth_error (Js.split newline doc) 1 = Some line /\ 9 <= length line.
Proof.
  intros doc d.
  assert (Hin : In d (Heuristics.runStaticHeuristics doc))
    by (vm_compute; auto).
  split; [exact Hin|].
  destruct (scanner_diagnostics_placed doc d Hin) as (l & Hl & _ & _ & Hb).
  exists l. split; [exact Hl|exact Hb].
Defined.

(** ** The scanner: what it reads of a document *)

Module ReadingFacts.
Import Heuristics.

Lemma split_nonempty sep s : Js.split sep s <> [].
Proof.
  destruct s as [|c s]; simpl; [discriminate|].
  destruct (Ascii.eqb c sep); [discriminate|].
  now destruct (Js.split sep s).
Qed.

Lemma clean_cons c l :
  clean (c :: l) = if Ascii.eqb "#" c then [] else c :: clean l.
Proof.
  unfold clean.
  change (Js.indexOf (c :: l) (str "#"))
    with (if Ascii.eqb "#" c && Js.startsWith l []
          then Some 0 else option_map S (Js.indexOf l (str "#"))).
  assert (Hs : Js.startsWith l [] = true) by now destruct l.
  rewrite Hs, andb_true_r.
  destruct (Ascii.eqb "#" c); [reflexivity|].
  destruct (Js.indexOf l (str "#")) as [idx|]; [|reflexivity].
  simpl option_map. cbv iota. unfold Js.substring.
  cbn [Nat.min Nat.max length skipn Nat.sub firstn].
  now rewrite Nat.sub_0_r.
Qed.

(** The text before the first [#], as the look-ahead computes it, is the
    comment-stripped line. *)
Lemma hd_split_clean l : hd [] (Js.split "#" l) = clean l.
Proof.
  induction l as [|c l IH]; [reflexivity|].
  rewrite clean_cons. simpl Js.split. rewrite (Ascii.eqb_sym c "#").
  destruct (Ascii.eqb "#" c); [reflexivity|].
  pose proof (split_nonempty "#" l) as Hne.
  destruct (Js.split "#" l) as [|h t]; [contradiction|].
  simpl in *. now rewrite IH.
Qed.

Lemma nextContent_clean later : forall later',
  map clean later = map clean later' -> nextContent later = nextContent later'.
Proof.
  induction later as [|l later IH]; intros [|l' later'] H; try discriminate;
    [reflexivity|].
  simpl in H. injection H as Hl Hrest. simpl.
  rewrite !hd_split_clean, Hl, (IH _ Hrest). reflexivity.
Qed.

(** A line is read through its comment-stripped text, and the lines after
    it through their first content. *)
Lemma scan_line_reads later later' i line line' st :
  clean line = clean line' -> nextContent later = nextContent later' ->
  scan_line later i line st = scan_line later' i line' st.
Proof.
  intros Hl Hn. unfold scan_line, braceChecks. now rewrite Hl, Hn.
Qed.

Lemma scan_lines_reads lines : forall lines' i st,
  map clean lines = map clean lines' ->
  scan_lines i lines st = scan_lines i lines' st.
Proof.
  induction lines as [|l later IH]; intros [|l' later'] i st H;
    try discriminate; [reflexivity|].
  simpl in H. injection H as Hl Hrest. simpl.
  rewrite (@scan_line_reads later later' i l l' st Hl
             (nextContent_clean _ _ Hrest)).
  now apply IH.
Qed.

Lemma split_final_newline s :
  Js.split newline (s ++ [newline]) = Js.split newline s ++ [[]].
Proof.
  induction s as [|c s IH]; [reflexivity|].
  simpl. destruct (Ascii.eqb c newline); [now rewrite IH|].
  rewrite IH. pose proof (split_nonempty newline s) as Hne.
  now destruct (Js.split newline s).
Qed.

Lemma nextContent_blank_tail later :
  nextContent (later ++ [[]]) = nextContent later.
Proof.
  induction later as [|l later IH]; [reflexivity|].
  simpl. now rewrite IH.
Qed.

Lemma scan_lines_blank_tail lines : forall i st,
  scan_lines i (lines ++ [[]]) st = scan_lines i lines st.
Proof.
  induction lines as [|l later IH]; intros i st; [reflexivity|].
  simpl. rewrite IH. f_equal.
  apply scan_line_reads; [reflexivity|apply nextContent_blank_tail].
Qed.

Lemma setFlags_stack ml ab d st : stack (setFlags ml ab d st) = stack st.
Proof. reflexivity. Qed.

(** After a line that is not blank the action-block flag agrees with the
    stack, whatever held before. *)
Lemma scan_line_action later i line st :
  actionConsistent st -> actionConsistent (scan_line later i line st).
Proof.
  intros H. unfold scan_line.
  destruct (Js.trim (clean line)) as [|t0 tr] eqn:Etr; [exact H|].
  cbv zeta.
  match goal with
  | |- context [scan_chars i 0 (clean line) ?s0] =>
      remember (scan_chars i 0 (clean line) s0) as st1 eqn:E1
  end.
  clear E1.
  match goal with
  | |- context [if test actionRe ?t || test bangLineRe ?t then ?a else ?b] =>
      remember (if test actionRe t || test bangLineRe t then a else b)
        as st2 eqn:E2
  end.
  clear E2.
  match goal with
  | |- context [if insideActionBlock st2 && ?c then ?a else ?b] =>
      assert (H3 : actionConsistent (if insideActionBlock st2 && c
                                     then a else b));
      [|remember (if insideActionBlock st2 && c then a else b) as st3 eqn:E3]
  end.
  { unfold actionConsistent.
    destruct (insideActionBlock st2) eqn:Ein; simpl.
    - destruct (length (stack st2) <? actionBlockDepth st2) eqn:El; simpl.
      + discriminate.
      + intros _. apply Nat.ltb_ge in El. exact El.
    - now rewrite Ein. }
  clear E3.
  assert (Hadd : forall e s, actionConsistent s ->
                             actionConsistent (addDiags e s))
    by (intros e s Hs; exact Hs).
  destruct (negb (skipHeuristics st (clean line))).
  - destruct (@PlacementFacts.braceChecks_adds later i (clean line) (t0 :: tr)
                (length (clean line)) st3) as (e1 & -> & _).
    + pose proof (PlacementFacts.trim_length (clean line)) as Hl.
      rewrite Etr in Hl. simpl in Hl. lia.
    + lia.
    + rewrite andb_true_r.
      destruct (arrayDepth (addDiags e1 st3) =? 0); [|now apply Hadd].
      match goal with
      | |- context [statementChecks ?i ?c ?t ?a ?b ?s] =>
          destruct (@PlacementFacts.statementChecks_adds i c t a b b s)
            as (e2 & -> & _); [simpl; lia|lia|]
      end.
      now apply Hadd, Hadd.
  - rewrite andb_false_r. exact H3.
Qed.

Lemma stateBefore_action n : forall i lines st,
  actionConsistent st -> actionConsistent (stateBefore n i lines st).
Proof.
  induction n as [|n IH]; intros i [|l later] st H; simpl; try exact H.
  apply IH. now apply scan_line_action.
Qed.

End ReadingFacts.

(** X2.  Comments never matter to the scanner: two documents with the same
    comment-stripped lines get the same diagnostics. *)
Theorem comments_ignored (doc doc' : text) :
  map Heuristics.clean (Js.split newline doc)
  = map Heuristics.clean (Js.split newline doc') ->
  Heuristics.runStaticHeuristics doc = Heuristics.runStaticHeuristics doc'.
Proof.
  intros H. unfold Heuristics.runStaticHeuristics, Heuristics.finalState.
  now rewrite (ReadingFacts.scan_lines_reads _ _ 0 Heuristics.init H).
Qed.

Lemma comments_ignored_witness :
  let doc := str "a = { # opens (" ++ [newline] ++ str "} #" in
  let doc' := str "a = { # ]] other" ++ [newline] ++ str "} # done" in
  Heuristics.runStaticHeuristics doc = Heuristics.runStaticHeuristics doc'.
Proof.
  intros doc doc'. apply (comments_ignored doc doc'). reflexivity.
Defined.

(** X3.  A final line break changes nothing: the document with a newline
    appended gets the diagnostics of the document itself. *)
Theorem final_newline_irrelevant (doc : text) :
  Heuristics.runStaticHeuristics (doc ++ [newline])
  = Heuristics.runStaticHeuristics doc.
Proof.
  unfold Heuristics.runStaticHeuristics, Heuristics.finalState.
  now rewrite ReadingFacts.split_final_newline,
    ReadingFacts.scan_lines_blank_tail.
Qed.

(** X4.  Whenever the scanner is inside an action block at the start of a
    line, or at the end of the document, its bracket stack is at least as
    deep as when the block was entered. *)
Theorem action_block_depth_kept (doc : text) (n : nat) :
  Heuristics.insideActionBlock (stateAt doc n) = true ->
  Heuristics.actionBlockDepth (stateAt doc n)
  <= length (Heuristics.stack (stateAt doc n)).
Proof.
  apply (ReadingFacts.stateBefore_action n 0 (Js.split newline doc)).
  intros H. discriminate H.
Qed.

Lemma action_block_depth_kept_witness :
  let doc := str "_action = {" ++ [newline] ++ str "  run (x)" ++ [newline]
             ++ str "};" in
  Heuristics.insideActionBlock (stateAt doc 2) = true
  /\ Heuristics.actionBlockDepth (stateAt doc 2) = 1
  /\ 1 <= length (Heuristics.stack (stateAt doc 2))
  /\ Heuristics.insideActionBlock (stateAt doc 3) = false.
Proof.
  intros doc.
  assert (H : Heuristics.insideActionBlock (stateAt doc 2) = true)
    by reflexivity.
  split; [exact H|]. split; [reflexivity|]. split; [|reflexivity].
  exact (action_block_depth_kept doc 2 H).
Defined.

(** ** The scanner: the other statement checks *)

Module StatementFacts.
Import Heuristics.

Lemma statementChecks_missingAssign i cl tr a b st :
  test keywordRe tr = false ->
  Js.startsWith tr (str "}") = false ->
  test identCharRe tr = true ->
  Js.includes cl (str "=") = false ->
  Js.endsWith tr (str "{") = false ->
  Js.endsWith tr (str "''") = false ->
  diagnostics (statementChecks i cl tr a b st)
  = diagnostics st ++ [missingAssign i a b].
Proof.
  intros Hk Hb Hid Heq H1 H2. unfold statementChecks.
  rewrite Hk, Hb, Hid, Heq, H1, H2. reflexivity.
Qed.

Lemma braceChecks_lookahead later i cl tr st n0 nl idx :
  Js.endsWith tr (str "}") = true ->
  nextContent later = n0 :: nl ->
  test nextLineRe (n0 :: nl) = false ->
  Js.lastIndexOf cl (str "}") = Some idx ->
  In (missingSemiAfterBrace i idx) (diagnostics (braceChecks later i cl tr st)).
Proof.
  intros He Hn Ht Hi. unfold braceChecks. rewrite He, Hn, Ht, Hi. simpl.
  apply in_or_app. right. now left.
Qed.

(** The statement checks of one line, entered with [skipHeuristics] off. *)
Lemma scan_line_checked later i line st t0 tr :
  Js.trim (clean line) = t0 :: tr ->
  skipHeuristics st (clean line) = false ->
  exists st3,
    arrayDepth st3 = arrayDepth (scan_chars i 0 (clean line) (core st))
    /\ scan_line later i line st
       = let st4 := braceChecks later i (clean line) (t0 :: tr) st3 in
         if arrayDepth st4 =? 0
         then statementChecks i (clean line) (t0 :: tr)
                (Nat.max 0 (column (Js.indexOf (clean line) (t0 :: tr))))
                (Nat.max 0 (column (Js.indexOf (clean line) (t0 :: tr)))
                 + length (t0 :: tr)) st4
         else st4.
Proof.
  intros Etr Hskip. unfold scan_line. rewrite Etr. cbv zeta.
  rewrite Hskip. simpl negb. rewrite !andb_true_r.
  match goal with
  | |- context [braceChecks later i (clean line) (t0 :: tr) ?s] =>
      exists s
  end.
  split; [|reflexivity].
  match goal with
  | |- context [scan_chars i 0 (clean line) ?s0] =>
      destruct (BracketFacts.scan_chars_core i 0 (clean line) s0)
        as (_ & Hd & _);
      change (core s0) with (core st) in Hd;
      remember (scan_chars i 0 (clean line) s0) as st1 eqn:E1
  end.
  rewrite <- Hd. clear E1 Hd.
  destruct (test actionRe (t0 :: tr) || test bangLineRe (t0 :: tr));
    simpl; repeat match goal with
                  | |- context [if ?b then _ else _] => destruct b; simpl
                  end; reflexivity.
Qed.

End StatementFacts.

(** X5.  When the scanner reaches a line outside raw strings and action
    blocks, at array depth zero once the line's brackets are counted, that
    does not start with an exempt keyword or a closing brace, holds an
    identifier character, holds no [=] and ends neither in an opening brace
    nor in the raw-string delimiter, it reports a missing assignment over the
    trimmed line. *)
Theorem missing_assignment_reported (doc : text) (n : nat) (line : text) :
  let st := stateAt doc n in
  let cl := Heuristics.clean line in
  let tr := Js.trim cl in
  let startIdx := Heuristics.column (Js.indexOf cl tr) in
  nth_error (Js.split newline doc) n = Some line ->
  Heuristics.skipHeuristics st cl = false ->
  Heuristics.arrayDepth (Heuristics.scan_chars n 0 cl (core st)) = 0 ->
  test Heuristics.keywordRe tr = false ->
  Js.startsWith tr (str "}") = false ->
  test Heuristics.identCharRe tr = true ->
  Js.includes cl (str "=") = false ->
  Js.endsWith tr (str "{") = false ->
  Js.endsWith tr (str "''") = false ->
  In (Heuristics.missingAssign n startIdx (startIdx + length tr))
    (Heuristics.runStaticHeuristics doc).
Proof.
  intros st cl tr startIdx Hn Hskip Hdepth Hk Hb Hid Heq H1 H2.
  apply (@LineFacts.line_diagnostic_kept doc n line _ Hn).
  subst startIdx tr cl st.
  destruct (Js.trim (Heuristics.clean line)) as [|t0 tr] eqn:Etr;
    [discriminate Hid|].
  destruct (@StatementFacts.scan_line_checked
              (skipn (S n) (Js.split newline doc)) n line (stateAt doc n)
              t0 tr Etr Hskip)
    as (st3 & Hd3 & ->).
  cbv zeta.
  destruct (ScannerFacts.braceChecks_spec
              (skipn (S n) (Js.split newline doc)) n (Heuristics.clean line)
              (t0 :: tr) st3)
    as (e1 & _ & Hd4 & _).
  rewrite Hd4, Hd3, Hdepth. simpl Nat.eqb. cbv iota.
  rewrite (@StatementFacts.statementChecks_missingAssign n
             (Heuristics.clean line) (t0 :: tr) _ _ _ Hk Hb Hid Heq H1 H2).
  apply in_or_app. right. left. reflexivity.
Qed.

Lemma missing_assignment_reported_witness :
  let doc := str "foo = 1;" ++ [newline] ++ str "  bar baz" in
  In (Heuristics.missingAssign 1 2 9) (Heuristics.runStaticHeuristics doc).
Proof.
  intros doc.
  refine (@missing_assignment_reported doc 1 (str "  bar baz")
            _ _ _ _ _ _ _ _ _); reflexivity.
Defined.

(** X6.  When the scanner reaches, outside raw strings and action blocks,
    a line whose trimmed text ends in a closing brace, and the next line
    with content (after its comment is cut off) starts neither with [;],
    [\]], [)], [}] nor with [in], [then] or [else], it reports a missing
    terminator anchored at the line's last closing brace. *)
Theorem brace_lookahead_reported (doc : text) (n : nat) (line : text)
    (n0 : ascii) (nl : text) (idx : nat) :
  let cl := Heuristics.clean line in
  nth_error (Js.split newline doc) n = Some line ->
  Heuristics.skipHeuristics (stateAt doc n) cl = false ->
  Js.endsWith (Js.trim cl) (str "}") = true ->
  Heuristics.nextContent (skipn (S n) (Js.split newline doc)) = n0 :: nl ->
  test Heuristics.nextLineRe (n0 :: nl) = false ->
  Js.lastIndexOf cl (str "}") = Some idx ->
  In (Heuristics.missingSemiAfterBrace n idx)
    (Heuristics.runStaticHeuristics doc).
Proof.
  intros cl Hn Hskip Hend Hnext Htest Hidx.
  apply (@LineFacts.line_diagnostic_kept doc n line _ Hn).
  subst cl.
  destruct (Js.trim (Heuristics.clean line)) as [|t0 tr] eqn:Etr;
    [discriminate Hend|].
  destruct (@StatementFacts.scan_line_checked
              (skipn (S n) (Js.split newline doc)) n line (stateAt doc n)
              t0 tr Etr Hskip)
    as (st3 & _ & ->).
  cbv zeta.
  pose proof (@StatementFacts.braceChecks_lookahead
                (skipn (S n) (Js.split newline doc)) n (Heuristics.clean line)
                (t0 :: tr) st3 n0 nl idx Hend Hnext Htest Hidx) as Hin.
  remember (Heuristics.braceChecks (skipn (S n) (Js.split newline doc)) n
              (Heuristics.clean line) (t0 :: tr) st3) as st4 eqn:E4.
  destruct (Heuristics.arrayDepth st4 =? 0); [|exact Hin].
  match goal with
  | |- context [Heuristics.statementChecks ?i ?c ?t ?a ?b st4] =>
      destruct (ScannerFacts.statementChecks_spec i c t a b st4)
        as (e2 & _ & _ & Hg5 & _)
  end.
  rewrite Hg5. apply in_or_app. now left.
Qed.

Lemma brace_lookahead_reported_witness :
  let doc := str "a = {" ++ [newline] ++ str "}" ++ [newline]
             ++ str "# note" ++ [newline] ++ str "b = 2;" in
  In (Heuristics.missingSemiAfterBrace 1 0)
    (Heuristics.runStaticHeuristics doc).
Proof.
  intros doc.
  refine (@brace_lookahead_reported doc 1 (str "}") "b" (str " = 2;") 0
            _ _ _ _ _ _); reflexivity.
Defined.

(** ** The typed-declaration checker: further properties *)

Module TypeMore.
Import TypeChecks TypeFacts.

Lemma includes_tail x s p : Js.includes (x :: s) p = false ->
  Js.includes s p = false.
Proof.
  rewrite MaskFacts.includes_cons. intros H.
  now apply orb_false_elim in H as [_ H].
Qed.

Lemma includes_skipn k : forall s p,
  Js.includes s p = false -> Js.includes (skipn k s) p = false.
Proof.
  induction k as [|k IH]; intros s p H; [exact H|].
  destruct s as [|x s]; [exact H|]. simpl. apply IH.
  now apply (includes_tail x).
Qed.

Lemma indexOfFrom_none s from :
  Js.includes s (str ";") = false -> Js.indexOfFrom s (str ";") from = None.
Proof.
  intros H. unfold Js.indexOfFrom.
  destruct (length s <? from); [reflexivity|].
  apply (includes_skipn from) in H. unfold Js.includes in H.
  now destruct (Js.indexOf (skipn from s) (str ";")).
Qed.

Lemma checkValue_short varName varType enumContent valText r :
  length (checkValue varName varType enumContent valText r) <= 1
  /\ Forall (fun d => isTypeError d = true /\ d_range d = r)
       (checkValue varName varType enumContent valText r).
Proof.
  unfold checkValue.
  repeat match goal with
         | |- context [if ?b then _ else _] => destruct b
         end; simpl; split; auto; repeat constructor.
Qed.

Lemma checkMatch_short doc m :
  length (checkMatch doc m) <= 1
  /\ Forall (fun d => isTypeError d = true) (checkMatch doc m).
Proof.
  unfold checkMatch.
  destruct (Js.indexOfFrom doc (str ";") _) as [e|];
    [|split; [simpl; lia|constructor]].
  destruct (Js.trim _) as [|v0 v]; [split; [simpl; lia|constructor]|].
  match goal with
  | |- context [checkValue ?a ?b ?c ?d ?e] =>
      destruct (checkValue_short a b c d e) as (Hl & Hf)
  end.
  split; [exact Hl|]. eapply Forall_impl; [|exact Hf]. now intros d [H _].
Qed.

Section FloatTail.
Variable R : Type.
Variable K : cont R.
Variable T : text -> bool.
Hypothesis K_T : forall p s cs, isSome (K (Cursor p s) cs) = T s.
Hypothesis T_digit : forall x xs, Js.is_digit x = true -> T (x :: xs) = false.

(** A greedy run of digits before a continuation that refuses a digit
    takes every digit there is. *)
Lemma star_digit_then s : forall p cs,
  isSome (run (Star digit) (Cursor p s) cs K) = T (dropDigits s).
Proof.
  induction s as [|x xs IH]; intros p cs.
  - simpl. apply K_T.
  - change (run (Star digit) (Cursor p (x :: xs)) cs K)
      with (match
               (if Js.is_digit x
                then if progress (Cursor p (x :: xs)) (Cursor (Some x) xs)
                     then run (Star digit) (Cursor (Some x) xs) cs K
                     else None
                else None)
             with
             | Some res => Some res
             | None => K (Cursor p (x :: xs)) cs
             end).
    assert (Hp : progress (Cursor p (x :: xs)) (Cursor (Some x) xs) = true)
      by (unfold progress; simpl rest; apply Nat.ltb_lt; simpl; lia).
    rewrite Hp. cbn [dropDigits]. specialize (IH (Some x) cs).
    destruct (Js.is_digit x) eqn:Ed; [|apply K_T].
    destruct (run (Star digit) (Cursor (Some x) xs) cs K); simpl in *;
      [exact IH|].
    rewrite K_T, <- IH. now apply T_digit.
Qed.

Lemma plus_digit_then s p cs :
  isSome (run (Plus digit) (Cursor p s) cs K)
  = match s with
    | x :: xs => Js.is_digit x && T (dropDigits xs)
    | [] => false
    end.
Proof.
  destruct s as [|x xs]; [reflexivity|].
  change (run (Plus digit) (Cursor p (x :: xs)) cs K)
    with (if Js.is_digit x
          then run (Star digit) (Cursor (Some x) xs) cs K
          else None).
  destruct (Js.is_digit x); [|reflexivity].
  apply star_digit_then.
Qed.
End FloatTail.

Lemma fraction_digit x xs : Js.is_digit x = true -> fractionOk (x :: xs) = false.
Proof.
  intros H. unfold fractionOk.
  destruct (Ascii.eqb_spec "."%char x) as [<-|_]; [discriminate H|reflexivity].
Qed.

(** The optional fraction and the end of the text. *)
Lemma fraction_tail (kf : cont rmatch) :
  (forall c cs, isSome (kf c cs) = true) ->
  forall p s cs,
    isSome (run (Cat (Opt (Group 1 (Cat (Lit1 ".") (Plus digit)))) Eol)
              (Cursor p s) cs kf)
    = fractionOk s.
Proof.
  intros Hk p s cs.
  destruct s as [|c fp]; [simpl; apply Hk|].
  set (k1 := fun (c' : cursor) (cs' : caps) =>
               kf c' ((1, firstn (length (rest (Cursor p (c :: fp)))
                                  - length (rest c'))
                            (rest (Cursor p (c :: fp)))) :: cs')).
  assert (Hk1 : forall c' cs', isSome (k1 c' cs') = true)
    by (intros; apply Hk).
  change (run (Cat (Opt (Group 1 (Cat (Lit1 ".") (Plus digit)))) Eol)
            (Cursor p (c :: fp)) cs kf)
    with (match
             (if Ascii.eqb "." c
              then run (Cat (Plus digit) Eol) (Cursor (Some c) fp) cs k1
              else None)
           with
           | Some res => Some res
           | None => None
           end).
  unfold fractionOk.
  destruct (Ascii.eqb "." c); [|reflexivity].
  pose proof (plus_digit_eol k1 Hk1 fp (Some c) cs) as H.
  destruct (run (Cat (Plus digit) Eol) (Cursor (Some c) fp) cs k1);
    simpl isSome in *; rewrite <- H; reflexivity.
Qed.

(** The float pattern accepts exactly the float literals. *)
Lemma floatRe_literal v : test floatRe v = isFloatLiteral v.
Proof.
  rewrite test_isSome. unfold floatRe. cbn [Cats].
  rewrite search_anchored_start. unfold match_here.
  set (kf := fun (c' : cursor) (cs : caps) =>
               Some (RMatch 0
                       (firstn (length (rest (Cursor None v))
                                - length (rest c')) (rest (Cursor None v)))
                       cs c')).
  assert (Hk : forall c cs, isSome (kf c cs) = true) by reflexivity.
  set (K := fun c' cs' =>
              run (Cat (Opt (Group 1 (Cat (Lit1 ".") (Plus digit)))) Eol)
                c' cs' kf).
  assert (HK : forall p s cs, isSome (K (Cursor p s) cs) = fractionOk s)
    by (intros; apply (fraction_tail kf Hk)).
  set (K2 := fun c' cs' => run (Plus digit) c' cs' K).
  assert (HK2 : forall p s cs,
             isSome (K2 (Cursor p s) cs)
             = match s with
               | x :: xs => Js.is_digit x && fractionOk (dropDigits xs)
               | [] => false
               end)
    by (intros; apply (plus_digit_then K fractionOk HK fraction_digit)).
  change (run (Cat (Bol false)
                 (Cat (Opt (Lit1 "-"))
                    (Cat (Plus digit)
                       (Cat (Opt (Group 1 (Cat (Lit1 ".") (Plus digit))))
                          Eol))))
            (Cursor None v) [] kf)
    with (match run (Lit1 "-") (Cursor None v) [] K2 with
          | Some res => Some res
          | None => K2 (Cursor None v) []
          end).
  unfold isFloatLiteral.
  destruct v as [|c t].
  - reflexivity.
  - change (run (Lit1 "-") (Cursor None (c :: t)) [] K2)
      with (if Ascii.eqb "-" c then K2 (Cursor (Some c) t) [] else None).
    rewrite (Ascii.eqb_sym c "-").
    destruct (Ascii.eqb_spec "-"%char c) as [<-|Hne].
    + pose proof (HK2 (Some "-"%char) t []) as H1.
      pose proof (HK2 None ("-"%char :: t) []) as H2.
      destruct (K2 (Cursor (Some "-"%char) t) []); simpl in *;
        [exact H1|].
      rewrite <- H1. exact H2.
    + apply HK2.
Qed.

End TypeMore.

(** X7.  A document without any [;] gets no type diagnostic: a
    declaration whose value is not closed by a terminator is skipped. *)
Theorem unterminated_declarations_skipped (doc : text) :
  Js.includes doc (str ";") = false -> TypeChecks.runTypeChecks doc = [].
Proof.
  intros H. unfold TypeChecks.runTypeChecks.
  induction (matchAll TypeChecks.letRegex doc) as [|m ms IH]; [reflexivity|].
  simpl. rewrite IH. unfold TypeChecks.checkMatch.
  now rewrite (TypeMore.indexOfFrom_none doc _ H).
Qed.

Lemma unterminated_declarations_skipped_witness :
  let doc := str "_let x : int = abc" ++ [newline] ++ str "_let y : boolean = 3" in
  length (matchAll TypeChecks.letRegex doc) = 2
  /\ TypeChecks.runTypeChecks doc = [].
Proof.
  intros doc. split; [reflexivity|].
  apply (unterminated_declarations_skipped doc). reflexivity.
Defined.

(** X8.  A value declared [float] passes exactly when it is an optional
    minus sign, one or more digits and, optionally, a point followed by one
    or more digits; anything else gets the float diagnostic. *)
Theorem float_declaration_checked (varName : text) (enumContent : option text)
    (valText : text) (r : range) :
  TypeChecks.checkValue varName (str "float") enumContent valText r
  = if isFloatLiteral valText then []
    else [TypeChecks.typeError r
            (str "Expected a float for '" ++ varName ++ str "'.")].
Proof.
  unfold TypeChecks.checkValue.
  change (Js.text_eqb (str "float") (str "string")) with false.
  change (Js.text_eqb (str "float") (str "int")) with false.
  change (Js.text_eqb (str "float") (str "integer")) with false.
  change (Js.text_eqb (str "float") (str "float")) with true.
  cbv iota. simpl orb. cbv iota.
  rewrite TypeMore.floatRe_literal. now destruct (isFloatLiteral valText).
Qed.

(** X9.  The checker reports at most one diagnostic per declaration it
    finds, and each is an error whose message starts with [Type Error: ]. *)
Theorem type_diagnostics_bounded (doc : text) :
  length (TypeChecks.runTypeChecks doc)
  <= length (matchAll TypeChecks.letRegex doc)
  /\ Forall (fun d => isTypeError d = true) (TypeChecks.runTypeChecks doc).
Proof.
  unfold TypeChecks.runTypeChecks.
  induction (matchAll TypeChecks.letRegex doc) as [|m ms (IHl & IHf)];
    [split; [simpl; lia|constructor]|].
  destruct (TypeMore.checkMatch_short doc m) as (Hl & Hf).
  simpl. rewrite length_app. split; [lia|]. apply Forall_app. now split.
Qed.

(** ** The parser's verdict and the parser's input: further properties *)

Module CompilerMore.
Import Compiler RegexFacts.







(** A run of one character class holds only characters of the class. *)
Lemma star_class p c cs c' cs' :
  matches (Star (Chr p)) c cs c' cs' ->
  exists t, rest c = t ++ rest c' /\ forallb p t = true.
Proof.
  intros M. remember (Star (Chr p)) as r eqn:Er.
  induction M as [| | | | | |r c cs c1 cs1 c2 cs2 M1 _ Hp M2 IH2| | | | | |];
    try discriminate; injection Er as ->.
  - now exists [].
  - destruct (IH2 eq_refl) as (t & Ht & Hf).
    inversion M1; subst. simpl in *. exists (x :: t). rewrite Ht. split;
      [reflexivity|]. simpl. now rewrite Hf, andb_true_r.
Qed.

(** What the sigil pattern matches holds no line break. *)
Lemma var_no_break m :
  found varRe m -> existsb (Ascii.eqb newline) (m_text m) = false.
Proof.
  intros (c & cs' & M & _ & E).
  unfold varRe, Plus, Lit1 in M.
  inversion M as [| |r1 r2 c0 cs0 c1 cs1 c2 cs2 M1 M2| | | | | | | | | |];
    subst; clear M.
  inversion M1 as [|p0 pv0 x xs cs0 Hx| | | | | | | | | | |]; subst; clear M1.
  inversion M2 as [| |r1 r2 c0 cs0 c3 cs3 c4 cs4 M3 M4| | | | | | | | | |];
    subst; clear M2.
  inversion M3 as [|p1 pv1 y ys cs0 Hy| | | | | | | | | | |]; subst; clear M3.
  destruct (star_class M4) as (t & Ht & Hf). simpl in *.
  assert (Em : m_text m = x :: y :: t).
  { apply (app_inv_tail (rest (m_after m))). rewrite <- E, Ht. reflexivity. }
  rewrite Em. change (Ascii.eqb "$" x = true) in Hx.
  apply Ascii.eqb_eq in Hx. subst x.
  assert (Hcls : forall z,
             (Js.is_ident z || Ascii.eqb z ".")%bool = true ->
             Ascii.eqb newline z = false).
  { intros z Hz. destruct (Ascii.eqb_spec newline z) as [<-|_];
      [discriminate Hz|reflexivity]. }
  change (existsb (Ascii.eqb newline) ("$"%char :: y :: t))
    with (Ascii.eqb newline "$" || (Ascii.eqb newline y
          || existsb (Ascii.eqb newline) t)).
  rewrite (Hcls y Hy).
  change (Ascii.eqb newline "$") with false. cbn [orb].
  clear - Hf Hcls. induction t as [|z t IH]; [reflexivity|].
  change (existsb (Ascii.eqb newline) (z :: t))
    with (Ascii.eqb newline z || existsb (Ascii.eqb newline) t).
  cbn [forallb] in Hf. apply andb_prop in Hf as [Hz Hf].
  now rewrite (Hcls z Hz), IH.
Qed.

Lemma singleLine_var s : singleLine varRe s = true.
Proof.
  unfold singleLine. apply forallb_forall. intros m Hin.
  apply hit_matchAll, pieces_found, var_no_break in Hin. now rewrite Hin.
Qed.

(** A shorthand marker with blanks before its brace is masked character
    for character: fillers, then the brace. *)
Lemma bang_kept m :
  found bangRe m -> tightBang m = 0 ->
  Forall2 keptOrFilled (m_text m) (maskBang m).
Proof.
  intros Hf Ht. rewrite (MaskFacts.bang_text Hf).
  unfold tightBang in Ht. unfold maskBang.
  destruct (0 <? length (TypeChecks.capOr 1 m)) eqn:E; [|discriminate].
  apply Nat.ltb_lt in E.
  change (str "_=" ++ Js.repeat " " (length (TypeChecks.capOr 1 m) - 1)
          ++ str "{")
    with (("_"%char :: "="%char
           :: Js.repeat " " (length (TypeChecks.capOr 1 m) - 1))
          ++ ["{"%char]).
  change ("!"%char :: TypeChecks.capOr 1 m ++ ["{"%char])
    with (("!"%char :: TypeChecks.capOr 1 m) ++ ["{"%char]).
  apply Forall2_app; [|constructor; [now left|constructor]].
  apply MaskFacts.fill_related.
  - simpl. unfold Js.repeat. rewrite repeat_length. lia.
  - simpl. apply MaskFacts.repeat_filler.
Qed.

End CompilerMore.

(** X10.  Whatever the parser says, the [close] handler keeps every
    diagnostic it was given, in order, and adds at most one. *)
Theorem close_keeps_existing (doc : text) (existing : list diagnostic)
    (isWrapped : bool) (code : option nat) (stderr : text) :
  exists extra,
    Compiler.onClose doc existing isWrapped code stderr = existing ++ extra
    /\ length extra <= 1.
Proof.
  assert (Hnone : exists extra : list diagnostic,
             existing = existing ++ extra /\ length extra <= 1).
  { exists []. rewrite app_nil_r. split; [reflexivity|simpl; lia]. }
  unfold Compiler.onClose.
  destruct (_ && _); [|exact Hnone].
  destruct (exec Compiler.errRe stderr) as [m|]; [|exact Hnone].
  destruct (group 2 m) as [[|x2 t2]|]; try exact Hnone.
  destruct (group 3 m) as [[|x3 t3]|]; try exact Hnone.
  eexists [_]. split; [reflexivity|simpl; lia].
Qed.





(** X13.  Wrapping happens at most once: the text the wrap returns is
    always a top-level form, so wrapping it again leaves it as it is. *)
Theorem wrap_idempotent (masked : text) :
  Compiler.wrap (fst (Compiler.wrap masked))
  = (fst (Compiler.wrap masked), false).
Proof.
  assert (Htop : forall s, test Compiler.topLevelRe s = true ->
                           Compiler.wrap s = (s, false)).
  { intros s H. unfold Compiler.wrap. now rewrite H. }
  apply Htop. unfold Compiler.wrap.
  destruct (test Compiler.topLevelRe masked) eqn:Et; cbn [negb fst];
    [exact Et|].
  apply RegexFacts.test_occurs.
  exists [], (str "{" ++ [newline] ++ masked ++ [newline] ++ str "}").
  do 2 eexists. split; [reflexivity|].
  unfold Compiler.topLevelRe. cbn [Cats Alts].
  eapply M_Cat; [now apply M_Bol|].
  eapply M_Cat; [apply M_Star0|].
  apply M_Group. apply M_AltL.
  eapply M_Cat; [now apply M_Chr|]. apply M_AltR. apply M_Eps.
Qed.

(** X14.  Masking the sigil variables never changes the length of any
    line, whatever the text. *)
Theorem variable_pass_keeps_lines (s : text) :
  map (@length ascii)
    (Js.split newline (replaceAll Compiler.varRe Compiler.maskVar s))
  = map (@length ascii) (Js.split newline s).
Proof.
  apply MaskFacts.pass_layout.
  - apply CompilerMore.singleLine_var.
  - intros m _ Hf. now apply MaskFacts.var_length.
  - apply MaskFacts.maskVar_no_break.
Qed.

(** X15.  In a text that nowhere holds [!{], the parser masking moves
    nothing: every character of the masked text is the character of the
    input at the same offset, or one of the fillers [_], blank, [=], [v]
    and [n]. *)
Theorem mask_keeps_offsets (doc : text) :
  Js.includes doc (str "!{") = false ->
  Forall2 keptOrFilled doc (Compiler.mask doc).
Proof.
  intros Hno. pose proof (MaskFacts.no_tight_bang doc Hno) as Ht.
  eapply MaskFacts.kept_trans; [apply MaskFacts.pass3_kept|].
  unfold Compiler.mask.
  apply RegexFacts.replaceAll_related; [now left|].
  intros m Hin Hf. apply (CompilerMore.bang_kept Hf).
  unfold tightBangs in Ht.
  exact (MaskFacts.list_sum_zero tightBang _ m Ht Hin).
Qed.

Lemma mask_keeps_offsets_witness :
  let doc := str "x = $v.a; ! { (zmdl t) }" in
  Compiler.mask doc = str "x = v   ; _={ n        }"
  /\ Forall2 keptOrFilled doc (Compiler.mask doc).
Proof.
  intros doc. split; [reflexivity|].
  apply (mask_keeps_offsets doc). reflexivity.
Defined.

(** X16.  A text in which none of the four patterns of the parser masking
    finds anything is handed over as it is. *)
Theorem mask_plain_text (doc : text) :
  test Compiler.letRegex doc = false ->
  test Compiler.varRe doc = false ->
  test Compiler.nodeRe doc = false ->
  test Compiler.bangRe doc = false ->
  Compiler.mask doc = doc.
Proof.
  intros H1 H2 H3 H4.
  assert (Hid : forall r f s, test r s = false -> replaceAll r f s = s).
  { intros r f s H. unfold replaceAll.
    rewrite (RegexFacts.pieces_none _ _ (RegexFacts.test_false_search _ _ H)).
    simpl. apply app_nil_r. }
  unfold Compiler.mask, Compiler.pass3, Compiler.pass2, Compiler.pass1.
  now rewrite (Hid _ _ _ H1), (Hid _ _ _ H2), (Hid _ _ _ H3), (Hid _ _ _ H4).
Qed.

Lemma mask_plain_text_witness :
  let doc := str "{ a = [ 1 2 ]; b.c = true; }" in
  Compiler.mask doc = doc.
Proof.
  intros doc. apply (mask_plain_text doc); reflexivity.
Defined.

(** ** The debounced parser run *)

Module RunFacts.
Import Orchestrator.



End RunFacts.



(** ** The scan for the assignment sign *)

Module ScanFacts.
Import Format.

Lemma scanAssign_spec s : forall before i depth inString,
  i <= scanAssign before s i depth inString
  /\ scanAssign before s i depth inString <= i + length s
  /\ (scanAssign before s i depth inString < i + length s ->
      nth_error s (scanAssign before s i depth inString - i)
      = Some "="%char).
Proof.
  induction s as [|char s IH]; intros before i depth inString;
    cbn [scanAssign length].
  - repeat split; try lia.
  - set (ins := if (Ascii.eqb char dquote && _)%bool then negb inString
                else inString).
    assert (Hstep : forall d b,
               let j := scanAssign (Some char) s (S i) d b in
               i <= j /\ j <= i + S (length s)
               /\ (j < i + S (length s) ->
                   nth_error (char :: s) (j - i) = Some "="%char)).
    { intros d b j. destruct (IH (Some char) (S i) d b) as (H1 & H2 & H3).
      fold j in H1, H2, H3. repeat split; try lia.
      intros Hlt. replace (j - i) with (S (j - S i)) by lia.
      apply H3. lia. }
    destruct ins; [apply Hstep|].
    match goal with |- context [((?d =? 0)%Z && ?e)%bool] =>
      destruct ((d =? 0)%Z && e)%bool eqn:E end; [|apply Hstep].
    apply andb_prop in E as [_ E]. apply Ascii.eqb_eq in E. subst char.
    rewrite Nat.sub_diag. repeat split; try lia.
Qed.

End ScanFacts.

(** X18.  The forward scan of the formatter's declaration loop, started at
    the end of a declaration head, stops inside the text only on an equals
    sign: it never stops before its starting point, never runs past the end
    of the text, and where it stops before the end the character there is
    [=]. *)
Theorem assignment_scan_stops_on_sign (prepText : text) (stop : nat)
    (before : option ascii) :
  stop <= length prepText ->
  let i := Format.scanAssign before (skipn stop prepText) stop 0%Z false in
  stop <= i /\ i <= length prepText
  /\ (i < length prepText -> nth_error prepText i = Some "="%char).
Proof.
  intros Hstop i.
  destruct (ScanFacts.scanAssign_spec (skipn stop prepText) before stop 0%Z
              false) as (H1 & H2 & H3).
  fold i in H1, H2, H3. rewrite length_skipn in H2, H3.
  repeat split; try lia.
  intros Hlt. rewrite nth_error_skipn in H3.
  replace (stop + (i - stop)) with i in H3 by lia.
  apply H3. lia.
Qed.

Lemma assignment_scan_stops_on_sign_witness :
  let prepText := str "_let a: enum [ (x = 1) ] = 2;" in
  Format.scanAssign (Some "m"%char) (skipn 12 prepText) 12 0%Z false = 25
  /\ nth_error prepText 25 = Some "="%char.
Proof.
  intros prepText.
  destruct (@assignment_scan_stops_on_sign prepText 12 (Some "m"%char))
    as (_ & _ & H); [simpl; lia|].
  split; [reflexivity|]. apply H. simpl. lia.
Defined.

(** ** The suggestions at the cursor *)

Module CompletionFacts.
Import Completion RegexFacts.










End CompletionFacts.





(** ** Enum options offered and enum values checked *)

Module EnumFacts.
Import RegexFacts.

Section OneClass.
Variable p : ascii -> bool.





End OneClass.




End EnumFacts.



(** ** Where a type error is placed *)

Module CoverFacts.
Import TypeChecks.









End CoverFacts.


